(** * aretext: token tree, cursor locators, regular-expression parser and
      input modes

    A shallow embedding of
    - [syntax2/parser/tokentree.go]: module [TokenTrees] reads a
      [*TokenTree] as the tree it points to, module [TokenHeap] keeps the
      nodes in a store to speak about sharing and allocation;
    - [internal/pkg/exec/locator.go]: module [Locators];
    - [internal/pkg/syntax/parser/regexp.go]: module [Regexps];
    - [input/mode.go]: module [InputModes];
    followed by the properties established about each of them. *)

From Stdlib Require Import ZArith NArith List Bool Lia Arith.
From Stdlib Require Import Sorting.Sorted Sorting.Permutation.
From Stdlib Require Strings.String Strings.Ascii.
Import ListNotations.

(* ===================================================================== *)
(** * Token tree ([syntax2/parser/tokentree.go]) *)
(* ===================================================================== *)

Module TokenTrees.

Local Open Scope N_scope.

(** Modelled from the spec: the [Token] struct is declared in a file that
    is not part of the sources at hand.  The spec gives it as
    [(start_pos, end_pos, lookahead_pos, role)]; positions are [uint64]
    values, kept here as [N] (the tree only ever compares them), and the
    role is an enumeration kept as its number. *)
Record Token : Type := mkToken {
  Role : N;
  StartPos : N;
  EndPos : N;
  LookaheadPos : N
}.

(** [*TokenTree]: [Nil] is the nil pointer, [Node] a pointer to a struct
    with the five fields of the Go declaration, in the same order. *)
Inductive TokenTree : Type :=
| Nil
| Node (token : Token) (minStartPos maxEndPos : N)
       (leftChild rightChild : TokenTree).

(** A panic is [None].  ([a >= b] of the source is written [b <=? a], and
    [a > b] is written [b <? a].) *)
Definition validateNewToken (token : Token) : option unit :=
  if EndPos token <=? StartPos token then None
  else if LookaheadPos token <? EndPos token then None
  else Some tt.

(** [withLeftChild] and [withRightChild] read fields of both the receiver
    and the child, so a nil on either side is a nil dereference. *)
Definition withLeftChild (t child : TokenTree) : option TokenTree :=
  match t, child with
  | Node tk mn mx l r, Node _ cmn _ _ _ =>
      let minStart := if cmn <? mn then cmn else mn in
      Some (Node tk minStart mx child r)
  | _, _ => None
  end.

Definition withRightChild (t child : TokenTree) : option TokenTree :=
  match t, child with
  | Node tk mn mx l r, Node _ _ cmx _ _ =>
      let maxEnd := if mx <? cmx then cmx else mx in
      Some (Node tk mn maxEnd l child)
  | _, _ => None
  end.

Fixpoint Insert (t : TokenTree) (token : Token) : option TokenTree :=
  match validateNewToken token with
  | None => None
  | Some _ =>
      match t with
      | Nil => Some (Node token (StartPos token) (EndPos token) Nil Nil)
      | Node tk _ _ l r =>
          if EndPos token <=? StartPos tk then
            match Insert l token with
            | Some child => withLeftChild t child
            | None => None
            end
          else if EndPos tk <=? StartPos token then
            match Insert r token with
            | Some child => withRightChild t child
            | None => None
            end
          else None
      end
  end.

Fixpoint Join (t other : TokenTree) : option TokenTree :=
  match t, other with
  | Nil, Nil => Some Nil
  | Nil, _ => Some other
  | _, Nil => Some t
  | Node tk mn mx l r, Node _ omn omx _ _ =>
      if omx <=? mn then
        match Join l other with
        | Some l' => Some (Node tk omn mx l' r)
        | None => None
        end
      else if mx <=? omn then
        match Join r other with
        | Some r' => Some (Node tk mn omx l r')
        | None => None
        end
      else None
  end.

(** [TokenIter]: the Go slice is used as a stack whose top is its last
    element; the list below keeps the same nodes with the top first. *)
Record TokenIter : Type := mkIter { stack : list TokenTree }.

(** The descent loop of [IterFromPosition], with the stack built so far. *)
Fixpoint iterDescend (t : TokenTree) (pos : N) (st : list TokenTree)
  : list TokenTree :=
  match t with
  | Nil => st
  | Node tk _ _ l r =>
      if pos <? StartPos tk then iterDescend l pos (t :: st)
      else if EndPos tk <=? pos then iterDescend r pos st
      else t :: st
  end.

Definition IterFromPosition (t : TokenTree) (pos : N) : TokenIter :=
  mkIter (iterDescend t pos []).

(** Only entered (non-nil) nodes are ever pushed; a nil on the stack
    would be a nil dereference in [Get], rendered here as "no token". *)
Definition Get (iter : TokenIter) : option Token :=
  match stack iter with
  | Node tk _ _ _ _ :: _ => Some tk
  | _ => None
  end.

(** The loop of [Advance]: push [t] and all its left descendants. *)
Fixpoint pushLeftSpine (t : TokenTree) (st : list TokenTree)
  : list TokenTree :=
  match t with
  | Nil => st
  | Node _ _ _ l _ => pushLeftSpine l (t :: st)
  end.

Definition Advance (iter : TokenIter) : TokenIter :=
  match stack iter with
  | [] => iter
  | Node _ _ _ _ r :: rest => mkIter (pushLeftSpine r rest)
  | Nil :: rest => mkIter rest
  end.

(** Number of nodes of a tree, and number of tokens an iterator has yet
    to yield: the bound on the iterations of [Collect]'s loop. *)
Fixpoint size (t : TokenTree) : nat :=
  match t with
  | Nil => 0
  | Node _ _ _ l r => S (size l + size r)
  end.

Fixpoint pending (st : list TokenTree) : nat :=
  match st with
  | Node _ _ _ _ r :: rest => S (size r + pending rest)
  | _ => 0
  end.

(** [Collect]'s loop [for iter.Get(&tok) { append; Advance }], run for at
    most [n] iterations. *)
Fixpoint collectLoop (n : nat) (iter : TokenIter) (result : list Token)
  : list Token :=
  match n with
  | O => result
  | S n' =>
      match Get iter with
      | Some tok => collectLoop n' (Advance iter) (result ++ [tok])
      | None => result
      end
  end.

(** The loop runs once per pending token, so [pending] iterations exhaust
    it (lemma [collectLoop_exhausts] below). *)
Definition Collect (iter : TokenIter) : list Token :=
  collectLoop (pending (stack iter)) iter [].

(** Repeated insertion, starting from the empty tree. *)
Fixpoint InsertAll (t : TokenTree) (tokens : list Token)
  : option TokenTree :=
  match tokens with
  | [] => Some t
  | tok :: rest =>
      match Insert t tok with
      | Some t' => InsertAll t' rest
      | None => None
      end
  end.

(** ** Specification vocabulary *)

Fixpoint inorder (t : TokenTree) : list Token :=
  match t with
  | Nil => []
  | Node tk _ _ l r => inorder l ++ tk :: inorder r
  end.

Definition validToken (tok : Token) : Prop :=
  StartPos tok < EndPos tok /\ EndPos tok <= LookaheadPos tok.

(** [a] ends at or before the start of [b]. *)
Definition before (a b : Token) : Prop := EndPos a <= StartPos b.

Definition overlaps (a b : Token) : Prop :=
  StartPos a < EndPos b /\ StartPos b < EndPos a.

Definition disjoint (a b : Token) : Prop := before a b \/ before b a.

(** The ordering invariant of the data model: tokens of the left subtree
    end at or before the node's token, tokens of the right subtree start
    at or after its end, and every token has positive length. *)
Fixpoint ordered (t : TokenTree) : Prop :=
  match t with
  | Nil => True
  | Node tk _ _ l r =>
      StartPos tk < EndPos tk /\
      ordered l /\ ordered r /\
      Forall (fun x => before x tk) (inorder l) /\
      Forall (fun x => before tk x) (inorder r)
  end.

(** The aggregates of the data model: [minStartPos] is at or below every
    start and [maxEndPos] at or above every end of the node's subtree. *)
Fixpoint spanned (t : TokenTree) : Prop :=
  match t with
  | Nil => True
  | Node tk mn mx l r =>
      spanned l /\ spanned r /\
      Forall (fun x => mn <= StartPos x /\ EndPos x <= mx)
             (inorder l ++ tk :: inorder r)
  end.

(** The trees that the package can build: the only ways to a
    [*TokenTree] are nil, [Insert] and [Join]. *)
Inductive constructible : TokenTree -> Prop :=
| constructible_nil : constructible Nil
| constructible_Insert t tok t' :
    constructible t -> Insert t tok = Some t' -> constructible t'
| constructible_Join t other t' :
    constructible t -> constructible other -> Join t other = Some t' ->
    constructible t'.

(** Tokens still to be yielded by a stack of pending nodes. *)
Fixpoint pendingTokens (st : list TokenTree) : list Token :=
  match st with
  | Node tk _ _ _ r :: rest => tk :: inorder r ++ pendingTokens rest
  | _ => []
  end.

Definition endsAfter (pos : N) (tok : Token) : bool := pos <? EndPos tok.

(** The aggregates are attained: some token of the subtree starts at
    [minStartPos] and some token ends at [maxEndPos]. *)
Fixpoint attained (t : TokenTree) : Prop :=
  match t with
  | Nil => True
  | Node tk mn mx l r =>
      attained l /\ attained r /\
      Exists (fun x => StartPos x = mn) (inorder l ++ tk :: inorder r) /\
      Exists (fun x => EndPos x = mx) (inorder l ++ tk :: inorder r)
  end.

(** The span of a tree, from its aggregates: nothing for nil. *)
Definition span (t : TokenTree) : option (N * N) :=
  match t with
  | Nil => None
  | Node _ mn mx _ _ => Some (mn, mx)
  end.

(** Two spans overlap: neither ends at or before the start of the other. *)
Definition spansOverlap (a b : option (N * N)) : Prop :=
  match a, b with
  | Some (mn, mx), Some (omn, omx) => mn < omx /\ omn < mx
  | _, _ => False
  end.

End TokenTrees.

(* ===================================================================== *)
(** * The token tree as nodes in a store *)
(* ===================================================================== *)

(** [TokenTrees] reads a [*TokenTree] as the tree it points to, which is
    what the traversal and the ordering depend on.  Whether a call leaves
    the nodes that exist alone, and which nodes the tree it returns is
    made of, depends on the pointers themselves: here the nodes live in a
    store, a pointer is an address in it (or nil), and [&TokenTree{...}]
    allocates a fresh address. *)

Module TokenHeap.

Import TokenTrees.
Local Open Scope N_scope.

(** A pointer: [None] is nil. *)
Definition ptr : Type := option nat.

(** The struct [TokenTree]. *)
Record node : Type := mkNode {
  token : Token;
  minStartPos : N;
  maxEndPos : N;
  leftChild : ptr;
  rightChild : ptr
}.

(** The store: the node at address [a] is the [a]-th element. *)
Definition heap : Type := list node.

(** [&TokenTree{...}]: the new node goes to the first unused address. *)
Definition alloc (h : heap) (n : node) : heap * ptr :=
  (h ++ [n], Some (length h)).

(** Dereferencing; nil and addresses outside the store have no node. *)
Definition deref (h : heap) (p : ptr) : option node :=
  match p with
  | None => None
  | Some a => nth_error h a
  end.

(** The outcome of a call: a value, a panic, or a run of the model cut
    short by its bound on the depth of recursion. *)
Inductive outcome (A : Type) : Type :=
| Done (a : A)
| Panic
| OutOfFuel.

Arguments Done {A} a.
Arguments Panic {A}.
Arguments OutOfFuel {A}.

Definition withLeftChild (h : heap) (t child : ptr) : outcome (heap * ptr) :=
  match deref h t, deref h child with
  | Some tn, Some cn =>
      let minStart :=
        if minStartPos cn <? minStartPos tn then minStartPos cn
        else minStartPos tn in
      Done (alloc h (mkNode (token tn) minStart (maxEndPos tn)
                            child (rightChild tn)))
  | _, _ => Panic
  end.

Definition withRightChild (h : heap) (t child : ptr) : outcome (heap * ptr) :=
  match deref h t, deref h child with
  | Some tn, Some cn =>
      let maxEnd :=
        if maxEndPos tn <? maxEndPos cn then maxEndPos cn
        else maxEndPos tn in
      Done (alloc h (mkNode (token tn) (minStartPos tn) maxEnd
                            (leftChild tn) child))
  | _, _ => Panic
  end.

Fixpoint Insert (fuel : nat) (h : heap) (t : ptr) (tok : Token)
  : outcome (heap * ptr) :=
  match fuel with
  | O => OutOfFuel
  | S fuel' =>
      match validateNewToken tok with
      | None => Panic
      | Some _ =>
          match t with
          | None =>
              Done (alloc h (mkNode tok (StartPos tok) (EndPos tok)
                                    None None))
          | Some a =>
              match nth_error h a with
              | None => Panic
              | Some tn =>
                  if EndPos tok <=? StartPos (token tn) then
                    match Insert fuel' h (leftChild tn) tok with
                    | Done (h1, child) => withLeftChild h1 t child
                    | Panic => Panic
                    | OutOfFuel => OutOfFuel
                    end
                  else if EndPos (token tn) <=? StartPos tok then
                    match Insert fuel' h (rightChild tn) tok with
                    | Done (h1, child) => withRightChild h1 t child
                    | Panic => Panic
                    | OutOfFuel => OutOfFuel
                    end
                  else Panic
              end
          end
      end
  end.

Fixpoint Join (fuel : nat) (h : heap) (t other : ptr)
  : outcome (heap * ptr) :=
  match fuel with
  | O => OutOfFuel
  | S fuel' =>
      match t, other with
      | None, None => Done (h, None)
      | None, Some _ => Done (h, other)
      | Some _, None => Done (h, t)
      | Some a, Some b =>
          match nth_error h a, nth_error h b with
          | Some tn, Some on =>
              if maxEndPos on <=? minStartPos tn then
                match Join fuel' h (leftChild tn) other with
                | Done (h1, l') =>
                    Done (alloc h1 (mkNode (token tn) (minStartPos on)
                                           (maxEndPos tn) l'
                                           (rightChild tn)))
                | Panic => Panic
                | OutOfFuel => OutOfFuel
                end
              else if maxEndPos tn <=? minStartPos on then
                match Join fuel' h (rightChild tn) other with
                | Done (h1, r') =>
                    Done (alloc h1 (mkNode (token tn) (minStartPos tn)
                                           (maxEndPos on) (leftChild tn)
                                           r'))
                | Panic => Panic
                | OutOfFuel => OutOfFuel
                end
              else Panic
          | _, _ => Panic
          end
      end
  end.

(** ** Specification vocabulary *)

(** The pointer [p] points, in the store [h], to the tree [t]. *)
Inductive repr (h : heap) : ptr -> TokenTree -> Prop :=
| repr_nil : repr h None Nil
| repr_node a n l r :
    nth_error h a = Some n ->
    repr h (leftChild n) l ->
    repr h (rightChild n) r ->
    repr h (Some a)
         (Node (token n) (minStartPos n) (maxEndPos n) l r).

(** The store [h'] is [h] with nodes added: every address of [h] still
    holds the node it held. *)
Definition extends (h h' : heap) : Prop := exists added, h' = h ++ added.

(** The pointer is to a node that [h] does not hold. *)
Definition freshIn (h : heap) (p : ptr) : Prop :=
  match p with
  | Some a => (length h <= a)%nat
  | None => False
  end.

(** Depth of a tree: the recursion depth [Insert] and [Join] may reach. *)
Fixpoint depth (t : TokenTree) : nat :=
  match t with
  | Nil => 0
  | Node _ _ _ l r => S (Nat.max (depth l) (depth r))
  end.

End TokenHeap.

(* ===================================================================== *)
(** * Cursor locators ([internal/pkg/exec/locator.go]) *)
(* ===================================================================== *)

Module Locators.

Local Open Scope Z_scope.

(** ** [uint64] arithmetic, with its wrap-around *)

Definition u64 (z : Z) : Z := z mod 2 ^ 64.
Definition add64 (a b : Z) : Z := u64 (a + b).
Definition sub64 (a b : Z) : Z := u64 (a - b).

Inductive ReadDirection : Type :=
| ReadDirectionForward
| ReadDirectionBackward.

(** ** The text buffer and its grapheme-cluster iterator

    The packages [text] and [text/segment] are not part of the sources
    at hand; what the locators use of them is modelled below. *)

(** A rune is a code point. *)
Definition rune : Type := Z.

(** Modelled from the spec: a segment is one grapheme cluster, "a
    user-perceived character; may be multiple code points".  The locators
    only ask it for its number of runes and whether it holds a newline
    ("either \n or \r\n", as [ontoLineLocator.Locate] puts it). *)
Definition Segment : Type := list rune.

Definition NumRunes (seg : Segment) : Z := u64 (Z.of_nat (length seg)).

Definition HasNewline (seg : Segment) : bool := existsb (Z.eqb 10) seg.

(** Modelled from the spec: the text buffer is "a large, editable byte
    sequence indexed by character position, supporting bidirectional
    streaming reads from arbitrary positions"; here, the list of its
    characters. *)
Definition Tree : Type := list rune.

Definition NumChars (tree : Tree) : Z := u64 (Z.of_nat (length tree)).

Record cursorState : Type := mkCursor {
  position : Z;
  logicalOffset : Z
}.

Record State : Type := mkState {
  tree : Tree;
  cursor : cursorState
}.

(** [charInLineLocator] and [relativeLineLocator], with the fields of the
    Go declarations (those of the first carry a prefix, the two structs
    sharing field names). *)
Record charInLineLocator : Type := mkCharInLine {
  cil_direction : ReadDirection;
  cil_count : Z;
  cil_includeEndOfLineOrFile : bool
}.

Record relativeLineLocator : Type := mkRelativeLine {
  direction : ReadDirection;
  count : Z
}.

(** [lineBoundaryLocator] and [nonWhitespaceLocator], with the fields of
    the Go declarations under a prefix. *)
Record lineBoundaryLocator : Type := mkLineBoundary {
  lb_direction : ReadDirection;
  lb_includeEndOfLineOrFile : bool
}.

Record nonWhitespaceLocator : Type := mkNonWhitespace {
  nw_direction : ReadDirection
}.

(** The constructors panic ([None]) on a zero count. *)
Definition NewCharInLineLocator (direction : ReadDirection) (count : Z)
    (includeEndOfLineOrFile : bool) : option charInLineLocator :=
  if count =? 0 then None
  else Some (mkCharInLine direction count includeEndOfLineOrFile).

Definition NewRelativeLineLocator (direction : ReadDirection) (count : Z)
  : option relativeLineLocator :=
  if count =? 0 then None
  else Some (mkRelativeLine direction count).

(** Modelled from the spec: grapheme clusters of a text without combining
    marks, where every character is a cluster of its own except the pair
    "\r\n".  [asciiClusters] cuts a stream read forward, and
    [asciiClustersRev] a stream read backward (where the pair shows up as
    "\n\r"). *)
Fixpoint asciiClusters (l : list rune) : list Segment :=
  match l with
  | [] => []
  | r :: rest =>
      match rest with
      | r2 :: rest2 =>
          if (r =? 13) && (r2 =? 10) then [r; r2] :: asciiClusters rest2
          else [r] :: asciiClusters rest
      | [] => [[r]]
      end
  end.

Fixpoint asciiClustersRev (l : list rune) : list Segment :=
  match l with
  | [] => []
  | r :: rest =>
      match rest with
      | r2 :: rest2 =>
          if (r =? 10) && (r2 =? 13) then [r; r2] :: asciiClustersRev rest2
          else [r] :: asciiClustersRev rest
      | [] => [[r]]
      end
  end.

Section WithClusters.

(** How a stream of runes is cut into grapheme clusters, reading forward
    ([gcSplit], applied to the runes from a position on) and reading
    backward ([gcSplitRev], applied to the runes before a position, last
    one first). *)
Variable gcSplit : list rune -> list Segment.
Variable gcSplitRev : list rune -> list Segment.

(** [gcIterForTree]: the segments the iterator will return, in the order
    of its [NextSegment] calls; once the list is exhausted every further
    call reports end of file. *)
Definition gcIterForTree (tree : Tree) (pos : Z) (direction : ReadDirection)
  : list Segment :=
  match direction with
  | ReadDirectionBackward => gcSplitRev (rev (firstn (Z.to_nat pos) tree))
  | ReadDirectionForward => gcSplit (skipn (Z.to_nat pos) tree)
  end.

(** *** [ontoLineLocator] *)

Definition findNewlineAtPos (tree : Tree) (pos : Z) : bool * Z :=
  match gcIterForTree tree pos ReadDirectionForward with
  | [] => (false, 0)
  | seg :: _ =>
      if HasNewline seg then (true, add64 pos (NumRunes seg))
      else (false, 0)
  end.

(** The loop [for i := 0; i < count-1; i++] of [findPrevGraphemeCluster]:
    [n] is the number of iterations left; the result is what is left of
    the iterator and the offset. *)
Fixpoint skipClusters (n : nat) (segs : list Segment) (offset : Z)
  : list Segment * Z :=
  match n with
  | O => (segs, offset)
  | S n' =>
      match segs with
      | [] => ([], offset)
      | seg :: rest => skipClusters n' rest (add64 offset (NumRunes seg))
      end
  end.

Definition findPrevGraphemeCluster (tree : Tree) (pos : Z) (count : Z) : Z :=
  let '(segs, offset) :=
    skipClusters (Z.to_nat (count - 1))
                 (gcIterForTree tree pos ReadDirectionBackward) 0 in
  match segs with
  | [] => 0
  | seg :: _ =>
      if HasNewline seg then sub64 pos offset
      else sub64 (sub64 pos offset) (NumRunes seg)
  end.

Definition ontoLine_Locate (state : State) : cursorState :=
  let numChars := NumChars (tree state) in
  if numChars <=? position (cursor state) then
    mkCursor (findPrevGraphemeCluster (tree state) numChars 1) 0
  else
    let '(hasNewline, afterNewlinePos) :=
      findNewlineAtPos (tree state) (position (cursor state)) in
    if hasNewline then
      mkCursor (findPrevGraphemeCluster (tree state) afterNewlinePos 2) 0
    else
      mkCursor (position (cursor state)) 0.

(** *** [relativeLineLocator] *)

(** The loop of [findOffsetFromLineStart]. *)
Fixpoint offsetFromLineStartLoop (segs : list Segment) (offset : Z) : Z :=
  match segs with
  | [] => offset
  | seg :: rest =>
      if HasNewline seg then offset
      else offsetFromLineStartLoop rest (add64 offset 1)
  end.

Definition findOffsetFromLineStart (state : State) : Z :=
  add64 (offsetFromLineStartLoop
           (gcIterForTree (tree state) (position (cursor state))
                          ReadDirectionBackward) 0)
        (logicalOffset (cursor state)).

(** The loop of [findStartOfLineAbove]; the result is
    [(offset, newlineCount)]. *)
Fixpoint lineAboveLoop (count : Z) (segs : list Segment)
    (offset newlineCount : Z) : Z * Z :=
  match segs with
  | [] => (offset, newlineCount)
  | seg :: rest =>
      if HasNewline seg then
        let newlineCount' := add64 newlineCount 1 in
        if count <? newlineCount' then (offset, newlineCount')
        else lineAboveLoop count rest (add64 offset (NumRunes seg))
                           newlineCount'
      else lineAboveLoop count rest (add64 offset (NumRunes seg))
                         newlineCount
  end.

Definition findStartOfLineAbove (loc : relativeLineLocator) (tree : Tree)
    (pos : Z) : Z * Z :=
  let '(offset, newlineCount) :=
    lineAboveLoop (count loc)
                  (gcIterForTree tree pos ReadDirectionBackward) 0 0 in
  (sub64 pos offset, newlineCount).

(** The loop of [findStartOfLineBelow]: [segs] is the iterator and
    [lookahead] its clone, one segment ahead. *)
Fixpoint lineBelowLoop (count : Z) (segs lookahead : list Segment)
    (offset newlineCount : Z) : Z * Z :=
  if newlineCount <? count then
    match segs with
    | [] => (offset, newlineCount)
    | seg :: rest =>
        let lookaheadEof :=
          match lookahead with [] => true | _ :: _ => false end in
        if HasNewline seg && lookaheadEof then (offset, newlineCount)
        else
          lineBelowLoop count rest (tl lookahead)
            (add64 offset (NumRunes seg))
            (if HasNewline seg then add64 newlineCount 1 else newlineCount)
    end
  else (offset, newlineCount).

Definition findStartOfLineBelow (loc : relativeLineLocator) (tree : Tree)
    (pos : Z) : Z * Z :=
  let segmentIter := gcIterForTree tree pos ReadDirectionForward in
  let nextSegmentIter := tl segmentIter in
  let '(offset, newlineCount) :=
    lineBelowLoop (count loc) segmentIter nextSegmentIter 0 0 in
  (add64 pos offset, newlineCount).

Definition findStartOfLine (loc : relativeLineLocator) (tree : Tree)
    (pos : Z) : Z * Z :=
  match direction loc with
  | ReadDirectionBackward => findStartOfLineAbove loc tree pos
  | ReadDirectionForward => findStartOfLineBelow loc tree pos
  end.

(** The loop of [advanceToOffset]; the result is
    [(endOfLineOrFile, prevPosOffset, posOffset, gcOffset)]. *)
Fixpoint advanceLoop (targetOffset : Z) (segs : list Segment)
    (prevPosOffset posOffset gcOffset : Z) : bool * Z * Z * Z :=
  if gcOffset <? targetOffset then
    match segs with
    | [] => (true, prevPosOffset, posOffset, gcOffset)
    | seg :: rest =>
        if HasNewline seg then (true, prevPosOffset, posOffset, gcOffset)
        else advanceLoop targetOffset rest posOffset
                         (add64 posOffset (NumRunes seg))
                         (add64 gcOffset 1)
    end
  else (false, prevPosOffset, posOffset, gcOffset).

Definition advanceToOffset (tree : Tree) (lineStartPos targetOffset : Z)
  : Z * Z :=
  let '(endOfLineOrFile, prevPosOffset, posOffset, gcOffset) :=
    advanceLoop targetOffset
                (gcIterForTree tree lineStartPos ReadDirectionForward)
                0 0 0 in
  if endOfLineOrFile then
    (add64 lineStartPos prevPosOffset,
     if 0 <? gcOffset then sub64 gcOffset 1 else gcOffset)
  else
    (add64 lineStartPos posOffset, gcOffset).

Definition relativeLine_Locate (loc : relativeLineLocator) (state : State)
  : cursorState :=
  let targetOffset := findOffsetFromLineStart state in
  let '(lineStartPos, newlineCount) :=
    findStartOfLine loc (tree state) (position (cursor state)) in
  if newlineCount =? 0 then cursor state
  else
    let '(newPos, actualOffset) :=
      advanceToOffset (tree state) lineStartPos targetOffset in
    mkCursor newPos (sub64 targetOffset actualOffset).

(** ** Specification vocabulary *)

Definition noNewline (seg : Segment) : Prop := HasNewline seg = false.

(** Number of runes of a cluster, as a plain integer. *)
Definition clusterLen (seg : Segment) : Z := Z.of_nat (length seg).

(** Where [OntoLine] puts a cursor that is at or past the end of a text
    of [numChars] characters, given the clusters met reading backward
    from the end: the start of the last cluster, unless that cluster is a
    newline (the cursor is on the empty last line and stays), and 0 for
    an empty text. *)
Definition ontoLineAtEnd (bsegs : list Segment) (numChars : Z) : Z :=
  match bsegs with
  | [] => 0
  | last :: _ =>
      if HasNewline last then numChars else numChars - clusterLen last
  end.

(** Where [OntoLine] puts a cursor that is on a newline cluster ending at
    [after], given the clusters met reading backward from [after] (the
    newline cluster first): the start of the cluster before the newline,
    unless that one is a newline too (empty line: the start of the
    newline cluster itself), and 0 when the text starts with the
    newline. *)
Definition ontoLineOnNewline (bsegs : list Segment) (after : Z) : Z :=
  match bsegs with
  | nl :: prev :: _ =>
      if HasNewline prev then after - clusterLen nl
      else after - clusterLen nl - clusterLen prev
  | _ => 0
  end.

(** A walk over [segs] to the start of the line [count] newlines ahead,
    with no special case for the end of the text: runes passed and
    newlines crossed. *)
Fixpoint plainWalk (count : Z) (segs : list Segment)
    (offset newlineCount : Z) : Z * Z :=
  if newlineCount <? count then
    match segs with
    | [] => (offset, newlineCount)
    | seg :: rest =>
        plainWalk count rest (add64 offset (NumRunes seg))
          (if HasNewline seg then add64 newlineCount 1 else newlineCount)
    end
  else (offset, newlineCount).

(** *** [charInLineLocator] *)

(** The loop of [findPositionBeforeCursor], entered with the counter [i];
    the result is the position returned. *)
Fixpoint beforeCursorLoop (loc : charInLineLocator) (startPos : Z)
    (segs : list Segment) (i offset : Z) : Z :=
  if i <? cil_count loc then
    match segs with
    | [] => sub64 startPos offset
    | seg :: rest =>
        if startPos <? add64 offset (NumRunes seg) then 0
        else if HasNewline seg then
          sub64 startPos
                (if cil_includeEndOfLineOrFile loc
                 then add64 offset (NumRunes seg) else offset)
        else
          beforeCursorLoop loc startPos rest (add64 i 1)
                           (add64 offset (NumRunes seg))
    end
  else sub64 startPos offset.

Definition findPositionBeforeCursor (loc : charInLineLocator)
    (state : State) : Z :=
  let startPos := position (cursor state) in
  beforeCursorLoop loc startPos
    (gcIterForTree (tree state) startPos ReadDirectionBackward) 0 0.

(** The loop of [findPositionAfterCursor]; the result is
    [(endOfLineOrFile, prevPrevOffset, prevOffset)]. *)
Fixpoint afterCursorLoop (loc : charInLineLocator) (segs : list Segment)
    (i prevPrevOffset prevOffset : Z) : bool * Z * Z :=
  if i <=? cil_count loc then
    match segs with
    | [] => (true, prevPrevOffset, prevOffset)
    | seg :: rest =>
        if HasNewline seg then (true, prevPrevOffset, prevOffset)
        else afterCursorLoop loc rest (add64 i 1) prevOffset
                             (add64 prevOffset (NumRunes seg))
    end
  else (false, prevPrevOffset, prevOffset).

Definition findPositionAfterCursor (loc : charInLineLocator)
    (state : State) : Z :=
  let startPos := position (cursor state) in
  let '(endOfLineOrFile, prevPrevOffset, prevOffset) :=
    afterCursorLoop loc
      (gcIterForTree (tree state) startPos ReadDirectionForward) 0 0 0 in
  if endOfLineOrFile && cil_includeEndOfLineOrFile loc
  then add64 startPos prevOffset
  else add64 startPos prevPrevOffset.

Definition findPosition (loc : charInLineLocator) (state : State) : Z :=
  match cil_direction loc with
  | ReadDirectionBackward => findPositionBeforeCursor loc state
  | ReadDirectionForward => findPositionAfterCursor loc state
  end.

Definition charInLine_Locate (loc : charInLineLocator) (state : State)
  : cursorState :=
  let newPosition := findPosition loc state in
  let logicalOffset :=
    if newPosition =? position (cursor state)
    then logicalOffset (cursor state) else 0 in
  mkCursor newPosition logicalOffset.

(** *** [lineBoundaryLocator] *)

(** The loop of [lineBoundaryLocator.Locate]; the result is
    [(prevOffset, offset)]. *)
Fixpoint lineBoundaryLoop (segs : list Segment) (prevOffset offset : Z)
  : Z * Z :=
  match segs with
  | [] => (prevOffset, offset)
  | seg :: rest =>
      if HasNewline seg then (prevOffset, offset)
      else lineBoundaryLoop rest offset (add64 offset (NumRunes seg))
  end.

Definition lineBoundary_Locate (loc : lineBoundaryLocator) (state : State)
  : cursorState :=
  let '(prevOffset, offset) :=
    lineBoundaryLoop
      (gcIterForTree (tree state) (position (cursor state))
                     (lb_direction loc)) 0 0 in
  let newPosition :=
    match lb_direction loc with
    | ReadDirectionForward =>
        if lb_includeEndOfLineOrFile loc
        then add64 (position (cursor state)) offset
        else add64 (position (cursor state)) prevOffset
    | ReadDirectionBackward => sub64 (position (cursor state)) offset
    end in
  if newPosition =? position (cursor state) then cursor state
  else mkCursor newPosition 0.

(** *** [nonWhitespaceLocator] *)

(** [Segment.IsWhitespace], from the package [text/segment]. *)
Variable IsWhitespace : Segment -> bool.

(** The loop of [nonWhitespaceLocator.Locate]; the result is the offset
    and what is left of the iterator, the segment that ended the loop
    having been read. *)
Fixpoint nonWhitespaceLoop (segs : list Segment) (offset : Z)
  : Z * list Segment :=
  match segs with
  | [] => (offset, [])
  | seg :: rest =>
      if IsWhitespace seg
      then nonWhitespaceLoop rest (add64 offset (NumRunes seg))
      else (offset, rest)
  end.

Definition nonWhitespace_Locate (loc : nonWhitespaceLocator) (state : State)
  : cursorState :=
  let '(offset, segmentIter) :=
    nonWhitespaceLoop
      (gcIterForTree (tree state) (position (cursor state))
                     (nw_direction loc)) 0 in
  let newPosition :=
    match nw_direction loc with
    | ReadDirectionForward => add64 (position (cursor state)) offset
    | ReadDirectionBackward =>
        let offset' :=
          if 0 <? offset then
            match segmentIter with
            | [] => offset
            | seg :: _ => add64 offset (NumRunes seg)
            end
          else offset in
        sub64 (position (cursor state)) offset'
    end in
  if newPosition =? position (cursor state) then cursor state
  else mkCursor newPosition 0.

(** ** More specification vocabulary *)

(** The clusters of the current line met from the cursor on: those before
    the first cluster that holds a newline. *)
Fixpoint lineClusters (segs : list Segment) : list Segment :=
  match segs with
  | [] => []
  | seg :: rest => if HasNewline seg then [] else seg :: lineClusters rest
  end.

(** The leading clusters that are whitespace. *)
Fixpoint whitespaceClusters (segs : list Segment) : list Segment :=
  match segs with
  | [] => []
  | seg :: rest =>
      if IsWhitespace seg then seg :: whitespaceClusters rest else []
  end.

(** Total number of runes of a list of clusters. *)
Definition clusterRunes (segs : list Segment) : Z :=
  Z.of_nat (length (concat segs)).

End WithClusters.

(** A cluster iterator cuts a stream into consecutive, non-empty pieces,
    and cutting what follows the first piece gives the other pieces. *)
Definition cutsIntoClusters (gcSplit : list rune -> list Segment) : Prop :=
  (forall l, concat (gcSplit l) = l) /\
  (forall l, Forall (fun seg => seg <> []) (gcSplit l)) /\
  (forall l seg segs,
      gcSplit l = seg :: segs -> gcSplit (skipn (length seg) l) = segs).

(** The characters of a text are plain ASCII. *)
Definition asciiText (tree : Tree) : Prop :=
  Forall (fun r => 0 <= r < 128) tree.

(** A cluster iterator that cuts ASCII text the way [asciiClusters] and
    [asciiClustersRev] do (single characters, and "\r\n" as one). *)
Definition cutsAscii (gcSplit gcSplitRev : list rune -> list Segment)
  : Prop :=
  (forall l, asciiText l -> gcSplit l = asciiClusters l) /\
  (forall l, asciiText l -> gcSplitRev l = asciiClustersRev l).

(** The text of a string literal, as runes. *)
Definition runes (s : String.string) : list rune :=
  map (fun c => Z.of_N (Ascii.N_of_ascii c)) (String.list_ascii_of_string s).

(** Number of newline characters among the runes in the given direction
    from position [pos]. *)
Definition newlinesFrom (tree : Tree) (pos : Z) (dir : ReadDirection) : Z :=
  let part :=
    match dir with
    | ReadDirectionBackward => firstn (Z.to_nat pos) tree
    | ReadDirectionForward => skipn (Z.to_nat pos) tree
    end in
  Z.of_nat (length (filter (Z.eqb 10) part)).

(** How many clusters [charInLineLocator] moves over, [segs] being the
    clusters met from the cursor on in its direction: at most [count],
    and going forward not past the last cluster of the line unless the
    end of the line is included; going backward the newline cluster
    counts as one more when it is included. *)
Definition clustersPassed (loc : charInLineLocator) (segs : list Segment)
  : nat :=
  let k := length (lineClusters segs) in
  match cil_direction loc with
  | ReadDirectionForward =>
      if cil_count loc <? Z.of_nat k then Z.to_nat (cil_count loc)
      else if cil_includeEndOfLineOrFile loc then k else pred k
  | ReadDirectionBackward =>
      if cil_count loc <=? Z.of_nat k then Z.to_nat (cil_count loc)
      else if cil_includeEndOfLineOrFile loc then S k else k
  end.

(** The same for [lineBoundaryLocator], which is not bounded by a count
    and never passes the newline. *)
Definition clustersToBoundary (loc : lineBoundaryLocator)
    (segs : list Segment) : nat :=
  let k := length (lineClusters segs) in
  match lb_direction loc with
  | ReadDirectionForward =>
      if lb_includeEndOfLineOrFile loc then k else pred k
  | ReadDirectionBackward => k
  end.

(** The position [offset] runes from [pos] in a direction. *)
Definition moved (dir : ReadDirection) (pos offset : Z) : Z :=
  match dir with
  | ReadDirectionForward => pos + offset
  | ReadDirectionBackward => pos - offset
  end.

(** A state whose cursor and text length fit the 64 bits of a position. *)
Definition inRange (state : State) : Prop :=
  0 <= position (cursor state) < 2 ^ 64 /\
  Z.of_nat (length (tree state)) < 2 ^ 64.

(** The cluster that [nonWhitespaceLocator] reads after its loop, going
    backward: the loop has read the whitespace clusters and the cluster
    that ended it, so this is the one after that. *)
Definition clusterAfterLoop (IsWhitespace : Segment -> bool)
    (segs : list Segment) : Segment :=
  nth (S (length (whitespaceClusters IsWhitespace segs))) segs [].

(** The column [relativeLineLocator] reaches in a line of [line]
    clusters when it aims at the column [targetOffset]: the target when
    the line has that many clusters, the end of the line included, and
    the last cluster of the line otherwise. *)
Definition columnReached (targetOffset : Z) (line : list Segment) : nat :=
  if targetOffset <=? Z.of_nat (length line) then Z.to_nat targetOffset
  else pred (length line).

End Locators.

(* ===================================================================== *)
(** * Regular-expression parser
      ([internal/pkg/syntax/parser/regexp.go]) *)
(* ===================================================================== *)

Module Regexps.

Import Strings.Ascii Strings.String.
Local Open Scope char_scope.
Local Open Scope string_scope.

(** The implementations of the [Regexp] interface. *)
Inductive Regexp : Type :=
| regexpEmpty
| regexpConcat (left right : Regexp)
| regexpUnion (left right : Regexp)
| regexpStar (child : Regexp)
| regexpParenExpr (child : Regexp)
| regexpChar (char : ascii)
| regexpCharClass (negated : bool) (chars : list ascii)
| regexpStartOfText
| regexpEndOfText.

(** What a parsing function returns: a value ([err == nil]), or an error
    with its message and no value.  [OutOfFuel] is not a result of the Go
    code: it marks a run of the model cut short by its iteration bound. *)
Inductive Result (A : Type) : Type :=
| Ok (a : A)
| Err (msg : string)
| OutOfFuel.

Arguments Ok {A} a.
Arguments Err {A} msg.
Arguments OutOfFuel {A}.

(** The parsing functions take the string [s] and an index [pos]; below
    they take the part of [s] from [pos] on, and where the Go code
    returns a new index they return the part of [s] from that index on.
    [pos >= len(s)] is "the rest is empty", [s[pos]] its first byte. *)

(** [_, ok := regexp.(regexpEmpty)] *)
Definition isEmpty (regexp : Regexp) : bool :=
  match regexp with
  | regexpEmpty => true
  | _ => false
  end.

(** [s] starts at the backslash. *)
Definition parseEscapeSequence (s : string) : Result (Regexp * string) :=
  match s with
  | String _ (String c rest) => Ok (regexpChar c, rest)
  | _ => Err "Invalid escape sequence"
  end.

(** The loop of [parseCharacterClass]. *)
Fixpoint classLoop (s : string) (negated : bool) (chars : list ascii)
  : Result (Regexp * string) :=
  match s with
  | EmptyString => Err "Expected closing bracket"
  | String c rest =>
      if (c =? "]")%char then Ok (regexpCharClass negated chars, rest)
      else if (c =? "\")%char then
        match rest with
        | EmptyString => Err "Invalid escape sequence in character class"
        | String c2 rest2 =>
            if ((c2 =? "[") || (c2 =? "]") || (c2 =? "^") || (c2 =? "\"))%char
            then classLoop rest2 negated (chars ++ [c2])%list
            else Err "Unrecognized escape sequence in character class"
        end
      else classLoop rest negated (chars ++ [c])%list
  end.

(** [s] starts at the opening bracket. *)
Definition parseCharacterClass (s : string) : Result (Regexp * string) :=
  match s with
  | EmptyString => Err "Expected closing bracket"
  | String _ rest =>
      match rest with
      | EmptyString => classLoop rest false []
      | String c' rest' =>
          if (c' =? "^")%char then classLoop rest' true []
          else classLoop rest false []
      end
  end.

(** The update of [regexp] shared by the cases that read one atom:
    the atom itself after nothing, a concatenation otherwise. *)
Definition appendAtom (regexp nextRegexp : Regexp) : Regexp :=
  if isEmpty regexp then nextRegexp else regexpConcat regexp nextRegexp.

(** The cases of the switch in [parseRegexp]'s loop that do not call
    [parseRegexp] again: the quantifiers, the escape sequence, the
    character class, and the atoms ".", "^", "$" and any other byte.
    [s] is [String c rest]; the result is the new [regexp] and the rest
    of the input. *)
Definition parseSimpleCase (c : ascii) (rest : string) (regexp : Regexp)
  : Result (Regexp * string) :=
  if (c =? "*")%char then
    match regexp with
    | regexpEmpty => Err "Expected characters before star"
    | regexpConcat l r => Ok (regexpConcat l (regexpStar r), rest)
    | _ => Ok (regexpStar regexp, rest)
    end
  else if (c =? "+")%char then
    match regexp with
    | regexpEmpty => Err "Expected characters before plus"
    | regexpConcat l r =>
        Ok (regexpConcat l (regexpConcat r (regexpStar r)), rest)
    | _ => Ok (regexpConcat regexp (regexpStar regexp), rest)
    end
  else if (c =? "?")%char then
    match regexp with
    | regexpEmpty => Err "Expected characters before question mark"
    | regexpConcat l r =>
        Ok (regexpConcat l (regexpUnion regexpEmpty r), rest)
    | _ => Ok (regexpUnion regexpEmpty regexp, rest)
    end
  else if (c =? "\")%char then
    match parseEscapeSequence (String c rest) with
    | Ok (nextRegexp, rest') => Ok (appendAtom regexp nextRegexp, rest')
    | Err e => Err e
    | OutOfFuel => OutOfFuel
    end
  else if (c =? "[")%char then
    match parseCharacterClass (String c rest) with
    | Ok (nextRegexp, rest') => Ok (appendAtom regexp nextRegexp, rest')
    | Err e => Err e
    | OutOfFuel => OutOfFuel
    end
  else if (c =? ".")%char then
    Ok (appendAtom regexp (regexpCharClass true []), rest)
  else if (c =? "^")%char then
    Ok (appendAtom regexp regexpStartOfText, rest)
  else if (c =? "$")%char then
    Ok (appendAtom regexp regexpEndOfText, rest)
  else
    Ok (appendAtom regexp (regexpChar c), rest).

(** [parseRegexp] and its loop [for pos < len(s)], with [regexp] the
    expression read so far.  Each call and each iteration takes one unit
    of [fuel]. *)
Fixpoint parseRegexp (fuel : nat) (s : string) (inParen : bool)
  {struct fuel} : Result (Regexp * string) :=
  match fuel with
  | O => OutOfFuel
  | S fuel' =>
      match s with
      | EmptyString => Err "Unexpected end of regular expression"
      | String _ _ => parseLoop fuel' s inParen regexpEmpty
      end
  end
with parseLoop (fuel : nat) (s : string) (inParen : bool) (regexp : Regexp)
  {struct fuel} : Result (Regexp * string) :=
  match fuel with
  | O => OutOfFuel
  | S fuel' =>
      match s with
      | EmptyString => Ok (regexp, EmptyString)
      | String c rest =>
          if (c =? "(")%char then
            match parseRegexp fuel' rest true with
            | Ok (nextRegexp, afterInner) =>
                match afterInner with
                | EmptyString => Err "Expected closing paren"
                | String c' rest' =>
                    if (c' =? ")")%char then
                      parseLoop fuel' rest' inParen
                        (appendAtom regexp (regexpParenExpr nextRegexp))
                    else Err "Expected closing paren"
                end
            | Err e => Err e
            | OutOfFuel => OutOfFuel
            end
          else if (c =? ")")%char then
            if inParen then Ok (regexp, s)
            else Err "Unexpected closing paren"
          else if (c =? "|")%char then
            match parseRegexp fuel' rest inParen with
            | Ok (nextRegexp, afterInner) =>
                if isEmpty regexp then Err "Expected characters before union"
                else parseLoop fuel' afterInner inParen
                       (regexpUnion regexp nextRegexp)
            | Err e => Err e
            | OutOfFuel => OutOfFuel
            end
          else
            match parseSimpleCase c rest regexp with
            | Ok (regexp', rest') => parseLoop fuel' rest' inParen regexp'
            | Err e => Err e
            | OutOfFuel => OutOfFuel
            end
      end
  end.

(** [ParseRegexp]: the iteration bound [2 * len(s) + 2] is never reached
    (theorem [ParseRegexp_returns] below). *)
Definition ParseRegexp (s : string) : Result Regexp :=
  match parseRegexp (2 * length s + 2) s false with
  | Ok (regexp, _) => Ok regexp
  | Err e => Err e
  | OutOfFuel => OutOfFuel
  end.

(** ** Specification vocabulary *)

(** A result that carries no value. *)
Definition isErr {A} (res : Result A) : Prop := exists e, res = Err e.

(** A call that did not return a value within its bound. *)
Definition notOk {A} (res : Result A) : Prop :=
  match res with
  | Ok _ => False
  | _ => True
  end.

(** A well-formed pattern, or no pattern at all: what may stand before
    the place where a pattern goes wrong. *)
Definition prefixOk (s : string) : Prop :=
  s = "" \/ exists regexp, ParseRegexp s = Ok regexp.

(** An end of pattern [t] that makes the parse fail wherever it is met
    outside parentheses, whatever has been read before it. *)
Definition tailFails (t : string) : Prop :=
  forall fuel regexp, notOk (parseLoop fuel t false regexp).

(** A quantifier. *)
Definition quantifier (c : ascii) : Prop :=
  c = "*"%char \/ c = "+"%char \/ c = "?"%char.

(** No byte of [s] is a closing bracket. *)
Fixpoint noClosingBracket (s : string) : Prop :=
  match s with
  | EmptyString => True
  | String c rest => c <> "]"%char /\ noClosingBracket rest
  end.

(** The ways a pattern can go wrong after a well-formed beginning:
    it ends in a union bar or in a bare backslash; it opens a paren that
    is never closed, closes one that was never opened, or opens a
    character class that is never closed; or a quantifier comes right
    after an opening paren or a union bar, with no atom to apply to.
    Each of them may also come after one more union bar. *)
Inductive malformedEnd : string -> Prop :=
| endsInUnion : malformedEnd "|"
| endsInEscape : malformedEnd "\"
| unmatchedOpen q : prefixOk q -> malformedEnd (String "(" q)
| unmatchedClose u : malformedEnd (String ")" u)
| unterminatedClass q : noClosingBracket q -> malformedEnd (String "[" q)
| quantifierAfterOpen c u :
    quantifier c -> malformedEnd (String "(" (String c u))
| quantifierAfterUnion c u :
    quantifier c -> malformedEnd (String "|" (String c u))
| afterUnion t : malformedEnd t -> malformedEnd (String "|" t).

(** ** Vocabulary for well-formed patterns *)

(** A byte with no special meaning outside a character class. *)
Definition isOrdinary (c : ascii) : bool :=
  negb ((c =? "(") || (c =? ")") || (c =? "|") || (c =? "*") || (c =? "+")
        || (c =? "?") || (c =? "\") || (c =? "[") || (c =? ".")
        || (c =? "^") || (c =? "$"))%char.

(** The atoms that are read without a recursive call: an ordinary byte,
    a byte behind a backslash, and ".", "^" and "$". *)
Inductive atom : Type :=
| atomChar (c : ascii)
| atomEscaped (c : ascii)
| atomAny
| atomStart
| atomEnd.

Definition atomOk (a : atom) : Prop :=
  match a with
  | atomChar c => isOrdinary c = true
  | _ => True
  end.

Definition atomText (a : atom) : string :=
  match a with
  | atomChar c => String c ""
  | atomEscaped c => String "\" (String c "")
  | atomAny => "."
  | atomStart => "^"
  | atomEnd => "$"
  end.

Definition atomRegexp (a : atom) : Regexp :=
  match a with
  | atomChar c => regexpChar c
  | atomEscaped c => regexpChar c
  | atomAny => regexpCharClass true []
  | atomStart => regexpStartOfText
  | atomEnd => regexpEndOfText
  end.

Fixpoint atomsText (atoms : list atom) : string :=
  match atoms with
  | [] => ""
  | a :: rest => atomText a ++ atomsText rest
  end.

(** The concatenation of atoms, nested to the left. *)
Definition concatAtoms (regexp : Regexp) (atoms : list atom) : Regexp :=
  fold_left (fun r a => appendAtom r (atomRegexp a)) atoms regexp.

(** The members of a character class: a byte other than "]" and the
    backslash, or one of "[", "]", "^" and the backslash behind a
    backslash. *)
Inductive member : Type :=
| memberChar (c : ascii)
| memberEscaped (c : ascii).

Definition memberOk (m : member) : Prop :=
  match m with
  | memberChar c => (c =? "]")%char = false /\ (c =? "\")%char = false
  | memberEscaped c =>
      ((c =? "[") || (c =? "]") || (c =? "^") || (c =? "\"))%char = true
  end.

Definition memberText (m : member) : string :=
  match m with
  | memberChar c => String c ""
  | memberEscaped c => String "\" (String c "")
  end.

Definition memberByte (m : member) : ascii :=
  match m with
  | memberChar c => c
  | memberEscaped c => c
  end.

Fixpoint membersText (members : list member) : string :=
  match members with
  | [] => ""
  | m :: rest => memberText m ++ membersText rest
  end.

(** A class that is not negated does not start with a bare "^". *)
Definition startsWithCaret (members : list member) : bool :=
  match members with
  | memberChar c :: _ => (c =? "^")%char
  | _ => false
  end.

Definition classText (negated : bool) (members : list member) : string :=
  String "[" ((if negated then "^" else "") ++ membersText members ++ "]").

(** No byte of [s] is a union bar. *)
Fixpoint noUnion (s : string) : Prop :=
  match s with
  | EmptyString => True
  | String c rest => (c =? "|")%char = false /\ noUnion rest
  end.

(** What a quantifier is applied to: the right operand of a
    concatenation, and anything else as a whole. *)
Definition onLast (f : Regexp -> Regexp) (regexp : Regexp) : Regexp :=
  match regexp with
  | regexpConcat l r => regexpConcat l (f r)
  | _ => f regexp
  end.

(** A call that returned the error [e], unless it was cut short by its
    iteration bound. *)
Definition errOrOut {A} (e : string) (res : Result A) : Prop :=
  res = Err e \/ res = OutOfFuel.

(** An end of pattern that makes the loop of [parseRegexp] return the
    error [e] wherever it is met outside parentheses. *)
Definition tailErr (e t : string) : Prop :=
  forall fuel regexp, errOrOut e (parseLoop fuel t false regexp).

(** The error for a quantifier with nothing to apply to. *)
Definition quantifierError (c : ascii) : string :=
  if (c =? "*")%char then "Expected characters before star"
  else if (c =? "+")%char then "Expected characters before plus"
  else "Expected characters before question mark".

(** The bytes that a backslash may stand before in a character class. *)
Definition isClassEscape (c : ascii) : bool :=
  ((c =? "[") || (c =? "]") || (c =? "^") || (c =? "\"))%char.

(** ** What a malformed pattern is

    The patterns are read byte by byte into items, with no reference to
    the parser: a backslash and the byte after it are one atom; an
    opening bracket starts a character class, which is one atom and ends
    at the first closing bracket that does not come right after a
    backslash of the class; every other byte is an item of its own, a
    paren, a union bar, a quantifier or an atom. *)
Inductive token : Type :=
| tokOpen
| tokClose
| tokUnion
| tokQuantifier
| tokAtom.

(** Where the reading stands: between items, right after a backslash,
    inside a character class, or right after a backslash of a class. *)
Inductive lexState : Type :=
| lexPlain
| lexEscape
| lexClass
| lexClassEscape.

Definition isQuantifier (c : ascii) : bool :=
  ((c =? "*") || (c =? "+") || (c =? "?"))%char.

Definition nextState (st : lexState) (c : ascii) : lexState :=
  match st with
  | lexPlain =>
      if (c =? "\")%char then lexEscape
      else if (c =? "[")%char then lexClass
      else lexPlain
  | lexEscape => lexPlain
  | lexClass =>
      if (c =? "]")%char then lexPlain
      else if (c =? "\")%char then lexClassEscape
      else lexClass
  | lexClassEscape => lexClass
  end.

(** The item that the byte [c] completes, if it completes one. *)
Definition emitted (st : lexState) (c : ascii) : list token :=
  match st with
  | lexPlain =>
      if (c =? "\")%char then []
      else if (c =? "[")%char then []
      else if (c =? "(")%char then [tokOpen]
      else if (c =? ")")%char then [tokClose]
      else if (c =? "|")%char then [tokUnion]
      else if isQuantifier c then [tokQuantifier]
      else [tokAtom]
  | lexEscape => [tokAtom]
  | lexClass => if (c =? "]")%char then [tokAtom] else []
  | lexClassEscape => []
  end.

Fixpoint lexEnd (st : lexState) (s : string) : lexState :=
  match s with
  | EmptyString => st
  | String c rest => lexEnd (nextState st c) rest
  end.

Fixpoint tokens (st : lexState) (s : string) : list token :=
  match s with
  | EmptyString => []
  | String c rest => (emitted st c ++ tokens (nextState st c) rest)%list
  end.

(** The number of parens left open after the items [ts], starting with
    [depth] of them open; [None] when a closing paren closes nothing. *)
Fixpoint parenDepth (depth : nat) (ts : list token) : option nat :=
  match ts with
  | [] => Some depth
  | tokOpen :: rest => parenDepth (S depth) rest
  | tokClose :: rest =>
      match depth with
      | O => None
      | S depth' => parenDepth depth' rest
      end
  | _ :: rest => parenDepth depth rest
  end.

(** Some quantifier of [ts] has no atom before it: it is the first item
    (when [nothingBefore]) or comes right after an opening paren or a
    union bar. *)
Fixpoint quantifierFirst (nothingBefore : bool) (ts : list token) : bool :=
  match ts with
  | [] => false
  | tokQuantifier :: rest => nothingBefore || quantifierFirst false rest
  | tokOpen :: rest => quantifierFirst true rest
  | tokUnion :: rest => quantifierFirst true rest
  | _ :: rest => quantifierFirst false rest
  end.

(** The pattern ends unexpectedly: it is empty, or its last byte is a
    backslash that escapes nothing, or its last item is a union bar or
    an opening paren. *)
Definition endsUnexpectedly (s : string) : Prop :=
  s = "" \/
  lexEnd lexPlain s = lexEscape \/
  lexEnd lexPlain s = lexPlain /\
  (last (tokens lexPlain s) tokAtom = tokUnion \/
   last (tokens lexPlain s) tokAtom = tokOpen).

(** A paren is unmatched: a closing paren closes nothing, or an opening
    paren is never closed. *)
Definition unbalancedParens (s : string) : Prop :=
  parenDepth 0 (tokens lexPlain s) <> Some 0.

(** The pattern ends inside a character class. *)
Definition classLeftOpen (s : string) : Prop :=
  lexEnd lexPlain s = lexClass \/ lexEnd lexPlain s = lexClassEscape.

(** A quantifier has no atom before it. *)
Definition quantifierWithoutAtom (s : string) : Prop :=
  quantifierFirst true (tokens lexPlain s) = true.

Definition malformed (s : string) : Prop :=
  endsUnexpectedly s \/ unbalancedParens s \/ classLeftOpen s \/
  quantifierWithoutAtom s.

(** What the parser has read when it returns: the part [p] of the input
    before what is left is made of whole items, its parens are matched,
    none of its quantifiers lacks an atom ([nothingBefore] telling
    whether something was read before [p]), and outside parentheses it
    does not end in a union bar or an opening paren. *)
Definition wellRead (inParen nothingBefore : bool) (p : string) : Prop :=
  lexEnd lexPlain p = lexPlain /\
  (forall depth, parenDepth depth (tokens lexPlain p) = Some depth) /\
  quantifierFirst nothingBefore (tokens lexPlain p) = false /\
  (inParen = false ->
   last (tokens lexPlain p) tokAtom <> tokUnion /\
   last (tokens lexPlain p) tokAtom <> tokOpen).

End Regexps.

(* ===================================================================== *)
(** * VM-backed input modes ([input/mode.go]) *)
(* ===================================================================== *)

Module InputModes.

(** Modelled from the spec: the result of one VM step is
    [{accepted, captures: [(id, start_idx, end_idx)], reset}]; the [vm]
    package itself is not part of the sources at hand.  A capture keeps
    its id and the bounds of the events it covers. *)
Record Capture : Type := mkCapture {
  Id : nat;
  StartIdx : nat;
  EndIdx : nat
}.

Record Result : Type := mkResult {
  Accepted : bool;
  Captures : list Capture;
  Reset : bool
}.

Section WithVm.

(** What [mode.go] takes from the packages [tcell], [vm] and [state] and
    from the rest of package [input]: the types of key events, VM events,
    configurations, command parameters and actions, the VM runtime and
    its step function, and the helpers that translate a key event and
    build the parameters of a command. *)
Variables EventKey Event Config CommandParams Action Runtime : Type.
Variable EmptyAction : Action.
Variable eventKeyToVmEvent : EventKey -> Event.
(** [Some r] when [event.Key() == tcell.KeyRune], with [r = event.Rune()]. *)
Variable keyRune : EventKey -> option Z.
Variable capturesToCommandParams : list Capture -> list Event -> CommandParams.
(** [runtime.ProcessEvent]: the result and the runtime after the step. *)
Variable runtimeProcessEvent : Runtime -> Event -> Result * Runtime.

Record Command : Type := mkCommand {
  Name : String.string;
  BuildAction : Config -> CommandParams -> Action
}.

Record vmMode : Type := mkVmMode {
  name : String.string;
  runtime : Runtime;
  eventBuffer : list Event;
  inputBuffer : list Z;
  commands : list Command
}.

(** The loop [for _, capture := range result.Captures] of
    [ProcessKeyEvent], started with [action = EmptyAction]: the first
    capture whose id is below [len(m.commands)] builds the action and
    ends the loop.  [captures] is what is left to visit; the parameters
    are built from all of [result.Captures]. *)
Fixpoint captureLoop (m_commands : list Command) (config : Config)
    (resultCaptures : list Capture) (m_eventBuffer : list Event)
    (captures : list Capture) : Action :=
  match captures with
  | [] => EmptyAction
  | capture :: rest =>
      if Id capture <? length m_commands then
        match nth_error m_commands (Id capture) with
        | Some command =>
            let params :=
              capturesToCommandParams resultCaptures m_eventBuffer in
            BuildAction command config params
        | None => EmptyAction
        end
      else captureLoop m_commands config resultCaptures m_eventBuffer rest
  end.

(** [ProcessKeyEvent]: the action, and the mode after the call. *)
Definition ProcessKeyEvent (m : vmMode) (event : EventKey) (config : Config)
  : Action * vmMode :=
  let vmEvent := eventKeyToVmEvent event in
  let eventBuffer1 := eventBuffer m ++ [vmEvent] in
  let inputBuffer1 :=
    match keyRune event with
    | Some r => inputBuffer m ++ [r]
    | None => inputBuffer m
    end in
  let '(result, runtime1) := runtimeProcessEvent (runtime m) vmEvent in
  let action :=
    if Accepted result then
      captureLoop (commands m) config (Captures result) eventBuffer1
                  (Captures result)
    else EmptyAction in
  if Reset result then
    (action, mkVmMode (name m) runtime1 [] [] (commands m))
  else
    (action, mkVmMode (name m) runtime1 eventBuffer1 inputBuffer1
                      (commands m)).

(** ** Specification vocabulary *)

(** The first capture, in the order reported, whose id is the index of a
    command. *)
Fixpoint firstCommandCapture (m_commands : list Command)
    (captures : list Capture) : option Capture :=
  match captures with
  | [] => None
  | capture :: rest =>
      if Id capture <? length m_commands then Some capture
      else firstCommandCapture m_commands rest
  end.

(** [InputBufferString]: the runes written to the input buffer since it
    was last reset. *)
Definition InputBufferString (m : vmMode) : list Z := inputBuffer m.

(** ** More specification vocabulary *)

(** The runes that key events write to the input buffer. *)
Fixpoint typedRunes (events : list EventKey) : list Z :=
  match events with
  | [] => []
  | event :: rest =>
      match keyRune event with
      | Some r => r :: typedRunes rest
      | None => typedRunes rest
      end
  end.

(** The buffers of a mode hold the key events [pending]: the event
    buffer their VM events, the input buffer their runes. *)
Definition buffers (m : vmMode) (pending : list EventKey) : Prop :=
  eventBuffer m = map eventKeyToVmEvent pending /\
  InputBufferString m = typedRunes pending.

(** Key events processed one after the other, each under its
    configuration: the actions returned and the mode in the end. *)
Fixpoint processKeyEvents (m : vmMode) (events : list (EventKey * Config))
  : list Action * vmMode :=
  match events with
  | [] => ([], m)
  | (event, config) :: rest =>
      let '(action, m1) := ProcessKeyEvent m event config in
      let '(actions, m2) := processKeyEvents m1 rest in
      (action :: actions, m2)
  end.

(** The answers of the VM to key events fed one after the other to the
    runtime [rt]. *)
Fixpoint vmResults (rt : Runtime) (events : list EventKey) : list Result :=
  match events with
  | [] => []
  | event :: rest =>
      let '(result, rt1) := runtimeProcessEvent rt (eventKeyToVmEvent event) in
      result :: vmResults rt1 rest
  end.

End WithVm.

Arguments mkCommand {Config CommandParams Action}.
Arguments Name {Config CommandParams Action}.
Arguments BuildAction {Config CommandParams Action}.
Arguments mkVmMode {Event Config CommandParams Action Runtime}.
Arguments name {Event Config CommandParams Action Runtime}.
Arguments runtime {Event Config CommandParams Action Runtime}.
Arguments eventBuffer {Event Config CommandParams Action Runtime}.
Arguments inputBuffer {Event Config CommandParams Action Runtime}.
Arguments commands {Event Config CommandParams Action Runtime}.
Arguments captureLoop {Event Config CommandParams Action}.
Arguments ProcessKeyEvent {EventKey Event Config CommandParams Action Runtime}.
Arguments firstCommandCapture {Config CommandParams Action}.



End InputModes.

(* ===================================================================== *)
(** * Properties of the token tree *)
(* ===================================================================== *)

Section TokenTreeFacts.

Import TokenTrees.
Local Open Scope N_scope.

Lemma validateNewToken_Some tok :
  validateNewToken tok = Some tt <-> validToken tok.
Proof.
  unfold validateNewToken, validToken.
  destruct (N.leb_spec (EndPos tok) (StartPos tok));
    destruct (N.ltb_spec (LookaheadPos tok) (EndPos tok));
    split; intros H1; try discriminate; try reflexivity; lia.
Qed.

Lemma validateNewToken_None tok :
  validateNewToken tok = None <->
  (EndPos tok <= StartPos tok \/ LookaheadPos tok < EndPos tok).
Proof.
  unfold validateNewToken.
  destruct (N.leb_spec (EndPos tok) (StartPos tok));
    destruct (N.ltb_spec (LookaheadPos tok) (EndPos tok));
    split; intros H1; try discriminate; try reflexivity; lia.
Qed.

(** ** Traversal *)

Lemma pendingTokens_pushLeftSpine t : forall st,
  pendingTokens (pushLeftSpine t st) = inorder t ++ pendingTokens st.
Proof.
  induction t as [|tk mn mx l IHl r IHr]; intros st; simpl.
  - reflexivity.
  - rewrite IHl. simpl. now rewrite <- app_assoc.
Qed.

Lemma pending_pushLeftSpine t : forall st,
  pending (pushLeftSpine t st) = (size t + pending st)%nat.
Proof.
  induction t as [|tk mn mx l IHl r IHr]; intros st; simpl.
  - reflexivity.
  - rewrite IHl. simpl. lia.
Qed.

Lemma length_pendingTokens st :
  length (pendingTokens st) = pending st.
Proof.
  induction st as [|t st IH]; simpl; [reflexivity|].
  destruct t as [|tk mn mx l r]; simpl; [reflexivity|].
  rewrite length_app, IH.
  assert (Hs : forall u, length (inorder u) = size u).
  { induction u as [|? ? ? ? IH1 ? IH2]; simpl; [reflexivity|].
    rewrite length_app; simpl. lia. }
  now rewrite Hs.
Qed.

(** [Collect]'s loop yields the pending tokens as soon as it is given at
    least [pending] iterations: it has then stopped because [Get] failed,
    not because the bound was reached. *)
Lemma collectLoop_exhausts n : forall st result,
  (pending st <= n)%nat ->
  collectLoop n (mkIter st) result = result ++ pendingTokens st.
Proof.
  induction n as [|n IH]; intros st result Hn.
  - destruct st as [|[|tk mn mx l r] st]; simpl in *;
      try (now rewrite app_nil_r); lia.
  - destruct st as [|[|tk mn mx l r] st]; simpl in *;
      try (now rewrite app_nil_r).
    unfold Advance; simpl.
    rewrite IH.
    + rewrite pendingTokens_pushLeftSpine, <- app_assoc. reflexivity.
    + rewrite pending_pushLeftSpine. lia.
Qed.

Lemma Collect_pendingTokens iter :
  Collect iter = pendingTokens (stack iter).
Proof.
  destruct iter as [st]. unfold Collect. simpl.
  now rewrite collectLoop_exhausts.
Qed.

Lemma ordered_positive t :
  ordered t -> Forall (fun x => StartPos x < EndPos x) (inorder t).
Proof.
  induction t as [|tk mn mx l IHl r IHr]; simpl.
  - constructor.
  - intros (Htk & Hl & Hr & _ & _).
    apply Forall_app. split; [auto|]. constructor; auto.
Qed.

Lemma filter_all {A} (f : A -> bool) l :
  Forall (fun x => f x = true) l -> filter f l = l.
Proof.
  induction 1 as [|x l Hx _ IH]; simpl; [reflexivity|].
  now rewrite Hx, IH.
Qed.

Lemma filter_none {A} (f : A -> bool) l :
  Forall (fun x => f x = false) l -> filter f l = [].
Proof.
  induction 1 as [|x l Hx _ IH]; simpl; [reflexivity|].
  now rewrite Hx, IH.
Qed.

Lemma endsAfter_true pos tok : pos < EndPos tok -> endsAfter pos tok = true.
Proof. intros H. unfold endsAfter. now apply N.ltb_lt. Qed.

Lemma endsAfter_false pos tok : EndPos tok <= pos -> endsAfter pos tok = false.
Proof. intros H. unfold endsAfter. now apply N.ltb_ge. Qed.

Lemma iterDescend_pendingTokens t pos : forall st,
  ordered t ->
  pendingTokens (iterDescend t pos st) =
  filter (endsAfter pos) (inorder t) ++ pendingTokens st.
Proof.
  induction t as [|tk mn mx l IHl r IHr]; intros st Hord.
  - reflexivity.
  - destruct Hord as (Htk & Hl & Hr & Hbl & Hbr).
    pose proof (ordered_positive r Hr) as Hpr.
    cbn [iterDescend inorder].
    rewrite filter_app. cbn [filter].
    assert (Hright : pos < EndPos tk ->
              filter (endsAfter pos) (inorder r) = inorder r).
    { intros Hlt. apply filter_all.
      rewrite Forall_forall in *. intros x Hx.
      specialize (Hbr x Hx). specialize (Hpr x Hx).
      unfold before in *. apply endsAfter_true. lia. }
    assert (Hleft : StartPos tk <= pos ->
              filter (endsAfter pos) (inorder l) = []).
    { intros Hle. apply filter_none.
      rewrite Forall_forall in *. intros x Hx.
      specialize (Hbl x Hx).
      unfold before in *. apply endsAfter_false. lia. }
    destruct (N.ltb_spec pos (StartPos tk)) as [Hlt|Hge].
    + rewrite IHl by assumption.
      rewrite endsAfter_true by lia.
      rewrite Hright by lia.
      cbn [pendingTokens]. now rewrite <- app_assoc.
    + rewrite Hleft by assumption.
      destruct (N.leb_spec (EndPos tk) pos) as [Hle|Hgt].
      * rewrite endsAfter_false by lia. now rewrite IHr.
      * rewrite endsAfter_true by lia. rewrite Hright by lia.
        reflexivity.
Qed.

Lemma Collect_IterFromPosition t pos :
  ordered t ->
  Collect (IterFromPosition t pos) = filter (endsAfter pos) (inorder t).
Proof.
  intros Hord. rewrite Collect_pendingTokens. simpl.
  rewrite iterDescend_pendingTokens by assumption.
  simpl. now rewrite app_nil_r.
Qed.

(** ** Insertion *)

Lemma Forall_perm {A} (P : A -> Prop) l l' :
  Permutation l l' -> Forall P l -> Forall P l'.
Proof.
  intros Hp H. rewrite Forall_forall in *. intros x Hx. apply H.
  eapply Permutation_in; [symmetry; eassumption | assumption].
Qed.

Lemma ordered_Node tk mn mx l r :
  StartPos tk < EndPos tk -> ordered l -> ordered r ->
  Forall (fun x => before x tk) (inorder l) ->
  Forall (fun x => before tk x) (inorder r) ->
  ordered (Node tk mn mx l r).
Proof. simpl. tauto. Qed.

Lemma inorder_Node tk mn mx l r :
  inorder (Node tk mn mx l r) = inorder l ++ tk :: inorder r.
Proof. reflexivity. Qed.

Lemma Insert_Nil_eq tok :
  Insert Nil tok =
  match validateNewToken tok with
  | None => None
  | Some _ => Some (Node tok (StartPos tok) (EndPos tok) Nil Nil)
  end.
Proof. reflexivity. Qed.

Lemma Insert_Node_eq tk mn mx l r tok :
  Insert (Node tk mn mx l r) tok =
  match validateNewToken tok with
  | None => None
  | Some _ =>
      if EndPos tok <=? StartPos tk then
        match Insert l tok with
        | Some child => withLeftChild (Node tk mn mx l r) child
        | None => None
        end
      else if EndPos tk <=? StartPos tok then
        match Insert r tok with
        | Some child => withRightChild (Node tk mn mx l r) child
        | None => None
        end
      else None
  end.
Proof. reflexivity. Qed.

Lemma Insert_not_Nil t tok t' : Insert t tok = Some t' -> t' <> Nil.
Proof.
  destruct t as [|tk mn mx l r];
    [rewrite Insert_Nil_eq | rewrite Insert_Node_eq];
    destruct (validateNewToken tok); try discriminate.
  - intros [= <-]. discriminate.
  - destruct (EndPos tok <=? StartPos tk).
    + destruct (Insert l tok) as [[|ctk cmn cmx cl cr]|]; simpl;
        try discriminate. intros [= <-]. discriminate.
    + destruct (EndPos tk <=? StartPos tok); try discriminate.
      destruct (Insert r tok) as [[|ctk cmn cmx cl cr]|]; simpl;
        try discriminate. intros [= <-]. discriminate.
Qed.

Lemma disjoint_sym a b : disjoint a b -> disjoint b a.
Proof. unfold disjoint. tauto. Qed.

Lemma overlaps_not_disjoint a b : overlaps a b <-> ~ disjoint a b.
Proof. unfold overlaps, disjoint, before. lia. Qed.

(** What a successful [Insert] guarantees. *)
Lemma Insert_Some t : forall tok t',
  ordered t ->
  Insert t tok = Some t' ->
  validToken tok /\ ordered t' /\
  Permutation (inorder t') (tok :: inorder t) /\
  Forall (disjoint tok) (inorder t).
Proof.
  induction t as [|tk mn mx l IHl r IHr]; intros tok t' Hord;
    [rewrite Insert_Nil_eq | rewrite Insert_Node_eq].
  - destruct (validateNewToken tok) as [[]|] eqn:Hv; try discriminate.
    apply validateNewToken_Some in Hv.
    intros [= <-]. simpl. unfold validToken in Hv.
    repeat split; try tauto; auto.
  - destruct Hord as (Htk & Hl & Hr & Hbl & Hbr).
    destruct (validateNewToken tok) as [[]|] eqn:Hv; try discriminate.
    apply validateNewToken_Some in Hv.
    destruct (N.leb_spec (EndPos tok) (StartPos tk)) as [Hle|Hgt].
    + destruct (Insert l tok) as [child|] eqn:Hins; try discriminate.
      destruct (IHl _ _ Hl Hins) as (_ & Hoc & Hperm & Hdis).
      destruct child as [|ctk cmn cmx cl cr]; simpl; try discriminate.
      remember (Node ctk cmn cmx cl cr) as child eqn:Hchild.
      intros [= <-].
      split; [assumption|]. split; [|split].
      * apply ordered_Node; try assumption.
        eapply Forall_perm; [symmetry; exact Hperm|].
        constructor; [exact Hle | assumption].
      * rewrite ?inorder_Node. rewrite Hperm. reflexivity.
      * rewrite ?inorder_Node. apply Forall_app. split; [assumption|].
        constructor; [left; exact Hle|].
        rewrite Forall_forall in *. intros x Hx.
        specialize (Hbr x Hx). left. unfold before in *. lia.
    + destruct (N.leb_spec (EndPos tk) (StartPos tok)) as [Hle2|Hgt2];
        try discriminate.
      destruct (Insert r tok) as [child|] eqn:Hins; try discriminate.
      destruct (IHr _ _ Hr Hins) as (_ & Hoc & Hperm & Hdis).
      destruct child as [|ctk cmn cmx cl cr]; simpl; try discriminate.
      remember (Node ctk cmn cmx cl cr) as child eqn:Hchild.
      intros [= <-].
      split; [assumption|]. split; [|split].
      * apply ordered_Node; try assumption.
        eapply Forall_perm; [symmetry; exact Hperm|].
        constructor; [exact Hle2 | assumption].
      * rewrite ?inorder_Node. rewrite Hperm.
        change (tok :: inorder l ++ tk :: inorder r)
          with ((tok :: inorder l) ++ tk :: inorder r).
        rewrite <- !Permutation_middle. simpl. reflexivity.
      * rewrite ?inorder_Node. apply Forall_app. split.
        -- rewrite Forall_forall in *. intros x Hx.
           specialize (Hbl x Hx). right. unfold before in *. lia.
        -- constructor; [right; exact Hle2 | assumption].
Qed.

(** A valid token that is disjoint from every token of the tree is
    always accepted. *)
Lemma Insert_accepts t : forall tok,
  ordered t ->
  validToken tok ->
  Forall (disjoint tok) (inorder t) ->
  exists t', Insert t tok = Some t'.
Proof.
  induction t as [|tk mn mx l IHl r IHr]; intros tok Hord Hval Hdis;
    [rewrite Insert_Nil_eq | rewrite Insert_Node_eq].
  - apply validateNewToken_Some in Hval. rewrite Hval. eauto.
  - destruct Hord as (Htk & Hl & Hr & Hbl & Hbr).
    pose proof Hval as Hv. apply validateNewToken_Some in Hv. rewrite Hv.
    cbn [inorder] in Hdis. apply Forall_app in Hdis.
    destruct Hdis as [Hdl Hdr]. inversion Hdr as [|? ? Hdtk Hdr']; subst.
    destruct (N.leb_spec (EndPos tok) (StartPos tk)) as [Hle|Hgt].
    + destruct (IHl tok Hl Hval Hdl) as [child Hc]. rewrite Hc.
      pose proof (Insert_not_Nil _ _ _ Hc) as Hnn.
      destruct child; [congruence|]. simpl. eauto.
    + destruct (N.leb_spec (EndPos tk) (StartPos tok)) as [Hle2|Hgt2].
      * destruct (IHr tok Hr Hval Hdr') as [child Hc]. rewrite Hc.
        pose proof (Insert_not_Nil _ _ _ Hc) as Hnn.
        destruct child; [congruence|]. simpl. eauto.
      * exfalso. unfold disjoint, before in Hdtk. lia.
Qed.

Lemma disjoint_dec a b : {disjoint a b} + {~ disjoint a b}.
Proof.
  unfold disjoint, before.
  destruct (N.leb (EndPos a) (StartPos b)) eqn:E1.
  - left. apply N.leb_le in E1. lia.
  - destruct (N.leb (EndPos b) (StartPos a)) eqn:E2.
    + left. apply N.leb_le in E2. lia.
    + right. apply N.leb_gt in E1. apply N.leb_gt in E2. lia.
Qed.

(** ** Sortedness of the traversal *)

Lemma StronglySorted_app {A} (R : A -> A -> Prop) l1 l2 :
  StronglySorted R l1 -> StronglySorted R l2 ->
  (forall x y, In x l1 -> In y l2 -> R x y) ->
  StronglySorted R (l1 ++ l2).
Proof.
  induction 1 as [|x l1 Hs IH Hx]; intros H2 Hcross; simpl.
  - assumption.
  - constructor.
    + apply IH; [assumption|]. intros; apply Hcross; simpl; auto.
    + apply Forall_app. split; [assumption|].
      apply Forall_forall. intros y Hy. apply Hcross; simpl; auto.
Qed.

Lemma StronglySorted_weaken {A} (R R' : A -> A -> Prop) (P : A -> Prop) l :
  (forall a b, P a -> R a b -> R' a b) ->
  Forall P l -> StronglySorted R l -> StronglySorted R' l.
Proof.
  intros Himp HP Hs. induction Hs as [|x l Hs IH Hx].
  - constructor.
  - inversion HP as [|? ? Hpx HPl]; subst.
    constructor; [auto|].
    rewrite Forall_forall in *. intros y Hy. apply Himp; auto.
Qed.

Lemma ordered_sorted t : ordered t -> StronglySorted before (inorder t).
Proof.
  induction t as [|tk mn mx l IHl r IHr]; simpl.
  - constructor.
  - intros (Htk & Hl & Hr & Hbl & Hbr).
    apply StronglySorted_app; [auto| constructor; auto |].
    intros x y Hx [<-|Hy].
    + rewrite Forall_forall in Hbl. auto.
    + rewrite Forall_forall in Hbl, Hbr.
      specialize (Hbl x Hx). specialize (Hbr y Hy).
      unfold before in *. lia.
Qed.

Lemma InsertAll_spec toks : forall t0,
  ordered t0 ->
  Forall validToken toks ->
  ForallOrdPairs disjoint toks ->
  Forall (fun x => Forall (disjoint x) (inorder t0)) toks ->
  exists t, InsertAll t0 toks = Some t /\ ordered t /\
            Permutation (inorder t) (inorder t0 ++ toks).
Proof.
  induction toks as [|a toks IH]; intros t0 Hord Hval Hpair Hold; simpl.
  - exists t0. rewrite app_nil_r. auto.
  - inversion Hval as [|? ? Hva Hvr]; subst.
    inversion Hpair as [|? ? Har Hpr]; subst.
    inversion Hold as [|? ? Hoa Hor]; subst.
    destruct (Insert_accepts t0 a Hord Hva Hoa) as [t1 H1]. rewrite H1.
    destruct (Insert_Some t0 a t1 Hord H1) as (_ & Hord1 & Hperm1 & _).
    destruct (IH t1 Hord1 Hvr Hpr) as (t & Ht & Hordt & Hpermt).
    + rewrite Forall_forall in *. intros x Hx.
      eapply Forall_perm; [symmetry; exact Hperm1|].
      constructor; [apply disjoint_sym; auto | auto].
    + exists t. repeat split; try assumption.
      etransitivity; [exact Hpermt|].
      etransitivity; [apply Permutation_app_tail; exact Hperm1|].
      simpl. apply Permutation_middle.
Qed.

Lemma Get_pendingTokens iter :
  Get iter = hd_error (pendingTokens (stack iter)).
Proof.
  destruct iter as [[|[|tk mn mx l r] st]]; reflexivity.
Qed.

Lemma Insert_invalid t tok :
  validateNewToken tok = None -> Insert t tok = None.
Proof.
  intros Hv.
  destruct t; [rewrite Insert_Nil_eq | rewrite Insert_Node_eq];
    now rewrite Hv.
Qed.

(** ** The trees that can be built *)

Lemma spanned_Node tk mn mx l r :
  spanned l -> spanned r ->
  Forall (fun x => mn <= StartPos x /\ EndPos x <= mx)
         (inorder l ++ tk :: inorder r) ->
  spanned (Node tk mn mx l r).
Proof. simpl. tauto. Qed.

Lemma Insert_spanned t : forall tok t',
  ordered t -> spanned t -> Insert t tok = Some t' -> spanned t'.
Proof.
  induction t as [|tk mn mx l IHl r IHr]; intros tok t' Hord Hsp;
    [rewrite Insert_Nil_eq | rewrite Insert_Node_eq].
  - destruct (validateNewToken tok) as [[]|] eqn:Hv; try discriminate.
    intros [= <-]. apply spanned_Node; try exact I.
    simpl. constructor; [lia | constructor].
  - destruct Hord as (Htk & Hl & Hr & Hbl & Hbr).
    destruct Hsp as (Hsl & Hsr & Hall).
    destruct (validateNewToken tok) as [[]|] eqn:Hv; try discriminate.
    apply validateNewToken_Some in Hv. destruct Hv as [Hv1 Hv2].
    assert (Htkb : mn <= StartPos tk /\ EndPos tk <= mx).
    { apply Forall_app in Hall. destruct Hall as [_ Hall].
      now inversion Hall. }
    destruct (N.leb_spec (EndPos tok) (StartPos tk)) as [Hle|Hgt].
    + destruct (Insert l tok) as [child|] eqn:Hins; try discriminate.
      pose proof (IHl _ _ Hl Hsl Hins) as Hsc.
      destruct (Insert_Some l tok child Hl Hins) as (_ & _ & Hperm & _).
      destruct child as [|ctk cmn cmx cl cr]; simpl; try discriminate.
      remember (Node ctk cmn cmx cl cr) as child eqn:Hchild.
      intros [= <-]. apply spanned_Node; try assumption.
      assert (Hc : Forall (fun x => cmn <= StartPos x /\ EndPos x <= cmx)
                          (inorder child)).
      { subst child. destruct Hsc as (_ & _ & Hc). exact Hc. }
      apply Forall_app in Hall. destruct Hall as [Hal Har].
      apply Forall_app. split.
      * eapply Forall_perm; [symmetry; exact Hperm|].
        constructor.
        -- destruct (N.ltb_spec cmn mn).
           ++ assert (Hin : In tok (inorder child)).
              { eapply Permutation_in; [symmetry; exact Hperm|].
                now left. }
              rewrite Forall_forall in Hc. specialize (Hc tok Hin). lia.
           ++ assert (Hin : In tok (inorder child)).
              { eapply Permutation_in; [symmetry; exact Hperm|].
                now left. }
              rewrite Forall_forall in Hc. specialize (Hc tok Hin). lia.
        -- eapply Forall_impl; [|exact Hal]. intros x Hx. cbv beta in *.
           destruct (N.ltb_spec cmn mn); lia.
      * eapply Forall_impl; [|exact Har]. intros x Hx. cbv beta in *.
        destruct (N.ltb_spec cmn mn); lia.
    + destruct (N.leb_spec (EndPos tk) (StartPos tok)) as [Hle2|Hgt2];
        try discriminate.
      destruct (Insert r tok) as [child|] eqn:Hins; try discriminate.
      pose proof (IHr _ _ Hr Hsr Hins) as Hsc.
      destruct (Insert_Some r tok child Hr Hins) as (_ & _ & Hperm & _).
      destruct child as [|ctk cmn cmx cl cr]; simpl; try discriminate.
      remember (Node ctk cmn cmx cl cr) as child eqn:Hchild.
      intros [= <-]. apply spanned_Node; try assumption.
      assert (Hc : Forall (fun x => cmn <= StartPos x /\ EndPos x <= cmx)
                          (inorder child)).
      { subst child. destruct Hsc as (_ & _ & Hc). exact Hc. }
      assert (Hin : In tok (inorder child)).
      { eapply Permutation_in; [symmetry; exact Hperm|]. now left. }
      pose proof Hc as Hc'. rewrite Forall_forall in Hc'.
      specialize (Hc' tok Hin).
      apply Forall_app in Hall. destruct Hall as [Hal Har].
      inversion Har as [|? ? Htk' Har']; subst.
      apply Forall_app. split.
      * eapply Forall_impl; [|exact Hal]. intros x Hx. cbv beta in *.
        destruct (N.ltb_spec mx cmx); lia.
      * constructor.
        -- destruct (N.ltb_spec mx cmx); lia.
        -- eapply Forall_perm; [symmetry; exact Hperm|].
           constructor.
           ++ destruct (N.ltb_spec mx cmx); lia.
           ++ eapply Forall_impl; [|exact Har']. intros x Hx.
              cbv beta in *. destruct (N.ltb_spec mx cmx); lia.
Qed.

Lemma Join_Node_eq tk mn mx l r otk omn omx ol or :
  Join (Node tk mn mx l r) (Node otk omn omx ol or) =
  if omx <=? mn then
    match Join l (Node otk omn omx ol or) with
    | Some l' => Some (Node tk omn mx l' r)
    | None => None
    end
  else if mx <=? omn then
    match Join r (Node otk omn omx ol or) with
    | Some r' => Some (Node tk mn omx l r')
    | None => None
    end
  else None.
Proof. reflexivity. Qed.

(** [Join] keeps the ordering and the aggregates, and the joined tree
    holds the tokens of both trees. *)
Lemma Join_Some t : forall other t',
  ordered t -> spanned t -> ordered other -> spanned other ->
  Join t other = Some t' ->
  ordered t' /\ spanned t' /\
  Permutation (inorder t') (inorder t ++ inorder other).
Proof.
  induction t as [|tk mn mx l IHl r IHr];
    intros other t' Hord Hsp Hoo Hso.
  - destruct other; intros [= <-]; simpl; auto.
  - destruct other as [|otk omn omx ol or].
    { intros [= <-]. rewrite app_nil_r. auto. }
    rewrite Join_Node_eq.
    remember (Node otk omn omx ol or) as other eqn:Hother.
    assert (Hob : Forall (fun x => omn <= StartPos x /\ EndPos x <= omx)
                         (inorder other)).
    { subst other. destruct Hso as (_ & _ & H). exact H. }
    assert (Hotk : In otk (inorder other)).
    { subst other. simpl. apply in_or_app. right. now left. }
    assert (Hospan : omn < omx).
    { pose proof (ordered_positive other Hoo) as Hp.
      rewrite Forall_forall in Hp, Hob.
      specialize (Hp otk Hotk). specialize (Hob otk Hotk). lia. }
    destruct Hord as (Htk & Hl & Hr & Hbl & Hbr).
    destruct Hsp as (Hsl & Hsr & Hall).
    pose proof Hall as Hall'. apply Forall_app in Hall'.
    destruct Hall' as [Hal Har].
    inversion Har as [|? ? Htkb Har']; subst x l0.
    destruct (N.leb_spec omx mn) as [Hle|Hgt].
    + destruct (Join l other) as [l'|] eqn:Hj; try discriminate.
      destruct (IHl other l' Hl Hsl Hoo Hso Hj) as (Hol' & Hsl' & Hperm).
      intros [= <-]. split; [|split].
      * apply ordered_Node; try assumption.
        eapply Forall_perm; [symmetry; exact Hperm|].
        apply Forall_app. split; [assumption|].
        eapply Forall_impl; [|exact Hob].
        intros x Hx. cbv beta in Hx. unfold before. lia.
      * apply spanned_Node; try assumption.
        apply Forall_app. split.
        -- eapply Forall_perm; [symmetry; exact Hperm|].
           apply Forall_app. split.
           ++ eapply Forall_impl; [|exact Hal].
              intros x Hx. cbv beta in *. lia.
           ++ eapply Forall_impl; [|exact Hob].
              intros x Hx. cbv beta in *. lia.
        -- eapply Forall_impl; [|exact Har].
           intros x Hx. cbv beta in *. lia.
      * rewrite !inorder_Node. rewrite Hperm.
        rewrite <- !app_assoc. apply Permutation_app_head.
        apply (Permutation_app_comm (inorder other) (tk :: inorder r)).
    + destruct (N.leb_spec mx omn) as [Hle2|Hgt2]; try discriminate.
      destruct (Join r other) as [r'|] eqn:Hj; try discriminate.
      destruct (IHr other r' Hr Hsr Hoo Hso Hj) as (Hor' & Hsr' & Hperm).
      intros [= <-]. split; [|split].
      * apply ordered_Node; try assumption.
        eapply Forall_perm; [symmetry; exact Hperm|].
        apply Forall_app. split; [assumption|].
        eapply Forall_impl; [|exact Hob].
        intros x Hx. cbv beta in Hx. unfold before. lia.
      * apply spanned_Node; try assumption.
        apply Forall_app. split.
        -- eapply Forall_impl; [|exact Hal].
           intros x Hx. cbv beta in *. lia.
        -- constructor; [lia|].
           eapply Forall_perm; [symmetry; exact Hperm|].
           apply Forall_app. split.
           ++ eapply Forall_impl; [|exact Har'].
              intros x Hx. cbv beta in *. lia.
           ++ eapply Forall_impl; [|exact Hob].
              intros x Hx. cbv beta in *. lia.
      * rewrite !inorder_Node. rewrite Hperm.
        rewrite <- !app_assoc. reflexivity.
Qed.

(** Every tree the package can build satisfies the ordering invariant
    and has correct aggregates. *)
Lemma constructible_ordered t : constructible t -> ordered t /\ spanned t.
Proof.
  induction 1 as [|t tok t' _ [Ho Hs] Hins
                  |t other t' _ [Ho Hs] _ [Hoo Hso] Hj].
  - simpl. auto.
  - destruct (Insert_Some t tok t' Ho Hins) as (_ & Ho' & _).
    split; [assumption|]. exact (Insert_spanned t tok t' Ho Hs Hins).
  - destruct (Join_Some t other t' Ho Hs Hoo Hso Hj) as (Ho' & Hs' & _).
    auto.
Qed.

(** ** The claims about the token tree *)

(** C1: a tree built from the empty tree by [Insert] calls with valid,
    pairwise non-overlapping tokens exists (no call panics), and its
    in-order traversal [Collect (IterFromPosition 0)] is a permutation of
    the inserted tokens that is sorted by start position, each token
    ending at or before the start of every later one. *)
Theorem InsertAll_traversal_sorted :
  forall toks : list Token,
    Forall validToken toks ->
    ForallOrdPairs disjoint toks ->
    exists t,
      InsertAll Nil toks = Some t /\
      Permutation (Collect (IterFromPosition t 0)) toks /\
      StronglySorted (fun a b => StartPos a < StartPos b)
                     (Collect (IterFromPosition t 0)) /\
      StronglySorted before (Collect (IterFromPosition t 0)).
Proof.
  intros toks Hval Hpair.
  destruct (InsertAll_spec toks Nil) as (t & Ht & Hord & Hperm);
    try assumption.
  { simpl. trivial. }
  { apply Forall_forall. intros x _. simpl. constructor. }
  exists t. split; [assumption|].
  assert (Hall : Collect (IterFromPosition t 0) = inorder t).
  { rewrite Collect_IterFromPosition by assumption.
    apply filter_all.
    eapply Forall_impl; [|apply ordered_positive; assumption].
    intros x Hx. cbv beta in Hx. apply endsAfter_true. lia. }
  rewrite Hall. split; [exact Hperm|]. split.
  - apply StronglySorted_weaken
      with (R := before) (P := fun x => StartPos x < EndPos x).
    + intros a b Ha Hab. unfold before in Hab. lia.
    + now apply ordered_positive.
    + now apply ordered_sorted.
  - now apply ordered_sorted.
Qed.

Lemma InsertAll_traversal_sorted_witness :
  exists t,
    InsertAll Nil [mkToken 0 0 3 3; mkToken 0 10 15 15; mkToken 0 5 8 8]
      = Some t /\
    Permutation (Collect (IterFromPosition t 0))
      [mkToken 0 0 3 3; mkToken 0 10 15 15; mkToken 0 5 8 8] /\
    StronglySorted (fun a b => StartPos a < StartPos b)
                   (Collect (IterFromPosition t 0)) /\
    StronglySorted before (Collect (IterFromPosition t 0)).
Proof.
  apply (InsertAll_traversal_sorted
           [mkToken 0 0 3 3; mkToken 0 10 15 15; mkToken 0 5 8 8]).
  - repeat constructor; unfold validToken; simpl; lia.
  - repeat constructor; unfold disjoint, before; simpl; lia.
Defined.

(** C2: every tree that can be built (from nil, by [Insert] and [Join])
    satisfies the ordering invariant of the data model, and on every tree
    satisfying it [IterFromPosition pos] iterates, in order, exactly the
    tokens whose end position is strictly greater than [pos], its current
    token being the first of them; on the tree obtained by inserting
    (0,3,3), (10,15,15), (5,8,8), collecting from position 6 gives
    [(5,8,8); (10,15,15)]. *)
Theorem IterFromPosition_tokens_ending_after :
  (forall t, constructible t -> ordered t) /\
  (forall t pos,
      ordered t ->
      Collect (IterFromPosition t pos)
        = filter (endsAfter pos) (inorder t) /\
      Get (IterFromPosition t pos)
        = hd_error (filter (endsAfter pos) (inorder t))) /\
  (exists t,
      InsertAll Nil [mkToken 0 0 3 3; mkToken 0 10 15 15; mkToken 0 5 8 8]
        = Some t /\
      Collect (IterFromPosition t 6)
        = [mkToken 0 5 8 8; mkToken 0 10 15 15]).
Proof.
  split; [|split].
  - intros t Ht. now apply constructible_ordered.
  - intros t pos Hord. split.
    + now apply Collect_IterFromPosition.
    + rewrite Get_pendingTokens. simpl.
      rewrite iterDescend_pendingTokens by assumption.
      simpl. now rewrite app_nil_r.
  - eexists. split; reflexivity.
Qed.

Lemma IterFromPosition_tokens_ending_after_witness :
  Collect (IterFromPosition
             (Node (mkToken 0 0 3 3) 0 15 Nil
                (Node (mkToken 0 10 15 15) 5 15
                   (Node (mkToken 0 5 8 8) 5 8 Nil Nil) Nil)) 6)
    = [mkToken 0 5 8 8; mkToken 0 10 15 15] /\
  Get (IterFromPosition
         (Node (mkToken 0 0 3 3) 0 15 Nil
            (Node (mkToken 0 10 15 15) 5 15
               (Node (mkToken 0 5 8 8) 5 8 Nil Nil) Nil)) 6)
    = Some (mkToken 0 5 8 8).
Proof.
  apply (proj1 (proj2 IterFromPosition_tokens_ending_after)
           (Node (mkToken 0 0 3 3) 0 15 Nil
              (Node (mkToken 0 10 15 15) 5 15
                 (Node (mkToken 0 5 8 8) 5 8 Nil Nil) Nil)) 6).
  apply (proj1 IterFromPosition_tokens_ending_after).
  apply (constructible_Insert
           (Node (mkToken 0 0 3 3) 0 15 Nil
              (Node (mkToken 0 10 15 15) 10 15 Nil Nil))
           (mkToken 0 5 8 8)); [|reflexivity].
  apply (constructible_Insert
           (Node (mkToken 0 0 3 3) 0 3 Nil Nil)
           (mkToken 0 10 15 15)); [|reflexivity].
  apply (constructible_Insert Nil (mkToken 0 0 3 3)); [|reflexivity].
  constructor.
Defined.

(** C7: every tree that can be built satisfies the ordering invariant,
    and on every tree satisfying it [Insert] panics exactly when the new
    token has zero (or negative) length, has a lookahead position before
    its end, or overlaps a token of the tree; a token meeting the three
    preconditions is accepted, and the returned tree holds it together
    with the tokens already present. *)
Theorem Insert_panics_iff_invariant_violated :
  (forall t, constructible t -> ordered t) /\
  (forall t tok,
      ordered t ->
      (Insert t tok = None <->
         (EndPos tok <= StartPos tok \/
          LookaheadPos tok < EndPos tok \/
          Exists (overlaps tok) (inorder t))) /\
      (StartPos tok < EndPos tok ->
       EndPos tok <= LookaheadPos tok ->
       Forall (fun x => ~ overlaps tok x) (inorder t) ->
       exists t',
         Insert t tok = Some t' /\
         In tok (inorder t') /\
         Permutation (inorder t') (tok :: inorder t) /\
         ordered t')).
Proof.
  split; [intros t Ht; now apply constructible_ordered|].
  intros t tok Hord. split; [split|].
  - intros Hnone.
    destruct (validateNewToken tok) as [[]|] eqn:Hv.
    + right. right.
      apply validateNewToken_Some in Hv.
      destruct (Forall_Exists_dec (disjoint tok) (disjoint_dec tok)
                  (inorder t)) as [Hall|Hex].
      * destruct (Insert_accepts t tok Hord Hv Hall) as [t' Ht'].
        congruence.
      * eapply Exists_impl; [|exact Hex].
        intros x Hx. now apply overlaps_not_disjoint.
    + apply validateNewToken_None in Hv. tauto.
  - intros [Hlen|[Hlook|Hov]].
    + apply Insert_invalid. apply validateNewToken_None. now left.
    + apply Insert_invalid. apply validateNewToken_None. now right.
    + destruct (Insert t tok) as [t'|] eqn:Hins; [|reflexivity].
      exfalso.
      destruct (Insert_Some t tok t' Hord Hins) as (_ & _ & _ & Hdis).
      apply Exists_exists in Hov. destruct Hov as (x & Hx & Hox).
      rewrite Forall_forall in Hdis.
      apply overlaps_not_disjoint in Hox. apply Hox. now apply Hdis.
  - intros Hlen Hlook Hno.
    destruct (Insert_accepts t tok Hord) as [t' Ht'].
    + split; assumption.
    + eapply Forall_impl; [|exact Hno].
      intros x Hx. destruct (disjoint_dec tok x) as [Hd|Hd];
        [assumption|]. exfalso. apply Hx.
      now apply overlaps_not_disjoint.
    + exists t'. split; [assumption|].
      destruct (Insert_Some t tok t' Hord Ht') as (_ & Ho & Hp & _).
      repeat split; try assumption.
      eapply Permutation_in; [symmetry; exact Hp|]. now left.
Qed.

Lemma Insert_panics_iff_invariant_violated_witness :
  (Insert (Node (mkToken 0 0 3 3) 0 3 Nil Nil) (mkToken 0 5 8 8) = None <->
     (8 <= 5 \/ 8 < 8 \/
      Exists (overlaps (mkToken 0 5 8 8)) [mkToken 0 0 3 3])) /\
  (5 < 8 -> 8 <= 8 ->
   Forall (fun x => ~ overlaps (mkToken 0 5 8 8) x) [mkToken 0 0 3 3] ->
   exists t',
     Insert (Node (mkToken 0 0 3 3) 0 3 Nil Nil) (mkToken 0 5 8 8)
       = Some t' /\
     In (mkToken 0 5 8 8) (inorder t') /\
     Permutation (inorder t') [mkToken 0 5 8 8; mkToken 0 0 3 3] /\
     ordered t').
Proof.
  apply (proj2 Insert_panics_iff_invariant_violated
           (Node (mkToken 0 0 3 3) 0 3 Nil Nil) (mkToken 0 5 8 8)).
  apply (proj1 Insert_panics_iff_invariant_violated).
  apply (constructible_Insert Nil (mkToken 0 0 3 3)); [|reflexivity].
  constructor.
Defined.

End TokenTreeFacts.

(* ===================================================================== *)
(** * Properties of the cursor locators *)
(* ===================================================================== *)

Section LocatorFacts.

Import Strings.String List ListNotations.
Import Locators.
Local Open Scope string_scope.
Local Open Scope list_scope.
Local Open Scope Z_scope.

Lemma ascii_firstn n : forall tree, asciiText tree -> asciiText (firstn n tree).
Proof.
  unfold asciiText. induction n as [|n IH]; intros tree H; simpl.
  - constructor.
  - destruct H; constructor; auto.
Qed.

Lemma ascii_skipn n : forall tree, asciiText tree -> asciiText (skipn n tree).
Proof.
  unfold asciiText. induction n as [|n IH]; intros tree H; simpl.
  - assumption.
  - destruct H; [constructor | auto].
Qed.

Lemma ascii_rev tree : asciiText tree -> asciiText (rev tree).
Proof. apply Forall_rev. Qed.

Lemma gcIterForTree_ascii gcSplit gcSplitRev tree pos dir :
  cutsAscii gcSplit gcSplitRev ->
  asciiText tree ->
  gcIterForTree gcSplit gcSplitRev tree pos dir
  = gcIterForTree asciiClusters asciiClustersRev tree pos dir.
Proof.
  intros [Hf Hb] Ha. destruct dir; simpl.
  - apply Hf. now apply ascii_skipn.
  - apply Hb. apply ascii_rev. now apply ascii_firstn.
Qed.

Lemma relativeLine_Locate_ascii gcSplit gcSplitRev loc st :
  cutsAscii gcSplit gcSplitRev ->
  asciiText (tree st) ->
  relativeLine_Locate gcSplit gcSplitRev loc st
  = relativeLine_Locate asciiClusters asciiClustersRev loc st.
Proof.
  intros Hc Ha.
  assert (Hstart : forall pos,
            findStartOfLine gcSplit gcSplitRev loc (tree st) pos
            = findStartOfLine asciiClusters asciiClustersRev loc
                              (tree st) pos).
  { intros pos.
    unfold findStartOfLine, findStartOfLineAbove, findStartOfLineBelow.
    now rewrite !(gcIterForTree_ascii gcSplit gcSplitRev) by assumption. }
  assert (Hadv : forall p target,
            advanceToOffset gcSplit gcSplitRev (tree st) p target
            = advanceToOffset asciiClusters asciiClustersRev
                              (tree st) p target).
  { intros p target. unfold advanceToOffset.
    now rewrite (gcIterForTree_ascii gcSplit gcSplitRev) by assumption. }
  unfold relativeLine_Locate, findOffsetFromLineStart.
  rewrite Hstart.
  rewrite (gcIterForTree_ascii gcSplit gcSplitRev) by assumption.
  destruct (findStartOfLine asciiClusters asciiClustersRev loc (tree st)
              (position (cursor st))) as [lineStartPos newlineCount].
  now rewrite Hadv.
Qed.

(** ** Constructors *)

(** C10: [NewCharInLineLocator] and [NewRelativeLineLocator] panic on a
    zero count and return the locator, without panicking, for every count
    of at least one. *)
Theorem locator_constructors_reject_zero_count :
  (forall dir incl, NewCharInLineLocator dir 0 incl = None) /\
  (forall dir, NewRelativeLineLocator dir 0 = None) /\
  (forall dir count incl,
      1 <= count ->
      NewCharInLineLocator dir count incl
        = Some (mkCharInLine dir count incl)) /\
  (forall dir count,
      1 <= count ->
      NewRelativeLineLocator dir count = Some (mkRelativeLine dir count)).
Proof.
  repeat split; try reflexivity.
  - intros dir count incl Hc. unfold NewCharInLineLocator.
    destruct (Z.eqb_spec count 0); [lia | reflexivity].
  - intros dir count Hc. unfold NewRelativeLineLocator.
    destruct (Z.eqb_spec count 0); [lia | reflexivity].
Qed.

Lemma locator_constructors_reject_zero_count_witness :
  NewCharInLineLocator ReadDirectionForward 3 true
    = Some (mkCharInLine ReadDirectionForward 3 true) /\
  NewRelativeLineLocator ReadDirectionBackward 1
    = Some (mkRelativeLine ReadDirectionBackward 1).
Proof.
  split.
  - apply (proj1 (proj2 (proj2 locator_constructors_reject_zero_count))).
    lia.
  - apply (proj2 (proj2 (proj2 locator_constructors_reject_zero_count))).
    lia.
Defined.

(** ** Vertical motion on "abcdef\nxy\npqrstu" *)

(** C4, as the code has it: with the cursor at position 5 and logical
    offset 0, [RelativeLine(forward, 1)] puts the cursor at position 8
    (on the last character of "xy") with logical offset 4, and applied
    again to that result puts it at position 15 with logical offset 0. *)
Theorem relativeLine_down_keeps_column :
  forall gcSplit gcSplitRev,
    cutsAscii gcSplit gcSplitRev ->
    relativeLine_Locate gcSplit gcSplitRev
      (mkRelativeLine ReadDirectionForward 1)
      (mkState (runes "abcdef
xy
pqrstu") (mkCursor 5 0))
    = mkCursor 8 4 /\
    relativeLine_Locate gcSplit gcSplitRev
      (mkRelativeLine ReadDirectionForward 1)
      (mkState (runes "abcdef
xy
pqrstu") (mkCursor 8 4))
    = mkCursor 15 0.
Proof.
  intros gcSplit gcSplitRev Hc.
  assert (Ha : asciiText (runes "abcdef
xy
pqrstu")).
  { unfold asciiText. simpl. repeat constructor; lia. }
  rewrite !(relativeLine_Locate_ascii gcSplit gcSplitRev) by assumption.
  split; vm_compute; reflexivity.
Qed.

Lemma relativeLine_down_keeps_column_witness :
  relativeLine_Locate asciiClusters asciiClustersRev
    (mkRelativeLine ReadDirectionForward 1)
    (mkState (runes "abcdef
xy
pqrstu") (mkCursor 5 0))
  = mkCursor 8 4 /\
  relativeLine_Locate asciiClusters asciiClustersRev
    (mkRelativeLine ReadDirectionForward 1)
    (mkState (runes "abcdef
xy
pqrstu") (mkCursor 8 4))
  = mkCursor 15 0.
Proof.
  apply (relativeLine_down_keeps_column asciiClusters asciiClustersRev).
  split; intros l _; reflexivity.
Defined.

(** C4, as stated, fails: the first move does not end at position 9 with
    logical offset 3. *)
Lemma relativeLine_down_not_past_line_end :
  relativeLine_Locate asciiClusters asciiClustersRev
    (mkRelativeLine ReadDirectionForward 1)
    (mkState (runes "abcdef
xy
pqrstu") (mkCursor 5 0))
  <> mkCursor 9 3.
Proof. vm_compute. discriminate. Qed.

(** ** Moving by lines: when [Locate] gives up *)

Lemma lineAboveLoop_noNewline count segs : forall offset newlineCount,
  Forall noNewline segs ->
  snd (lineAboveLoop count segs offset newlineCount) = newlineCount.
Proof.
  induction segs as [|seg rest IH]; intros offset newlineCount Hno; simpl.
  - reflexivity.
  - inversion Hno as [|? ? Hseg Hrest]; subst.
    unfold noNewline in Hseg. rewrite Hseg. now apply IH.
Qed.

(** In [findStartOfLineBelow] the lookahead iterator stays one segment
    ahead, so it is the tail of the main one all along. *)
Lemma lineBelowLoop_noNewline count segs : forall offset newlineCount,
  Forall noNewline (removelast segs) ->
  snd (lineBelowLoop count segs (tl segs) offset newlineCount)
  = newlineCount.
Proof.
  induction segs as [|seg rest IH]; intros offset newlineCount Hno.
  - simpl. now destruct (newlineCount <? count).
  - cbn [lineBelowLoop tl].
    destruct (newlineCount <? count); [|reflexivity].
    destruct rest as [|seg2 rest2].
    + destruct (HasNewline seg); simpl; [reflexivity|].
      now destruct (newlineCount <? count).
    + change (removelast (seg :: seg2 :: rest2))
        with (seg :: removelast (seg2 :: rest2)) in Hno.
      inversion Hno as [|? ? Hseg Hrest]; subst.
      unfold noNewline in Hseg. rewrite Hseg. cbn [andb].
      now apply IH.
Qed.

(** Moving forward, a newline cluster at the very end of the text is
    end of file: the walk over [segs ++ [nl]] is the plain walk over
    [segs]. *)
Lemma lineBelowLoop_final_newline count nl segs :
  HasNewline nl = true ->
  forall offset newlineCount,
    lineBelowLoop count (segs ++ [nl]) (tl (segs ++ [nl]))
                  offset newlineCount
    = plainWalk count segs offset newlineCount.
Proof.
  intros Hnl.
  induction segs as [|seg rest IH]; intros offset newlineCount.
  - simpl. rewrite Hnl. simpl. now destruct (newlineCount <? count).
  - cbn [app lineBelowLoop plainWalk tl].
    destruct (newlineCount <? count); [|reflexivity].
    destruct (rest ++ [nl]) as [|seg2 rest2] eqn:Hrest.
    + now destruct rest.
    + rewrite Bool.andb_false_r. apply IH.
Qed.

(** C3, as the code has it: [RelativeLine(direction, count).Locate]
    leaves the cursor state unchanged whenever no grapheme cluster in the
    given direction from the cursor holds a newline, where, moving
    forward, a newline cluster that ends the text is end of file: it is
    not counted, and the walk to the target line is the one over the
    clusters before it. *)
Theorem relativeLine_aborts_without_newline :
  forall gcSplit gcSplitRev loc st,
    (direction loc = ReadDirectionBackward ->
     Forall noNewline
       (gcIterForTree gcSplit gcSplitRev (tree st) (position (cursor st))
                      ReadDirectionBackward) ->
     relativeLine_Locate gcSplit gcSplitRev loc st = cursor st) /\
    (direction loc = ReadDirectionForward ->
     Forall noNewline
       (removelast
          (gcIterForTree gcSplit gcSplitRev (tree st)
                         (position (cursor st)) ReadDirectionForward)) ->
     relativeLine_Locate gcSplit gcSplitRev loc st = cursor st) /\
    (forall segs nl,
       HasNewline nl = true ->
       gcIterForTree gcSplit gcSplitRev (tree st) (position (cursor st))
                     ReadDirectionForward = segs ++ [nl] ->
       findStartOfLineBelow gcSplit gcSplitRev loc (tree st)
                            (position (cursor st))
       = (add64 (position (cursor st))
                (fst (plainWalk (count loc) segs 0 0)),
          snd (plainWalk (count loc) segs 0 0))).
Proof.
  intros gcSplit gcSplitRev loc st. split; [|split].
  - intros Hdir Hno.
    unfold relativeLine_Locate, findStartOfLine, findStartOfLineAbove.
    rewrite Hdir.
    pose proof (lineAboveLoop_noNewline (count loc) _ 0 0 Hno) as Hsnd.
    destruct (lineAboveLoop (count loc) _ 0 0) as [offset newlineCount].
    simpl in Hsnd. subst newlineCount. reflexivity.
  - intros Hdir Hno.
    unfold relativeLine_Locate, findStartOfLine, findStartOfLineBelow.
    rewrite Hdir.
    pose proof (lineBelowLoop_noNewline (count loc) _ 0 0 Hno) as Hsnd.
    cbv zeta.
    destruct (lineBelowLoop (count loc) _ _ 0 0) as [offset newlineCount].
    simpl in Hsnd. subst newlineCount. reflexivity.
  - intros segs nl Hnl Hsegs.
    unfold findStartOfLineBelow. cbv zeta. rewrite Hsegs.
    rewrite lineBelowLoop_final_newline by assumption.
    now destruct (plainWalk (count loc) segs 0 0).
Qed.

Lemma relativeLine_aborts_without_newline_witness :
  relativeLine_Locate asciiClusters asciiClustersRev
    (mkRelativeLine ReadDirectionBackward 1)
    (mkState (runes "ab
cd") (mkCursor 1 0))
  = mkCursor 1 0 /\
  relativeLine_Locate asciiClusters asciiClustersRev
    (mkRelativeLine ReadDirectionForward 1)
    (mkState (runes "ab
") (mkCursor 1 0))
  = mkCursor 1 0.
Proof.
  split.
  - apply (proj1 (relativeLine_aborts_without_newline
                    asciiClusters asciiClustersRev
                    (mkRelativeLine ReadDirectionBackward 1)
                    (mkState (runes "ab
cd") (mkCursor 1 0)))).
    + reflexivity.
    + repeat constructor.
  - apply (proj1 (proj2 (relativeLine_aborts_without_newline
                    asciiClusters asciiClustersRev
                    (mkRelativeLine ReadDirectionForward 1)
                    (mkState (runes "ab
") (mkCursor 1 0))))).
    + reflexivity.
    + repeat constructor.
Defined.

(** C3, as stated, fails: on "a\nb" with the cursor on "b", one newline
    lies before the cursor, fewer than the count 2, and yet
    [RelativeLine(backward, 2)] moves the cursor to position 0. *)
Lemma relativeLine_moves_with_fewer_newlines :
  newlinesFrom (runes "a
b") 2 ReadDirectionBackward < 2 /\
  relativeLine_Locate asciiClusters asciiClustersRev
    (mkRelativeLine ReadDirectionBackward 2)
    (mkState (runes "a
b") (mkCursor 2 0))
  <> mkCursor 2 0.
Proof. split; [vm_compute; reflexivity | vm_compute; discriminate]. Qed.

(** ** [OntoLine] *)

Lemma u64_small z : 0 <= z < 2 ^ 64 -> u64 z = z.
Proof. intros H. unfold u64. now apply Z.mod_small. Qed.

Lemma concat_head_len (segs : list Segment) l a rest :
  concat segs = l -> segs = a :: rest ->
  clusterLen a <= Z.of_nat (List.length l).
Proof.
  intros <- ->. unfold clusterLen. simpl. rewrite length_app. lia.
Qed.

Lemma concat_head2_len (segs : list Segment) l a b rest :
  concat segs = l -> segs = a :: b :: rest ->
  clusterLen a + clusterLen b <= Z.of_nat (List.length l).
Proof.
  intros <- ->. unfold clusterLen. simpl. rewrite !length_app. lia.
Qed.

Lemma length_rev_firstn_le (tree : Tree) p :
  0 <= p -> Z.of_nat (List.length (rev (firstn (Z.to_nat p) tree))) <= p.
Proof.
  intros Hp. rewrite length_rev, length_firstn. lia.
Qed.

Lemma length_rev_firstn_le_tree (tree : Tree) p :
  Z.of_nat (List.length (rev (firstn (Z.to_nat p) tree)))
  <= Z.of_nat (List.length tree).
Proof. rewrite length_rev, length_firstn. lia. Qed.

(** C6, as the code has it.  For a cluster iterator that cuts a stream
    into consecutive pieces, and a text shorter than 2^64 characters,
    [OntoLine.Locate] returns a position that is: for a cursor at or past
    the end of the text, the start of the last cluster, except that a
    text ending in a newline cluster gives the end-of-text position and
    an empty text gives 0; for a cursor on a newline cluster, the start
    of the cluster before it, except that on an empty line it is the
    start of the newline cluster; and otherwise the position of the
    cursor. *)
Theorem ontoLine_Locate_cases :
  forall gcSplit gcSplitRev st,
    (forall l, concat (gcSplit l) = l) ->
    (forall l, concat (gcSplitRev l) = l) ->
    Z.of_nat (List.length (tree st)) < 2 ^ 64 ->
    0 <= position (cursor st) ->
    (Z.of_nat (List.length (tree st)) <= position (cursor st) ->
     position (ontoLine_Locate gcSplit gcSplitRev st)
     = ontoLineAtEnd
         (gcIterForTree gcSplit gcSplitRev (tree st)
            (Z.of_nat (List.length (tree st))) ReadDirectionBackward)
         (Z.of_nat (List.length (tree st)))) /\
    (position (cursor st) < Z.of_nat (List.length (tree st)) ->
     forall seg rest,
       gcIterForTree gcSplit gcSplitRev (tree st) (position (cursor st))
                     ReadDirectionForward = seg :: rest ->
       position (ontoLine_Locate gcSplit gcSplitRev st)
       = if HasNewline seg then
           ontoLineOnNewline
             (gcIterForTree gcSplit gcSplitRev (tree st)
                (position (cursor st) + clusterLen seg)
                ReadDirectionBackward)
             (position (cursor st) + clusterLen seg)
         else position (cursor st)).
Proof.
  intros gcSplit gcSplitRev [tr [pos lo]] Hf Hb Hlen Hpos.
  cbn [tree cursor position logicalOffset] in *.
  set (n := Z.of_nat (List.length tr)) in *.
  assert (Hn : 0 <= n) by (unfold n; lia).
  assert (HnumChars : NumChars tr = n).
  { unfold NumChars. apply u64_small. fold n. lia. }
  unfold ontoLine_Locate. cbn [tree cursor position].
  rewrite HnumChars.
  split.
  - intros Hge.
    destruct (Z.leb_spec n pos) as [_|Hlt]; [|lia].
    cbn [position]. unfold findPrevGraphemeCluster, ontoLineAtEnd.
    cbn [Z.sub Z.to_nat Z.pos_sub skipClusters].
    change (Z.to_nat (1 - 1)) with 0%nat. cbn [skipClusters].
    destruct (gcIterForTree gcSplit gcSplitRev tr n ReadDirectionBackward)
      as [|last more] eqn:Hsegs; [reflexivity|].
    cbn [gcIterForTree] in Hsegs.
    pose proof (concat_head_len _ _ _ _ (Hb _) Hsegs) as Hl.
    pose proof (length_rev_firstn_le_tree tr n) as Hl2. fold n in Hl2.
    assert (0 <= clusterLen last) by (unfold clusterLen; lia).
    destruct (HasNewline last).
    + unfold sub64. rewrite Z.sub_0_r. apply u64_small. lia.
    + unfold sub64, NumRunes. fold (clusterLen last).
      rewrite Z.sub_0_r.
      rewrite (u64_small n) by lia.
      rewrite (u64_small (clusterLen last)) by lia.
      apply u64_small. lia.
  - intros Hlt seg rest Hsegs.
    destruct (Z.leb_spec n pos) as [Hge|_]; [lia|].
    unfold findNewlineAtPos. rewrite Hsegs.
    assert (Hseg : 0 <= clusterLen seg <= n - pos).
    { split; [unfold clusterLen; lia|].
      cbn [gcIterForTree] in Hsegs.
      pose proof (concat_head_len _ _ _ _ (Hf _) Hsegs) as Hl.
      rewrite length_skipn in Hl. unfold n. lia. }
    destruct (HasNewline seg); [|reflexivity].
    cbn [position].
    assert (Hafter : add64 pos (NumRunes seg) = pos + clusterLen seg).
    { unfold add64, NumRunes. fold (clusterLen seg).
      rewrite (u64_small (clusterLen seg)) by lia.
      apply u64_small. lia. }
    rewrite Hafter.
    set (after := pos + clusterLen seg) in *.
    unfold findPrevGraphemeCluster, ontoLineOnNewline.
    change (Z.to_nat (2 - 1)) with 1%nat. cbn [skipClusters].
    destruct (gcIterForTree gcSplit gcSplitRev tr after
                ReadDirectionBackward) as [|nl [|prev more]] eqn:Hbsegs;
      try reflexivity.
    cbn [gcIterForTree] in Hbsegs.
    pose proof (concat_head2_len _ _ _ _ _ (Hb _) Hbsegs) as Hl.
    assert (Hafter0 : 0 <= after) by (unfold after; lia).
    pose proof (length_rev_firstn_le tr after Hafter0) as Hl2.
    assert (0 <= clusterLen nl) by (unfold clusterLen; lia).
    assert (0 <= clusterLen prev) by (unfold clusterLen; lia).
    assert (Hoff : add64 0 (NumRunes nl) = clusterLen nl).
    { unfold add64, NumRunes. fold (clusterLen nl). rewrite Z.add_0_l.
      rewrite (u64_small (clusterLen nl)) by (unfold after in *; lia).
      apply u64_small. unfold after in *. lia. }
    rewrite Hoff.
    destruct (HasNewline prev).
    + unfold sub64. apply u64_small. unfold after in *. lia.
    + unfold sub64, NumRunes. fold (clusterLen prev).
      rewrite (u64_small (after - clusterLen nl))
        by (unfold after in *; lia).
      rewrite (u64_small (clusterLen prev)) by (unfold after in *; lia).
      apply u64_small. unfold after in *. lia.
Qed.

Lemma asciiClusters_concat : forall l, concat (asciiClusters l) = l.
Proof.
  assert (H : forall l,
             concat (asciiClusters l) = l /\
             forall r, concat (asciiClusters (r :: l)) = r :: l).
  { induction l as [|r2 rest2 [IH1 IH2]].
    - split; [reflexivity | intros r; reflexivity].
    - split; [apply IH2|]. intros r.
      change (asciiClusters (r :: r2 :: rest2))
        with (if ((r =? 13) && (r2 =? 10))%bool
              then [r; r2] :: asciiClusters rest2
              else [r] :: asciiClusters (r2 :: rest2)).
      destruct ((r =? 13) && (r2 =? 10))%bool; cbn [concat app].
      + now rewrite IH1.
      + now rewrite IH2. }
  intros l. apply H.
Qed.

Lemma asciiClustersRev_concat : forall l, concat (asciiClustersRev l) = l.
Proof.
  assert (H : forall l,
             concat (asciiClustersRev l) = l /\
             forall r, concat (asciiClustersRev (r :: l)) = r :: l).
  { induction l as [|r2 rest2 [IH1 IH2]].
    - split; [reflexivity | intros r; reflexivity].
    - split; [apply IH2|]. intros r.
      change (asciiClustersRev (r :: r2 :: rest2))
        with (if ((r =? 10) && (r2 =? 13))%bool
              then [r; r2] :: asciiClustersRev rest2
              else [r] :: asciiClustersRev (r2 :: rest2)).
      destruct ((r =? 10) && (r2 =? 13))%bool; cbn [concat app].
      + now rewrite IH1.
      + now rewrite IH2. }
  intros l. apply H.
Qed.

Lemma ontoLine_Locate_cases_witness :
  position
    (ontoLine_Locate asciiClusters asciiClustersRev
       (mkState (runes "ab
cd") (mkCursor 2 0))) = 1 /\
  position
    (ontoLine_Locate asciiClusters asciiClustersRev
       (mkState (runes "ab
cd") (mkCursor 5 0))) = 4.
Proof.
  split.
  - destruct (ontoLine_Locate_cases asciiClusters asciiClustersRev
                (mkState (runes "ab
cd") (mkCursor 2 0)))
      as (_ & Hnl).
    + apply asciiClusters_concat.
    + apply asciiClustersRev_concat.
    + vm_compute. reflexivity.
    + vm_compute. discriminate.
    + rewrite (Hnl) with (seg := [10]) (rest := [[99]; [100]]).
      * reflexivity.
      * vm_compute. reflexivity.
      * reflexivity.
  - destruct (ontoLine_Locate_cases asciiClusters asciiClustersRev
                (mkState (runes "ab
cd") (mkCursor 5 0)))
      as (Hend & _).
    + apply asciiClusters_concat.
    + apply asciiClustersRev_concat.
    + vm_compute. reflexivity.
    + vm_compute. discriminate.
    + rewrite Hend; [reflexivity | vm_compute; discriminate].
Defined.

(** C6, as stated, fails: at the end of a text that ends in a newline,
    the last cluster is that newline, which starts one character before
    the end, and yet the cursor stays at the end-of-text position, on
    the empty last line. *)
Lemma ontoLine_keeps_empty_last_line :
  gcIterForTree asciiClusters asciiClustersRev (runes "ab
") 3 ReadDirectionBackward = [[10]; [98]; [97]] /\
  position
    (ontoLine_Locate asciiClusters asciiClustersRev
       (mkState (runes "ab
") (mkCursor 3 0)))
  <> 3 - clusterLen [10].
Proof. split; [reflexivity | vm_compute; discriminate]. Qed.

End LocatorFacts.

(* ===================================================================== *)
(** * Properties of the regular-expression parser *)
(* ===================================================================== *)

Section RegexpFacts.

Import List ListNotations Strings.Ascii Strings.String.
Import Regexps.
Local Open Scope char_scope.
Local Open Scope list_scope.
Local Open Scope string_scope.

Lemma parseRegexp_S fuel s inParen :
  parseRegexp (S fuel) s inParen =
  match s with
  | EmptyString => Err "Unexpected end of regular expression"
  | String _ _ => parseLoop fuel s inParen regexpEmpty
  end.
Proof. reflexivity. Qed.

Lemma parseLoop_S fuel s inParen regexp :
  parseLoop (S fuel) s inParen regexp =
  match s with
  | EmptyString => Ok (regexp, EmptyString)
  | String c rest =>
      if (c =? "(")%char then
        match parseRegexp fuel rest true with
        | Ok (nextRegexp, afterInner) =>
            match afterInner with
            | EmptyString => Err "Expected closing paren"
            | String c' rest' =>
                if (c' =? ")")%char then
                  parseLoop fuel rest' inParen
                    (appendAtom regexp (regexpParenExpr nextRegexp))
                else Err "Expected closing paren"
            end
        | Err e => Err e
        | OutOfFuel => OutOfFuel
        end
      else if (c =? ")")%char then
        if inParen then Ok (regexp, s)
        else Err "Unexpected closing paren"
      else if (c =? "|")%char then
        match parseRegexp fuel rest inParen with
        | Ok (nextRegexp, afterInner) =>
            if isEmpty regexp then Err "Expected characters before union"
            else parseLoop fuel afterInner inParen
                   (regexpUnion regexp nextRegexp)
        | Err e => Err e
        | OutOfFuel => OutOfFuel
        end
      else
        match parseSimpleCase c rest regexp with
        | Ok (regexp', rest') => parseLoop fuel rest' inParen regexp'
        | Err e => Err e
        | OutOfFuel => OutOfFuel
        end
  end.
Proof. reflexivity. Qed.

Lemma classLoop_String c rest negated chars :
  classLoop (String c rest) negated chars =
  if (c =? "]")%char then Ok (regexpCharClass negated chars, rest)
  else if (c =? "\")%char then
    match rest with
    | EmptyString => Err "Invalid escape sequence in character class"
    | String c2 rest2 =>
        if ((c2 =? "[") || (c2 =? "]") || (c2 =? "^") || (c2 =? "\"))%char
        then classLoop rest2 negated (chars ++ [c2])%list
        else Err "Unrecognized escape sequence in character class"
    end
  else classLoop rest negated (chars ++ [c])%list.
Proof. reflexivity. Qed.

(** ** What is left of the input *)

Lemma classLoop_length : forall s negated chars r s',
  classLoop s negated chars = Ok (r, s') -> length s' < length s.
Proof.
  assert (H : forall s,
    (forall negated chars r s',
        classLoop s negated chars = Ok (r, s') -> length s' < length s) /\
    (forall c negated chars r s',
        classLoop (String c s) negated chars = Ok (r, s') ->
        length s' < length (String c s))).
  { induction s as [|a s [IH1 IH2]].
    - split; [intros; discriminate|].
      intros c negated chars r s'. rewrite classLoop_String.
      destruct (c =? "]")%char; [intros [= _ <-]; simpl; lia|].
      destruct (c =? "\")%char; discriminate.
    - split; [apply IH2|].
      intros c negated chars r s'. rewrite classLoop_String.
      destruct (c =? "]")%char; [intros [= _ <-]; simpl; lia|].
      destruct (c =? "\")%char.
      + destruct ((a =? "[") || (a =? "]") || (a =? "^") || (a =? "\"))%char;
          [|discriminate].
        intros H. apply IH1 in H. simpl. lia.
      + intros H. apply IH2 in H. simpl in *. lia. }
  intros s. apply H.
Qed.

Lemma parseSimpleCase_length c rest regexp regexp' rest' :
  parseSimpleCase c rest regexp = Ok (regexp', rest') ->
  length rest' <= length rest.
Proof.
  unfold parseSimpleCase.
  repeat match goal with
         | |- context [if ?b then _ else _] => destruct b
         end;
    try (destruct regexp; intros [= _ <-]; lia);
    try (intros [= _ <-]; lia).
  - simpl. destruct rest as [|c2 rest2]; [discriminate|].
    intros [= _ <-]. simpl. lia.
  - unfold parseCharacterClass.
    destruct rest as [|c2 rest2].
    + discriminate.
    + destruct (c2 =? "^")%char.
      * destruct (classLoop rest2 true []) as [[r s1]| |] eqn:Hc;
          try discriminate.
        intros [= _ <-]. apply classLoop_length in Hc. simpl. lia.
      * destruct (classLoop (String c2 rest2) false []) as [[r s1]| |]
          eqn:Hc; try discriminate.
        intros [= _ <-]. apply classLoop_length in Hc. lia.
Qed.

Lemma classLoop_fuel s : forall negated chars,
  classLoop s negated chars <> OutOfFuel.
Proof.
  assert (H : forall s,
    (forall negated chars, classLoop s negated chars <> OutOfFuel) /\
    (forall c negated chars,
        classLoop (String c s) negated chars <> OutOfFuel)).
  { clear s. induction s as [|a s [IH1 IH2]].
    - split; [discriminate|].
      intros c negated chars. rewrite classLoop_String.
      destruct (c =? "]")%char; [discriminate|].
      destruct (c =? "\")%char; discriminate.
    - split; [apply IH2|].
      intros c negated chars. rewrite classLoop_String.
      destruct (c =? "]")%char; [discriminate|].
      destruct (c =? "\")%char; [|apply IH2].
      destruct ((a =? "[") || (a =? "]") || (a =? "^") || (a =? "\"))%char;
        [apply IH1 | discriminate]. }
  apply H.
Qed.

Lemma parseSimpleCase_fuel c rest regexp :
  parseSimpleCase c rest regexp <> OutOfFuel.
Proof.
  unfold parseSimpleCase.
  repeat match goal with
         | |- context [if ?b then _ else _] => destruct b
         end;
    try (destruct regexp; discriminate); try discriminate.
  - simpl. destruct rest; discriminate.
  - unfold parseCharacterClass.
    destruct rest as [|c2 rest2]; [discriminate|].
    destruct (c2 =? "^")%char.
    + pose proof (classLoop_fuel rest2 true []).
      destruct (classLoop rest2 true []) as [[r s1]| |];
        try discriminate; congruence.
    + pose proof (classLoop_fuel (String c2 rest2) false []).
      destruct (classLoop (String c2 rest2) false []) as [[r s1]| |];
        try discriminate; congruence.
Qed.

Lemma parse_length fuel : forall s inParen,
  (forall r s', parseRegexp fuel s inParen = Ok (r, s') ->
                length s' <= length s) /\
  (forall regexp r s', parseLoop fuel s inParen regexp = Ok (r, s') ->
                       length s' <= length s).
Proof.
  induction fuel as [|fuel IH]; intros s inParen.
  - split; intros; discriminate.
  - split.
    + intros r s'. rewrite parseRegexp_S.
      destruct s as [|c rest]; [discriminate|]. apply IH.
    + intros regexp r s'. rewrite parseLoop_S.
      destruct s as [|c rest]; [intros [= _ <-]; lia|].
      destruct (c =? "(")%char.
      { destruct (parseRegexp fuel rest true) as [[nr s1]| |] eqn:Hin;
          try discriminate.
        apply IH in Hin.
        destruct s1 as [|c1 s1']; [discriminate|].
        destruct (c1 =? ")")%char; [|discriminate].
        intros H. apply IH in H. simpl in *. lia. }
      destruct (c =? ")")%char.
      { destruct inParen; [|discriminate]. intros [= _ <-]. lia. }
      destruct (c =? "|")%char.
      { destruct (parseRegexp fuel rest inParen) as [[nr s1]| |] eqn:Hin;
          try discriminate.
        apply IH in Hin.
        destruct (isEmpty regexp); [discriminate|].
        intros H. apply IH in H. simpl in *. lia. }
      destruct (parseSimpleCase c rest regexp) as [[nr s1]| |] eqn:Hs;
        try discriminate.
      apply parseSimpleCase_length in Hs.
      intros H. apply IH in H. simpl in *. lia.
Qed.

(** ** The iteration bound is never reached *)

Lemma parse_fuel fuel : forall s inParen,
  (2 * length s + 2 <= fuel -> parseRegexp fuel s inParen <> OutOfFuel) /\
  (forall regexp, 2 * length s + 1 <= fuel ->
                  parseLoop fuel s inParen regexp <> OutOfFuel).
Proof.
  induction fuel as [|fuel IH]; intros s inParen.
  - split; intros; lia.
  - split.
    + intros Hf. rewrite parseRegexp_S.
      destruct s as [|c rest]; [discriminate|]. apply IH. lia.
    + intros regexp Hf. rewrite parseLoop_S.
      destruct s as [|c rest]; [discriminate|]. simpl in Hf.
      destruct (c =? "(")%char.
      { pose proof (proj1 (IH rest true)) as Hne.
        destruct (parseRegexp fuel rest true) as [[nr s1]| |] eqn:Hin;
          [|discriminate|exfalso; apply Hne; [lia|reflexivity]].
        apply parse_length in Hin.
        destruct s1 as [|c1 s1']; [discriminate|].
        destruct (c1 =? ")")%char; [|discriminate].
        apply IH. simpl in Hin. lia. }
      destruct (c =? ")")%char.
      { destruct inParen; discriminate. }
      destruct (c =? "|")%char.
      { pose proof (proj1 (IH rest inParen)) as Hne.
        destruct (parseRegexp fuel rest inParen) as [[nr s1]| |] eqn:Hin;
          [|discriminate|exfalso; apply Hne; [lia|reflexivity]].
        apply parse_length in Hin.
        destruct (isEmpty regexp); [discriminate|].
        apply IH. lia. }
      pose proof (parseSimpleCase_fuel c rest regexp) as Hne.
      destruct (parseSimpleCase c rest regexp) as [[nr s1]| |] eqn:Hs;
        [|discriminate|congruence].
      apply parseSimpleCase_length in Hs.
      apply IH. lia.
Qed.

(** More fuel does not change a result. *)
Lemma parse_fuel_S fuel : forall s inParen,
  (forall res, parseRegexp fuel s inParen = res -> res <> OutOfFuel ->
               parseRegexp (S fuel) s inParen = res) /\
  (forall regexp res,
      parseLoop fuel s inParen regexp = res -> res <> OutOfFuel ->
      parseLoop (S fuel) s inParen regexp = res).
Proof.
  induction fuel as [|fuel IH]; intros s inParen.
  - split; intros; simpl in *; congruence.
  - split.
    + intros res. rewrite (parseRegexp_S (S fuel)), parseRegexp_S.
      destruct s as [|c rest]; [trivial|]. apply IH.
    + intros regexp res.
      rewrite (parseLoop_S (S fuel)), parseLoop_S.
      destruct s as [|c rest]; [trivial|].
      destruct (c =? "(")%char.
      { destruct (parseRegexp fuel rest true) as [[nr s1]| |] eqn:Hin.
        - apply IH in Hin; [|discriminate]. rewrite Hin.
          destruct s1 as [|c1 s1']; [trivial|].
          destruct (c1 =? ")")%char; [|trivial]. apply IH.
        - apply IH in Hin; [|discriminate]. now rewrite Hin.
        - intros <- Hne. congruence. }
      destruct (c =? ")")%char; [trivial|].
      destruct (c =? "|")%char.
      { destruct (parseRegexp fuel rest inParen) as [[nr s1]| |] eqn:Hin.
        - apply IH in Hin; [|discriminate]. rewrite Hin.
          destruct (isEmpty regexp); [trivial|]. apply IH.
        - apply IH in Hin; [|discriminate]. now rewrite Hin.
        - intros <- Hne. congruence. }
      destruct (parseSimpleCase c rest regexp) as [[nr s1]| |];
        [apply IH | trivial | trivial].
Qed.

Lemma parseRegexp_more_fuel fuel fuel' s inParen res :
  parseRegexp fuel s inParen = res -> res <> OutOfFuel -> fuel <= fuel' ->
  parseRegexp fuel' s inParen = res.
Proof.
  intros H Hne Hle. induction Hle as [|m Hle IH]; [assumption|].
  now apply parse_fuel_S.
Qed.

Lemma parseLoop_more_fuel fuel fuel' s inParen regexp res :
  parseLoop fuel s inParen regexp = res -> res <> OutOfFuel ->
  fuel <= fuel' ->
  parseLoop fuel' s inParen regexp = res.
Proof.
  intros H Hne Hle. induction Hle as [|m Hle IH]; [assumption|].
  now apply parse_fuel_S.
Qed.

(** ** Appending to the input *)

Lemma length_append s t : length (s ++ t) = length s + length t.
Proof. induction s as [|c s IH]; simpl; [reflexivity | now rewrite IH]. Qed.

Lemma append_assoc s t u : (s ++ t) ++ u = s ++ (t ++ u).
Proof. induction s as [|c s IH]; simpl; [reflexivity | now rewrite IH]. Qed.

Lemma classLoop_extend t : forall s negated chars r s',
  classLoop s negated chars = Ok (r, s') ->
  classLoop (s ++ t) negated chars = Ok (r, s' ++ t).
Proof.
  assert (H : forall s,
    (forall negated chars r s',
        classLoop s negated chars = Ok (r, s') ->
        classLoop (s ++ t) negated chars = Ok (r, s' ++ t)) /\
    (forall c negated chars r s',
        classLoop (String c s) negated chars = Ok (r, s') ->
        classLoop (String c s ++ t) negated chars = Ok (r, s' ++ t))).
  { induction s as [|a s [IH1 IH2]].
    - split; [intros; discriminate|].
      intros c negated chars r s'.
      change (String c "" ++ t) with (String c ("" ++ t)).
      rewrite !classLoop_String.
      destruct (c =? "]")%char; [now intros [= <- <-]|].
      destruct (c =? "\")%char; discriminate.
    - split; [apply IH2|].
      intros c negated chars r s'.
      change (String c (String a s) ++ t) with (String c (String a s ++ t)).
      rewrite !classLoop_String.
      destruct (c =? "]")%char; [now intros [= <- <-]|].
      destruct (c =? "\")%char; [|apply IH2].
      change (String a s ++ t) with (String a (s ++ t)). cbv beta iota.
      destruct ((a =? "[") || (a =? "]") || (a =? "^") || (a =? "\"))%char;
        [apply IH1 | discriminate]. }
  intros s. apply H.
Qed.

Lemma parseSimpleCase_extend t c rest regexp regexp' rest' :
  parseSimpleCase c rest regexp = Ok (regexp', rest') ->
  parseSimpleCase c (rest ++ t) regexp = Ok (regexp', rest' ++ t).
Proof.
  unfold parseSimpleCase.
  repeat match goal with
         | |- context [if ?b then _ else _] => destruct b
         end;
    try (destruct regexp; intros [= <- <-]; reflexivity);
    try (intros [= <- <-]; reflexivity).
  - simpl. destruct rest as [|c2 rest2]; [discriminate|].
    now intros [= <- <-].
  - unfold parseCharacterClass.
    destruct rest as [|c2 rest2].
    + discriminate.
    + change (String c2 rest2 ++ t) with (String c2 (rest2 ++ t)).
      cbv beta iota.
      destruct (c2 =? "^")%char.
      * destruct (classLoop rest2 true []) as [[r s1]| |] eqn:Hc;
          try discriminate.
        intros [= <- <-].
        now rewrite (classLoop_extend t _ _ _ _ _ Hc).
      * destruct (classLoop (String c2 rest2) false []) as [[r s1]| |]
          eqn:Hc; try discriminate.
        intros [= <- <-].
        change (String c2 (rest2 ++ t)) with (String c2 rest2 ++ t).
        now rewrite (classLoop_extend t _ _ _ _ _ Hc).
Qed.

(** The loop returns at the end of the input or, inside parentheses
    only, in front of a closing paren. *)
Lemma parse_rest fuel : forall s inParen,
  (forall r s', parseRegexp fuel s inParen = Ok (r, s') ->
     s' = "" \/ inParen = true /\ exists rest, s' = String ")" rest) /\
  (forall regexp r s', parseLoop fuel s inParen regexp = Ok (r, s') ->
     s' = "" \/ inParen = true /\ exists rest, s' = String ")" rest).
Proof.
  induction fuel as [|fuel IH]; intros s inParen.
  - split; intros; discriminate.
  - split.
    + intros r s'. rewrite parseRegexp_S.
      destruct s as [|c rest]; [discriminate|]. apply IH.
    + intros regexp r s'. rewrite parseLoop_S.
      destruct s as [|c rest]; [intros [= _ <-]; now left|].
      destruct (c =? "(")%char.
      { destruct (parseRegexp fuel rest true) as [[nr s1]| |];
          try discriminate.
        destruct s1 as [|c1 s1']; [discriminate|].
        destruct (c1 =? ")")%char; [|discriminate]. apply IH. }
      destruct (Ascii.eqb_spec c ")") as [->|_].
      { destruct inParen; [|discriminate]. intros [= _ <-].
        right. eauto. }
      destruct (c =? "|")%char.
      { destruct (parseRegexp fuel rest inParen) as [[nr s1]| |];
          try discriminate.
        destruct (isEmpty regexp); [discriminate|]. apply IH. }
      destruct (parseSimpleCase c rest regexp) as [[nr s1]| |];
        try discriminate.
      apply IH.
Qed.

Lemma parseRegexp_top_rest fuel s r s' :
  parseRegexp fuel s false = Ok (r, s') -> s' = "".
Proof.
  intros H. apply parse_rest in H. destruct H as [H|[H _]];
    [assumption | discriminate].
Qed.

Lemma parseLoop_top_rest fuel s regexp r s' :
  parseLoop fuel s false regexp = Ok (r, s') -> s' = "".
Proof.
  intros H. apply parse_rest in H. destruct H as [H|[H _]];
    [assumption | discriminate].
Qed.

(** A parse that stopped in front of a closing paren has not looked
    past it: what follows can be anything. *)
Lemma parse_stable fuel : forall s inParen,
  (forall r c s', parseRegexp fuel s inParen = Ok (r, String c s') ->
     forall t, parseRegexp fuel (s ++ t) inParen
               = Ok (r, String c s' ++ t)) /\
  (forall regexp r c s',
     parseLoop fuel s inParen regexp = Ok (r, String c s') ->
     forall t, parseLoop fuel (s ++ t) inParen regexp
               = Ok (r, String c s' ++ t)).
Proof.
  induction fuel as [|fuel IH]; intros s inParen.
  - split; intros; discriminate.
  - split.
    + intros r c s' H t. rewrite parseRegexp_S in *.
      destruct s as [|c0 rest]; [discriminate|].
      change (String c0 rest ++ t) with (String c0 (rest ++ t)).
      change (String c0 (rest ++ t)) with (String c0 rest ++ t).
      now apply IH.
    + intros regexp r c s' H t. rewrite parseLoop_S in H.
      destruct s as [|c0 rest]; [discriminate|].
      change (String c0 rest ++ t) with (String c0 (rest ++ t)).
      rewrite parseLoop_S.
      destruct (c0 =? "(")%char.
      { destruct (parseRegexp fuel rest true) as [[nr s1]| |] eqn:Hin;
          try discriminate.
        destruct s1 as [|c1 s1']; [discriminate|].
        rewrite (proj1 (IH rest true) _ _ _ Hin t).
        change (String c1 s1' ++ t) with (String c1 (s1' ++ t)).
        cbv beta iota.
        destruct (c1 =? ")")%char; [|discriminate].
        now apply IH. }
      destruct (c0 =? ")")%char.
      { destruct inParen; [|discriminate]. now injection H as <- <- <-. }
      destruct (c0 =? "|")%char.
      { destruct (parseRegexp fuel rest inParen) as [[nr s1]| |] eqn:Hin;
          try discriminate.
        destruct (isEmpty regexp); [discriminate|].
        destruct s1 as [|c1 s1'].
        - destruct fuel; discriminate.
        - rewrite (proj1 (IH rest inParen) _ _ _ Hin t).
          now apply IH. }
      destruct (parseSimpleCase c0 rest regexp) as [[nr s1]| |] eqn:Hs;
        try discriminate.
      rewrite (parseSimpleCase_extend t _ _ _ _ _ Hs).
      now apply IH.
Qed.

(** Outside parentheses, a parse that succeeded goes on into whatever
    is appended; if that fails wherever it stands, so does the whole. *)
Lemma parse_then_fail t :
  tailFails t ->
  forall fuel s,
    (forall r, parseRegexp fuel s false = Ok (r, "") ->
               notOk (parseRegexp fuel (s ++ t) false)) /\
    (forall regexp r, parseLoop fuel s false regexp = Ok (r, "") ->
                      notOk (parseLoop fuel (s ++ t) false regexp)).
Proof.
  intros Ht.
  induction fuel as [|fuel IH]; intros s.
  - split; intros; discriminate.
  - split.
    + intros r H. rewrite parseRegexp_S in H.
      destruct s as [|c0 rest]; [discriminate|].
      change (String c0 rest ++ t) with (String c0 (rest ++ t)).
      rewrite parseRegexp_S.
      change (String c0 (rest ++ t)) with (String c0 rest ++ t).
      eapply IH; eassumption.
    + intros regexp r H. rewrite parseLoop_S in H.
      destruct s as [|c0 rest]; [apply Ht|].
      change (String c0 rest ++ t) with (String c0 (rest ++ t)).
      rewrite parseLoop_S.
      destruct (c0 =? "(")%char.
      { destruct (parseRegexp fuel rest true) as [[nr s1]| |] eqn:Hin;
          try discriminate.
        destruct s1 as [|c1 s1']; [discriminate|].
        rewrite (proj1 (parse_stable fuel rest true) _ _ _ Hin t).
        change (String c1 s1' ++ t) with (String c1 (s1' ++ t)).
        cbv beta iota.
        destruct (c1 =? ")")%char; [|discriminate].
        eapply IH; eassumption. }
      destruct (c0 =? ")")%char; [discriminate|].
      destruct (c0 =? "|")%char.
      { destruct (parseRegexp fuel rest false) as [[nr s1]| |] eqn:Hin;
          try discriminate.
        pose proof (parseRegexp_top_rest _ _ _ _ Hin) as ->.
        pose proof (proj1 (IH rest) _ Hin) as Hno.
        destruct (parseRegexp fuel (rest ++ t) false) as [[nr2 s2]| |];
          [contradiction | exact I | exact I]. }
      destruct (parseSimpleCase c0 rest regexp) as [[nr s1]| |] eqn:Hs;
        try discriminate.
      rewrite (parseSimpleCase_extend t _ _ _ _ _ Hs).
      eapply IH; eassumption.
Qed.

(** A pattern that parses on its own parses the same way inside
    parentheses, up to the end of the input. *)
Lemma parse_inside_parens fuel : forall s,
  (forall r, parseRegexp fuel s false = Ok (r, "") ->
             parseRegexp fuel s true = Ok (r, "")) /\
  (forall regexp r, parseLoop fuel s false regexp = Ok (r, "") ->
                    parseLoop fuel s true regexp = Ok (r, "")).
Proof.
  induction fuel as [|fuel IH]; intros s.
  - split; intros; discriminate.
  - split.
    + intros r. rewrite !parseRegexp_S.
      destruct s as [|c0 rest]; [discriminate|]. apply IH.
    + intros regexp r. rewrite !parseLoop_S.
      destruct s as [|c0 rest]; [trivial|].
      destruct (c0 =? "(")%char.
      { destruct (parseRegexp fuel rest true) as [[nr s1]| |];
          try discriminate.
        destruct s1 as [|c1 s1']; [discriminate|].
        destruct (c1 =? ")")%char; [|discriminate]. apply IH. }
      destruct (c0 =? ")")%char; [discriminate|].
      destruct (c0 =? "|")%char.
      { destruct (parseRegexp fuel rest false) as [[nr s1]| |] eqn:Hin;
          try discriminate.
        pose proof (parseRegexp_top_rest _ _ _ _ Hin) as ->.
        rewrite (proj1 (IH rest) _ Hin).
        destruct (isEmpty regexp); [discriminate|]. apply IH. }
      destruct (parseSimpleCase c0 rest regexp) as [[nr s1]| |];
        try discriminate.
      apply IH.
Qed.

(** ** Malformed patterns *)

Lemma notOk_isErr {A} (res : Result A) :
  notOk res -> res <> OutOfFuel -> isErr res.
Proof.
  destruct res; simpl; intros Hno Hne;
    [contradiction | eexists; reflexivity | congruence].
Qed.

Lemma classLoop_noClosingBracket : forall s negated chars,
  noClosingBracket s -> notOk (classLoop s negated chars).
Proof.
  assert (H : forall s,
    (forall negated chars,
        noClosingBracket s -> notOk (classLoop s negated chars)) /\
    (forall c negated chars,
        noClosingBracket (String c s) ->
        notOk (classLoop (String c s) negated chars))).
  { induction s as [|a s [IH1 IH2]].
    - split; [intros; exact I|].
      intros c negated chars [Hc _]. rewrite classLoop_String.
      destruct (Ascii.eqb_spec c "]"); [contradiction|].
      destruct (c =? "\")%char; exact I.
    - split; [apply IH2|].
      intros c negated chars [Hc Hrest]. rewrite classLoop_String.
      destruct (Ascii.eqb_spec c "]"); [contradiction|].
      destruct (c =? "\")%char; [|now apply IH2].
      destruct ((a =? "[") || (a =? "]") || (a =? "^") || (a =? "\"))%char;
        [|exact I].
      apply IH1. apply Hrest. }
  intros s. apply H.
Qed.

Lemma prefixOk_inside_parens q fuel r s' :
  prefixOk q ->
  parseRegexp fuel q true = Ok (r, s') -> s' = "".
Proof.
  intros [-> | [r0 Hq]] H.
  - destruct fuel; discriminate.
  - unfold ParseRegexp in Hq.
    destruct (parseRegexp (2 * length q + 2) q false) as [[r1 s1]| |]
      eqn:Hp; try discriminate.
    pose proof (parseRegexp_top_rest _ _ _ _ Hp) as ->.
    apply parse_inside_parens in Hp.
    assert (Hne : forall (x : Regexp * string),
               @Ok (Regexp * string) x <> OutOfFuel) by discriminate.
    pose proof (parseRegexp_more_fuel _ (Nat.max fuel (2 * length q + 2))
                  _ _ _ Hp (Hne _) (Nat.le_max_r _ _)) as H1.
    pose proof (parseRegexp_more_fuel _ (Nat.max fuel (2 * length q + 2))
                  _ _ _ H (Hne _) (Nat.le_max_l _ _)) as H2.
    congruence.
Qed.

Lemma quantifier_start c u fuel inParen :
  quantifier c -> notOk (parseRegexp fuel (String c u) inParen).
Proof.
  intros Hq.
  destruct fuel as [|[|fuel]]; try exact I.
  rewrite parseRegexp_S, parseLoop_S.
  destruct Hq as [-> | [-> | ->]]; exact I.
Qed.

Lemma malformedEnd_tailFails t : malformedEnd t -> tailFails t.
Proof.
  induction 1 as [ | | q Hq | u | q Hq | c u Hc | c u Hc | t Ht IH ];
    intros [|fuel] regexp; try exact I; rewrite parseLoop_S.
  - destruct fuel; exact I.
  - cbn [Ascii.eqb Bool.eqb andb].
    destruct (parseRegexp fuel q true) as [[nr s1]| |] eqn:Hin;
      try exact I.
    now rewrite (prefixOk_inside_parens _ _ _ _ Hq Hin).
  - cbn [Ascii.eqb Bool.eqb andb]. unfold parseSimpleCase.
    cbn [Ascii.eqb Bool.eqb andb]. unfold parseCharacterClass.
    destruct q as [|c2 q2]; [exact I|].
    destruct (c2 =? "^")%char.
    + pose proof (classLoop_noClosingBracket q2 true [] (proj2 Hq)).
      destruct (classLoop q2 true []) as [[r s1]| |];
        [contradiction | exact I | exact I].
    + pose proof (classLoop_noClosingBracket (String c2 q2) false [] Hq).
      destruct (classLoop (String c2 q2) false []) as [[r s1]| |];
        [contradiction | exact I | exact I].
  - cbn [Ascii.eqb Bool.eqb andb].
    pose proof (quantifier_start c u fuel true Hc).
    destruct (parseRegexp fuel (String c u) true) as [[nr s1]| |];
      [contradiction | exact I | exact I].
  - cbn [Ascii.eqb Bool.eqb andb].
    pose proof (quantifier_start c u fuel false Hc).
    destruct (parseRegexp fuel (String c u) false) as [[nr s1]| |];
      [contradiction | exact I | exact I].
  - cbn [Ascii.eqb Bool.eqb andb].
    assert (Hin : notOk (parseRegexp fuel t false)).
    { destruct fuel as [|fuel]; [exact I|]. rewrite parseRegexp_S.
      destruct t; [exact I | apply IH]. }
    destruct (parseRegexp fuel t false) as [[nr s1]| |];
      [contradiction | exact I | exact I].
Qed.

Lemma ParseRegexp_returns s : ParseRegexp s <> OutOfFuel.
Proof.
  unfold ParseRegexp.
  pose proof (proj1 (parse_fuel (2 * length s + 2) s false) (le_n _)).
  destruct (parseRegexp (2 * length s + 2) s false) as [[r s']| |];
    congruence.
Qed.

Lemma ParseRegexp_notOk s :
  notOk (parseRegexp (2 * length s + 2) s false) -> isErr (ParseRegexp s).
Proof.
  intros Hno. apply notOk_isErr; [|apply ParseRegexp_returns].
  unfold ParseRegexp.
  destruct (parseRegexp (2 * length s + 2) s false) as [[r s']| |];
    [contradiction | exact I | exact I].
Qed.

Lemma ParseRegexp_malformedEnd s t :
  prefixOk s -> malformedEnd t -> isErr (ParseRegexp (s ++ t)).
Proof.
  intros Hs Ht. apply ParseRegexp_notOk.
  pose proof (malformedEnd_tailFails t Ht) as Htail.
  destruct Hs as [-> | [r Hs]].
  - change ("" ++ t) with t.
    replace (2 * length t + 2) with (S (2 * length t + 1)) by lia.
    rewrite parseRegexp_S. destruct t; [exact I | apply Htail].
  - unfold ParseRegexp in Hs.
    destruct (parseRegexp (2 * length s + 2) s false) as [[r1 s1]| |]
      eqn:Hp; try discriminate.
    pose proof (parseRegexp_top_rest _ _ _ _ Hp) as ->.
    eapply (proj1 (parse_then_fail t Htail _ s)).
    eapply parseRegexp_more_fuel; [exact Hp | discriminate|].
    rewrite length_append. lia.
Qed.

(** ** Reading a pattern into items *)

Lemma lexEnd_append st p q : lexEnd st (p ++ q) = lexEnd (lexEnd st p) q.
Proof. revert st. induction p as [|c p IH]; intros st; simpl; auto. Qed.

Lemma tokens_append st p q :
  tokens st (p ++ q) = (tokens st p ++ tokens (lexEnd st p) q)%list.
Proof.
  revert st. induction p as [|c p IH]; intros st; simpl; [reflexivity|].
  now rewrite IH, app_assoc.
Qed.

Lemma parenDepth_app ts1 : forall depth ts2,
  parenDepth depth (ts1 ++ ts2)
  = match parenDepth depth ts1 with
    | Some depth' => parenDepth depth' ts2
    | None => None
    end.
Proof.
  induction ts1 as [|t ts1 IH]; intros depth ts2; [reflexivity|].
  destruct t; simpl; try apply IH.
  destruct depth; [reflexivity | apply IH].
Qed.

Lemma quantifierFirst_app ts1 : forall nothingBefore t ts2,
  t = tokClose \/ t = tokAtom \/ t = tokQuantifier ->
  quantifierFirst nothingBefore (ts1 ++ t :: ts2) = false ->
  quantifierFirst nothingBefore (ts1 ++ [t]) = false /\
  quantifierFirst false ts2 = false.
Proof.
  induction ts1 as [|t1 ts1 IH]; intros b t ts2 Ht.
  - destruct Ht as [-> | [-> | ->]]; simpl; intros H.
    + now split.
    + now split.
    + apply orb_false_iff in H. destruct H as [-> H]. now split.
  - destruct t1; simpl; try apply IH; try assumption.
    intros H. apply orb_false_iff in H. destruct H as [-> H].
    now apply IH.
Qed.

Lemma quantifierFirst_join ts1 : forall nothingBefore t ts2,
  t = tokClose \/ t = tokAtom ->
  quantifierFirst nothingBefore ts1 = false ->
  quantifierFirst false ts2 = false ->
  quantifierFirst nothingBefore (ts1 ++ t :: ts2) = false.
Proof.
  induction ts1 as [|t1 ts1 IH]; intros b t ts2 Ht H1 H2.
  - destruct Ht as [-> | ->]; exact H2.
  - destruct t1; simpl in *; try (apply IH; assumption).
    apply orb_false_iff in H1. destruct H1 as [-> H1]. simpl.
    now apply IH.
Qed.

Lemma last_app_cons (l : list token) x l' d :
  last (l ++ x :: l') d = last (x :: l') d.
Proof.
  induction l as [|a l IH]; [reflexivity|].
  simpl. destruct (l ++ x :: l')%list eqn:E; [|exact IH].
  exfalso. exact (app_cons_not_nil _ _ _ (eq_sym E)).
Qed.

Lemma last_cons_ok (t : token) ts :
  t <> tokUnion -> t <> tokOpen ->
  last ts tokAtom <> tokUnion /\ last ts tokAtom <> tokOpen ->
  last (t :: ts) tokAtom <> tokUnion /\ last (t :: ts) tokAtom <> tokOpen.
Proof.
  intros H1 H2 H. destruct ts as [|t2 ts]; [now split | exact H].
Qed.

Lemma tokens_nonempty : forall p st,
  lexEnd st p = lexPlain -> st <> lexPlain \/ p <> "" ->
  tokens st p <> [].
Proof.
  induction p as [|c p IH]; intros st He Hne.
  - simpl in He. destruct Hne; congruence.
  - simpl in *.
    destruct (emitted st c) as [|t ts] eqn:Em; [|discriminate].
    simpl. apply IH; [exact He|]. left.
    destruct st; simpl in *.
    + destruct (c =? "\")%char; [discriminate|].
      destruct (c =? "[")%char; [discriminate|].
      destruct (c =? "(")%char; [discriminate|].
      destruct (c =? ")")%char; [discriminate|].
      destruct (c =? "|")%char; [discriminate|].
      destruct (isQuantifier c); discriminate.
    + discriminate.
    + destruct (c =? "]")%char; [discriminate|].
      destruct (c =? "\")%char; discriminate.
    + discriminate.
Qed.

(** ** What the parser has read is well read *)

Lemma wellRead_nil inParen nothingBefore : wellRead inParen nothingBefore "".
Proof. repeat split; discriminate. Qed.

Lemma wellRead_item inParen nothingBefore p0 t p2 :
  lexEnd lexPlain p0 = lexPlain ->
  tokens lexPlain p0 = [t] ->
  t = tokAtom \/ t = tokQuantifier /\ nothingBefore = false ->
  wellRead inParen false p2 ->
  wellRead inParen nothingBefore (p0 ++ p2).
Proof.
  intros He Ht Hk (He2 & Hd2 & Hq2 & Hl2).
  unfold wellRead. rewrite lexEnd_append, tokens_append, He, Ht.
  cbn [app]. split; [exact He2|]. split; [|split].
  - intros depth. destruct Hk as [-> | [-> _]]; apply Hd2.
  - destruct Hk as [-> | [-> ->]]; simpl; exact Hq2.
  - intros Hb. apply last_cons_ok; [| |now apply Hl2];
      destruct Hk as [-> | [-> _]]; discriminate.
Qed.

Lemma wellRead_group inParen nothingBefore p1 p2 :
  wellRead true true p1 -> wellRead inParen false p2 ->
  wellRead inParen nothingBefore (String "(" (p1 ++ String ")" p2)).
Proof.
  intros (He1 & Hd1 & Hq1 & _) (He2 & Hd2 & Hq2 & Hl2).
  unfold wellRead. cbn [lexEnd tokens nextState emitted Ascii.eqb Bool.eqb
                        andb app].
  rewrite lexEnd_append, tokens_append, He1.
  cbn [lexEnd tokens nextState emitted Ascii.eqb Bool.eqb andb app].
  split; [exact He2|]. split; [|split].
  - intros depth. cbn [parenDepth]. rewrite parenDepth_app, Hd1.
    cbn [parenDepth]. apply Hd2.
  - cbn [quantifierFirst]. apply quantifierFirst_join; auto.
  - intros Hb.
    rewrite app_comm_cons, last_app_cons.
    apply last_cons_ok; [discriminate | discriminate | now apply Hl2].
Qed.

Lemma wellRead_union inParen nothingBefore p1 :
  wellRead inParen true p1 -> (inParen = false -> p1 <> "") ->
  wellRead inParen nothingBefore (String "|" p1).
Proof.
  intros (He1 & Hd1 & Hq1 & Hl1) Hne.
  unfold wellRead. cbn [lexEnd tokens nextState emitted Ascii.eqb Bool.eqb
                        andb app].
  split; [exact He1|]. split; [|split].
  - intros depth. cbn [parenDepth]. apply Hd1.
  - exact Hq1.
  - intros Hb.
    pose proof (tokens_nonempty p1 lexPlain He1 (or_intror (Hne Hb))) as Hts.
    destruct (tokens lexPlain p1) as [|t ts] eqn:E; [congruence|].
    exact (Hl1 Hb).
Qed.

Lemma classLoop_read : forall s negated chars r s',
  classLoop s negated chars = Ok (r, s') ->
  isEmpty r = false /\
  exists p, s = p ++ s' /\ lexEnd lexClass p = lexPlain /\
            tokens lexClass p = [tokAtom].
Proof.
  assert (H : forall s,
    (forall negated chars r s',
        classLoop s negated chars = Ok (r, s') ->
        isEmpty r = false /\
        exists p, s = p ++ s' /\ lexEnd lexClass p = lexPlain /\
                  tokens lexClass p = [tokAtom]) /\
    (forall c negated chars r s',
        classLoop (String c s) negated chars = Ok (r, s') ->
        isEmpty r = false /\
        exists p, String c s = p ++ s' /\ lexEnd lexClass p = lexPlain /\
                  tokens lexClass p = [tokAtom])).
  { induction s as [|a s [IH1 IH2]].
    - split; [intros; discriminate|].
      intros c negated chars r s'. rewrite classLoop_String.
      destruct (c =? "]")%char eqn:E1.
      + intros [= <- <-]. split; [reflexivity|].
        exists (String c ""). simpl. rewrite E1. auto.
      + destruct (c =? "\")%char; discriminate.
    - split; [apply IH2|].
      intros c negated chars r s'. rewrite classLoop_String.
      destruct (c =? "]")%char eqn:E1.
      + intros [= <- <-]. split; [reflexivity|].
        exists (String c ""). simpl. rewrite E1. auto.
      + destruct (c =? "\")%char eqn:E2.
        * destruct ((a =? "[") || (a =? "]") || (a =? "^")
                    || (a =? "\"))%char; [|discriminate].
          intros H. apply IH1 in H. destruct H as (Hr & p & -> & He & Ht).
          split; [exact Hr|].
          exists (String c (String a p)). simpl. rewrite E1, E2. auto.
        * intros H. apply IH2 in H. destruct H as (Hr & p & Hp & He & Ht).
          split; [exact Hr|].
          exists (String c p). simpl. rewrite E1, E2, Hp. auto. }
  intros s. apply H.
Qed.

Lemma isEmpty_appendAtom regexp next :
  isEmpty next = false -> isEmpty (appendAtom regexp next) = false.
Proof. unfold appendAtom. destruct (isEmpty regexp); auto. Qed.

Lemma parseSimpleCase_read c rest regexp regexp' rest' :
  (c =? "(")%char = false -> (c =? ")")%char = false ->
  (c =? "|")%char = false ->
  parseSimpleCase c rest regexp = Ok (regexp', rest') ->
  isEmpty regexp' = false /\
  exists p t,
    String c rest = p ++ rest' /\
    lexEnd lexPlain p = lexPlain /\
    tokens lexPlain p = [t] /\
    (t = tokAtom \/ t = tokQuantifier /\ isEmpty regexp = false).
Proof.
  intros Ho Hc Hu. unfold parseSimpleCase.
  destruct (c =? "*")%char eqn:E1.
  { apply Ascii.eqb_eq in E1. subst c.
    destruct regexp; try discriminate; intros [= <- <-];
      (split; [reflexivity|]); exists "*", tokQuantifier;
      repeat split; auto. }
  destruct (c =? "+")%char eqn:E2.
  { apply Ascii.eqb_eq in E2. subst c.
    destruct regexp; try discriminate; intros [= <- <-];
      (split; [reflexivity|]); exists "+", tokQuantifier;
      repeat split; auto. }
  destruct (c =? "?")%char eqn:E3.
  { apply Ascii.eqb_eq in E3. subst c.
    destruct regexp; try discriminate; intros [= <- <-];
      (split; [reflexivity|]); exists "?", tokQuantifier;
      repeat split; auto. }
  destruct (c =? "\")%char eqn:E4.
  { apply Ascii.eqb_eq in E4. subst c. simpl.
    destruct rest as [|c2 rest2]; [discriminate|].
    intros [= <- <-]. split; [now apply isEmpty_appendAtom|].
    exists (String "\" (String c2 "")), tokAtom. repeat split; auto. }
  destruct (c =? "[")%char eqn:E5.
  { apply Ascii.eqb_eq in E5. subst c. unfold parseCharacterClass.
    destruct rest as [|c2 rest2]; [discriminate|].
    destruct (c2 =? "^")%char eqn:E6.
    - apply Ascii.eqb_eq in E6. subst c2.
      destruct (classLoop rest2 true []) as [[r s1]| |] eqn:Hcl;
        try discriminate.
      intros [= <- <-]. apply classLoop_read in Hcl.
      destruct Hcl as (Hr & p & -> & He & Ht).
      split; [now apply isEmpty_appendAtom|].
      exists (String "[" (String "^" p)), tokAtom. repeat split; auto.
    - destruct (classLoop (String c2 rest2) false []) as [[r s1]| |] eqn:Hcl;
        try discriminate.
      intros [= <- <-]. apply classLoop_read in Hcl.
      destruct Hcl as (Hr & p & Hp & He & Ht).
      split; [now apply isEmpty_appendAtom|].
      exists (String "[" p), tokAtom. simpl. rewrite Hp. repeat split; auto. }
  assert (Hatom : lexEnd lexPlain (String c "") = lexPlain /\
                  tokens lexPlain (String c "") = [tokAtom]).
  { simpl. unfold isQuantifier. rewrite E1, E2, E3, E4, E5, Ho, Hc, Hu.
    split; reflexivity. }
  destruct Hatom as [He Ht].
  destruct (c =? ".")%char;
    [|destruct (c =? "^")%char; [|destruct (c =? "$")%char]];
    intros [= <- <-]; (split; [now apply isEmpty_appendAtom|]);
    exists (String c ""), tokAtom; repeat split; auto.
Qed.

Lemma parse_wellRead fuel : forall s inParen,
  (forall r s', parseRegexp fuel s inParen = Ok (r, s') ->
     exists p, s = p ++ s' /\ wellRead inParen true p) /\
  (forall regexp r s', parseLoop fuel s inParen regexp = Ok (r, s') ->
     exists p, s = p ++ s' /\ wellRead inParen (isEmpty regexp) p).
Proof.
  induction fuel as [|fuel IH]; intros s inParen.
  - split; intros; discriminate.
  - split.
    + intros r s'. rewrite parseRegexp_S.
      destruct s as [|c rest]; [discriminate|].
      intros H. exact (proj2 (IH (String c rest) inParen) regexpEmpty r s' H).
    + intros regexp r s'. rewrite parseLoop_S.
      destruct s as [|c rest].
      { intros [= _ <-]. exists "". split; [reflexivity|].
        apply wellRead_nil. }
      destruct (c =? "(")%char eqn:Eo.
      { apply Ascii.eqb_eq in Eo. subst c.
        destruct (parseRegexp fuel rest true) as [[nr s1]| |] eqn:Hin;
          try discriminate.
        destruct (proj1 (IH rest true) _ _ Hin) as (p1 & -> & Hw1).
        destruct s1 as [|c1 s1']; [discriminate|].
        destruct (c1 =? ")")%char eqn:Ec1; [|discriminate].
        apply Ascii.eqb_eq in Ec1. subst c1.
        intros H.
        destruct (proj2 (IH s1' inParen) _ _ _ H) as (p2 & -> & Hw2).
        rewrite isEmpty_appendAtom in Hw2 by reflexivity.
        exists (String "(" (p1 ++ String ")" p2)). split.
        - simpl. now rewrite append_assoc.
        - now apply wellRead_group. }
      destruct (c =? ")")%char eqn:Ec.
      { destruct inParen; [|discriminate]. intros [= _ <-].
        exists "". split; [reflexivity | apply wellRead_nil]. }
      destruct (c =? "|")%char eqn:Eu.
      { apply Ascii.eqb_eq in Eu. subst c.
        destruct (parseRegexp fuel rest inParen) as [[nr s1]| |] eqn:Hin;
          try discriminate.
        destruct (isEmpty regexp) eqn:Hre; [discriminate|].
        destruct (proj1 (IH rest inParen) _ _ Hin) as (p1 & Hp1 & Hw1).
        intros H.
        assert (Hs' : s' = s1).
        { destruct (proj1 (parse_rest fuel rest inParen) _ _ Hin)
            as [-> | [-> [u ->]]].
          - destruct fuel; [discriminate|]. now injection H as _ <-.
          - destruct fuel; [discriminate|]. rewrite parseLoop_S in H.
            cbn [Ascii.eqb Bool.eqb andb] in H. now injection H as _ <-. }
        subst s'.
        exists (String "|" p1). split; [simpl; now rewrite Hp1|].
        apply wellRead_union; [exact Hw1|].
        intros ->. intros ->.
        pose proof (parseRegexp_top_rest _ _ _ _ Hin) as ->.
        simpl in Hp1. subst rest.
        destruct fuel; discriminate. }
      destruct (parseSimpleCase c rest regexp) as [[nr s1]| |] eqn:Hs;
        try discriminate.
      destruct (parseSimpleCase_read _ _ _ _ _ Eo Ec Eu Hs)
        as (Hne & p0 & t & Hp0 & He & Ht & Hk).
      intros H.
      destruct (proj2 (IH s1 inParen) _ _ _ H) as (p2 & -> & Hw2).
      rewrite Hne in Hw2.
      exists (p0 ++ p2). split; [now rewrite Hp0, append_assoc|].
      apply (wellRead_item _ _ _ t); auto.
Qed.

Lemma ParseRegexp_wellRead s r :
  ParseRegexp s = Ok r -> s <> "" /\ wellRead false true s.
Proof.
  unfold ParseRegexp.
  destruct (parseRegexp (2 * length s + 2) s false) as [[r' s']| |] eqn:E;
    try discriminate.
  intros _.
  pose proof (parseRegexp_top_rest _ _ _ _ E) as ->.
  destruct (proj1 (parse_wellRead _ s false) _ _ E) as (p & Hp & Hw).
  assert (Hnil : forall q, q ++ "" = q)
    by (induction q as [|c q IH]; simpl; [reflexivity | now rewrite IH]).
  rewrite Hnil in Hp. subst p. split; [|exact Hw].
  intros ->. simpl in E. discriminate.
Qed.

(** C8: [ParseRegexp] always returns, and it returns an error, hence no
    [Regexp] value, for each malformed pattern: a pattern that ends
    unexpectedly (the empty pattern, a pattern whose last byte is a
    backslash that escapes nothing, a pattern whose last item is a union
    bar or an opening paren), a pattern with an unmatched paren, opening
    or closing and at any depth, a pattern that ends inside a character
    class, and a pattern with a quantifier that has no atom before it, at
    the start or right after an opening paren or a union bar. *)
Theorem ParseRegexp_rejects_malformed :
  (forall s, ParseRegexp s <> OutOfFuel) /\
  (forall s, malformed s -> isErr (ParseRegexp s)).
Proof.
  split; [exact ParseRegexp_returns|].
  intros s Hm.
  destruct (ParseRegexp s) as [r| |] eqn:E.
  - exfalso.
    destruct (ParseRegexp_wellRead s r E) as (Hs & He & Hd & Hq & Hl).
    destruct (Hl eq_refl) as [Hu Ho].
    destruct Hm as [[Hm | [Hm | [_ [Hm | Hm]]]] | [Hm | [[Hm | Hm] | Hm]]];
      first [ congruence
            | exact (Hm (Hd 0%nat))
            | unfold quantifierWithoutAtom in Hm; congruence ].
  - eexists. reflexivity.
  - exfalso. exact (ParseRegexp_returns s E).
Qed.

Lemma ParseRegexp_rejects_malformed_witness :
  isErr (ParseRegexp "") /\
  isErr (ParseRegexp "a(b|c)*d|") /\
  isErr (ParseRegexp "(a\") /\
  isErr (ParseRegexp "((a") /\
  isErr (ParseRegexp "(a|") /\
  isErr (ParseRegexp "a(b|c)*d)z") /\
  isErr (ParseRegexp "[a\]") /\
  isErr (ParseRegexp "(a[b") /\
  isErr (ParseRegexp "?a") /\
  isErr (ParseRegexp "(a|*").
Proof.
  destruct ParseRegexp_rejects_malformed as [_ H].
  repeat split; apply H.
  - left. left. reflexivity.
  - left. right. right. split; [reflexivity | left; reflexivity].
  - left. right. left. reflexivity.
  - right. left. vm_compute. discriminate.
  - right. left. vm_compute. discriminate.
  - right. left. vm_compute. discriminate.
  - right. right. left. left. reflexivity.
  - right. right. left. left. reflexivity.
  - right. right. right. reflexivity.
  - right. right. right. reflexivity.
Defined.

(** The malformed patterns named in the claim, evaluated. *)
Example ParseRegexp_malformed_examples :
  ParseRegexp "" = Err "Unexpected end of regular expression" /\
  ParseRegexp "a|" = Err "Unexpected end of regular expression" /\
  ParseRegexp "a\" = Err "Invalid escape sequence" /\
  ParseRegexp "(a" = Err "Expected closing paren" /\
  ParseRegexp "a)" = Err "Unexpected closing paren" /\
  ParseRegexp "[ab" = Err "Expected closing bracket" /\
  ParseRegexp "*" = Err "Expected characters before star" /\
  ParseRegexp "+" = Err "Expected characters before plus" /\
  ParseRegexp "?" = Err "Expected characters before question mark".
Proof. repeat split. Qed.

End RegexpFacts.

(* ===================================================================== *)
(** * Properties of the VM-backed input modes *)
(* ===================================================================== *)

Section InputModeFacts.

Import InputModes.

Variables EventKey Event Config CommandParams Action Runtime : Type.
Variable EmptyAction : Action.
Variable eventKeyToVmEvent : EventKey -> Event.
Variable keyRune : EventKey -> option Z.
Variable capturesToCommandParams : list Capture -> list Event -> CommandParams.
Variable runtimeProcessEvent : Runtime -> Event -> Result * Runtime.

Local Abbreviation Command := (Command Config CommandParams Action).
Local Abbreviation vmMode :=
  (vmMode Event Config CommandParams Action Runtime).
Local Abbreviation ProcessKeyEvent :=
  (ProcessKeyEvent EmptyAction eventKeyToVmEvent keyRune
                   capturesToCommandParams runtimeProcessEvent).
Local Abbreviation captureLoop :=
  (captureLoop EmptyAction capturesToCommandParams).

Lemma firstCommandCapture_split (cmds : list Command) captures capture :
  firstCommandCapture cmds captures = Some capture ->
  Id capture < length cmds /\
  exists skipped rest,
    captures = skipped ++ capture :: rest /\
    Forall (fun c => length cmds <= Id c) skipped.
Proof.
  induction captures as [|c captures IH]; simpl; [discriminate|].
  destruct (Nat.ltb_spec (Id c) (length cmds)) as [Hlt|Hge].
  - intros [= ->]. split; [assumption|].
    exists [], captures. split; [reflexivity | constructor].
  - intros H. destruct (IH H) as (Hlt & skipped & rest & -> & Hsk).
    split; [assumption|].
    exists (c :: skipped), rest. split; [reflexivity|].
    constructor; assumption.
Qed.







End InputModeFacts.

Section InputModeExamples.

Import Strings.String List ListNotations.
Local Open Scope string_scope.
Local Open Scope list_scope.


End InputModeExamples.

(* ===================================================================== *)
(** * Properties of the token tree as nodes in a store *)
(* ===================================================================== *)

Section TokenHeapFacts.

Import TokenTrees TokenHeap.
Local Open Scope N_scope.

Lemma extends_refl h : extends h h.
Proof. exists []. now rewrite app_nil_r. Qed.

Lemma extends_trans h1 h2 h3 :
  extends h1 h2 -> extends h2 h3 -> extends h1 h3.
Proof.
  intros [a1 ->] [a2 ->]. exists (a1 ++ a2). now rewrite app_assoc.
Qed.

Lemma extends_length h h' : extends h h' -> (length h <= length h')%nat.
Proof. intros [added ->]. rewrite length_app. lia. Qed.

Lemma extends_nth_error h h' a n :
  extends h h' -> nth_error h a = Some n -> nth_error h' a = Some n.
Proof.
  intros [added ->] Hn. rewrite nth_error_app1; [assumption|].
  apply nth_error_Some. congruence.
Qed.

Lemma extends_deref h h' p n :
  extends h h' -> deref h p = Some n -> deref h' p = Some n.
Proof. destruct p; simpl; [apply extends_nth_error | discriminate]. Qed.

Lemma alloc_extends h (n : node) : extends h (h ++ [n]).
Proof. now exists [n]. Qed.

Lemma alloc_fresh (h : heap) : freshIn h (Some (length h)).
Proof. simpl. lia. Qed.

Lemma alloc_nth_error h (n : node) : nth_error (h ++ [n]) (length h) = Some n.
Proof. rewrite nth_error_app2 by lia. now rewrite Nat.sub_diag. Qed.

Lemma withLeftChild_spec h t child h' p :
  TokenHeap.withLeftChild h t child = Done (h', p) ->
  extends h h' /\ freshIn h p.
Proof.
  unfold TokenHeap.withLeftChild, alloc.
  destruct (deref h t); [|discriminate].
  destruct (deref h child); [|discriminate].
  intros [= <- <-]. split; [apply alloc_extends | apply alloc_fresh].
Qed.

Lemma withRightChild_spec h t child h' p :
  TokenHeap.withRightChild h t child = Done (h', p) ->
  extends h h' /\ freshIn h p.
Proof.
  unfold TokenHeap.withRightChild, alloc.
  destruct (deref h t); [|discriminate].
  destruct (deref h child); [|discriminate].
  intros [= <- <-]. split; [apply alloc_extends | apply alloc_fresh].
Qed.

Lemma freshIn_extends h h1 p : extends h h1 -> freshIn h1 p -> freshIn h p.
Proof.
  intros He. apply extends_length in He.
  destruct p; simpl; [lia | trivial].
Qed.

(** [Insert] only adds nodes, and its result is one of them. *)
Lemma Insert_extends fuel : forall h t tok h' p,
  TokenHeap.Insert fuel h t tok = Done (h', p) ->
  extends h h' /\ freshIn h p.
Proof.
  induction fuel as [|fuel IH]; intros h t tok h' p; simpl;
    [discriminate|].
  destruct (validateNewToken tok); [|discriminate].
  destruct t as [a|].
  - destruct (nth_error h a) as [tn|]; [|discriminate].
    destruct (EndPos tok <=? StartPos (token tn)).
    + destruct (TokenHeap.Insert fuel h (leftChild tn) tok)
        as [[h1 child]| |] eqn:Hin; try discriminate.
      apply IH in Hin. destruct Hin as [He _].
      intros H. apply withLeftChild_spec in H. destruct H as [He2 Hf].
      split; [eapply extends_trans; eassumption|].
      eapply freshIn_extends; eassumption.
    + destruct (EndPos (token tn) <=? StartPos tok); [|discriminate].
      destruct (TokenHeap.Insert fuel h (rightChild tn) tok)
        as [[h1 child]| |] eqn:Hin; try discriminate.
      apply IH in Hin. destruct Hin as [He _].
      intros H. apply withRightChild_spec in H. destruct H as [He2 Hf].
      split; [eapply extends_trans; eassumption|].
      eapply freshIn_extends; eassumption.
  - unfold alloc. intros [= <- <-].
    split; [apply alloc_extends | apply alloc_fresh].
Qed.

(** [Join] only adds nodes; its result is one of them when both trees
    are non-nil, and otherwise it is the other tree, with nothing added. *)
Lemma Join_extends fuel : forall h t other h' p,
  TokenHeap.Join fuel h t other = Done (h', p) ->
  extends h h' /\
  match t, other with
  | Some _, Some _ => freshIn h p
  | None, _ => h' = h /\ p = other
  | _, None => h' = h /\ p = t
  end.
Proof.
  induction fuel as [|fuel IH]; intros h t other h' p; simpl;
    [discriminate|].
  destruct t as [a|], other as [b|];
    try (intros [= <- <-]; split; [apply extends_refl | now split]).
  destruct (nth_error h a) as [tn|]; [|discriminate].
  destruct (nth_error h b) as [on|]; [|discriminate].
  destruct (maxEndPos on <=? minStartPos tn).
  - destruct (TokenHeap.Join fuel h (leftChild tn) (Some b))
      as [[h1 l']| |] eqn:Hin; try discriminate.
    apply IH in Hin. destruct Hin as [He _].
    unfold alloc. intros [= <- <-].
    split; [eapply extends_trans; [eassumption | apply alloc_extends]|].
    eapply freshIn_extends; [eassumption | apply alloc_fresh].
  - destruct (maxEndPos tn <=? minStartPos on); [|discriminate].
    destruct (TokenHeap.Join fuel h (rightChild tn) (Some b))
      as [[h1 r']| |] eqn:Hin; try discriminate.
    apply IH in Hin. destruct Hin as [He _].
    unfold alloc. intros [= <- <-].
    split; [eapply extends_trans; [eassumption | apply alloc_extends]|].
    eapply freshIn_extends; [eassumption | apply alloc_fresh].
Qed.

Lemma repr_extends h h' p t : extends h h' -> repr h p t -> repr h' p t.
Proof.
  intros He Hr. induction Hr as [|a n l r Hn _ IHl _ IHr].
  - constructor.
  - constructor; try assumption. eapply extends_nth_error; eassumption.
Qed.

Lemma repr_functional h p t1 : repr h p t1 -> forall t2, repr h p t2 -> t1 = t2.
Proof.
  induction 1 as [|a n l r Hn _ IHl _ IHr]; intros t2 H2.
  - now inversion H2.
  - inversion H2 as [|a' n' l' r' Hn' Hl' Hr']; subst.
    rewrite Hn in Hn'. injection Hn' as <-.
    f_equal; auto.
Qed.

(** ** The store-level functions compute what the tree-level ones do *)

Lemma repr_Nil_inv h p : repr h p Nil -> p = None.
Proof. now inversion 1. Qed.

Lemma repr_Node_inv h p tk mn mx l r :
  repr h p (Node tk mn mx l r) ->
  exists a n,
    p = Some a /\ nth_error h a = Some n /\
    token n = tk /\ minStartPos n = mn /\ maxEndPos n = mx /\
    repr h (leftChild n) l /\ repr h (rightChild n) r.
Proof.
  inversion 1 as [|a n l' r' Hn Hl Hr]; subst.
  exists a, n. repeat split; assumption.
Qed.

Lemma repr_alloc h (n : node) l r :
  repr h (leftChild n) l -> repr h (rightChild n) r ->
  repr (h ++ [n]) (Some (length h))
       (Node (token n) (minStartPos n) (maxEndPos n) l r).
Proof.
  intros Hl Hr. constructor.
  - apply alloc_nth_error.
  - eapply repr_extends; [apply alloc_extends | assumption].
  - eapply repr_extends; [apply alloc_extends | assumption].
Qed.

Lemma Insert_refines tr : forall h t tok fuel,
  repr h t tr ->
  (depth tr < fuel)%nat ->
  match TokenTrees.Insert tr tok with
  | Some tr' =>
      exists h' p,
        TokenHeap.Insert fuel h t tok = Done (h', p) /\ repr h' p tr'
  | None => TokenHeap.Insert fuel h t tok = Panic
  end.
Proof.
  induction tr as [|tk mn mx l IHl r IHr]; intros h t tok fuel Hr Hd.
  - apply repr_Nil_inv in Hr. subst t.
    destruct fuel as [|fuel]; [simpl in Hd; lia|].
    rewrite Insert_Nil_eq. cbn [TokenHeap.Insert].
    destruct (validateNewToken tok); [|reflexivity].
    eexists _, _. split; [reflexivity|].
    apply (repr_alloc h (mkNode tok (StartPos tok) (EndPos tok) None None));
      constructor.
  - apply repr_Node_inv in Hr.
    destruct Hr as (a & n & -> & Hn & <- & <- & <- & Hl & Hrr).
    destruct fuel as [|fuel]; [simpl in Hd; lia|].
    cbn [depth] in Hd.
    rewrite Insert_Node_eq. cbn [TokenHeap.Insert].
    destruct (validateNewToken tok); [|reflexivity].
    rewrite Hn.
    destruct (EndPos tok <=? StartPos (token n)).
    + specialize (IHl h (leftChild n) tok fuel Hl ltac:(lia)).
      destruct (TokenTrees.Insert l tok) as [l'|].
      * destruct IHl as (h1 & child & Hins & Hchild). rewrite Hins.
        pose proof (proj1 (Insert_extends _ _ _ _ _ _ Hins)) as He.
        unfold TokenHeap.withLeftChild.
        cbn [deref]. rewrite (extends_nth_error _ _ _ _ He Hn).
        destruct l' as [|ctk cmn cmx cl cr].
        -- apply repr_Nil_inv in Hchild. subst child. reflexivity.
        -- pose proof Hchild as Hc. apply repr_Node_inv in Hc.
           destruct Hc as (c & cn & -> & Hcn & _ & Hcmn & _ & _ & _).
           cbn [deref]. rewrite Hcn. cbn [TokenTrees.withLeftChild].
           eexists _, _. split; [reflexivity|].
           rewrite <- Hcmn.
           apply (repr_alloc h1
                    (mkNode (token n)
                       (if minStartPos cn <? minStartPos n
                        then minStartPos cn else minStartPos n)
                       (maxEndPos n) (Some c) (rightChild n))).
           ++ cbn [leftChild]. now rewrite Hcmn.
           ++ cbn [rightChild]. eapply repr_extends; eassumption.
      * now rewrite IHl.
    + destruct (EndPos (token n) <=? StartPos tok); [|reflexivity].
      specialize (IHr h (rightChild n) tok fuel Hrr ltac:(lia)).
      destruct (TokenTrees.Insert r tok) as [r'|].
      * destruct IHr as (h1 & child & Hins & Hchild). rewrite Hins.
        pose proof (proj1 (Insert_extends _ _ _ _ _ _ Hins)) as He.
        unfold TokenHeap.withRightChild.
        cbn [deref]. rewrite (extends_nth_error _ _ _ _ He Hn).
        destruct r' as [|ctk cmn cmx cl cr].
        -- apply repr_Nil_inv in Hchild. subst child. reflexivity.
        -- pose proof Hchild as Hc. apply repr_Node_inv in Hc.
           destruct Hc as (c & cn & -> & Hcn & _ & _ & Hcmx & _ & _).
           cbn [deref]. rewrite Hcn. cbn [TokenTrees.withRightChild].
           eexists _, _. split; [reflexivity|].
           rewrite <- Hcmx.
           apply (repr_alloc h1
                    (mkNode (token n) (minStartPos n)
                       (if maxEndPos n <? maxEndPos cn
                        then maxEndPos cn else maxEndPos n)
                       (leftChild n) (Some c))).
           ++ cbn [leftChild]. eapply repr_extends; eassumption.
           ++ cbn [rightChild]. now rewrite Hcmx.
      * now rewrite IHr.
Qed.

Lemma Join_refines tr : forall h t other otr fuel,
  repr h t tr ->
  repr h other otr ->
  (depth tr < fuel)%nat ->
  match TokenTrees.Join tr otr with
  | Some j =>
      exists h' p,
        TokenHeap.Join fuel h t other = Done (h', p) /\ repr h' p j
  | None => TokenHeap.Join fuel h t other = Panic
  end.
Proof.
  induction tr as [|tk mn mx l IHl r IHr];
    intros h t other otr fuel Hr Ho Hd;
    (destruct fuel as [|fuel]; [simpl in Hd; lia|]).
  - apply repr_Nil_inv in Hr. subst t.
    destruct otr as [|otk omn omx ol or].
    + apply repr_Nil_inv in Ho. subst other.
      simpl. eexists _, _. split; [reflexivity | constructor].
    + pose proof Ho as Ho'. apply repr_Node_inv in Ho'.
      destruct Ho' as (b & on & -> & _).
      simpl. eexists _, _. split; [reflexivity | assumption].
  - pose proof Hr as Hr'. apply repr_Node_inv in Hr'.
    destruct Hr' as (a & n & -> & Hn & <- & <- & <- & Hl & Hrr).
    cbn [depth] in Hd.
    destruct otr as [|otk omn omx ol or].
    + apply repr_Nil_inv in Ho. subst other.
      simpl. eexists _, _. split; [reflexivity | assumption].
    + pose proof Ho as Ho'. apply repr_Node_inv in Ho'.
      destruct Ho' as (b & on & -> & Hon & <- & <- & <- & _ & _).
      cbn [TokenTrees.Join TokenHeap.Join]. rewrite Hn, Hon.
      destruct (maxEndPos on <=? minStartPos n).
      * specialize (IHl h (leftChild n) (Some b) _ fuel Hl Ho ltac:(lia)).
        destruct (TokenTrees.Join l _) as [l'|].
        -- destruct IHl as (h1 & lp & Hj & Hlp). rewrite Hj.
           pose proof (proj1 (Join_extends _ _ _ _ _ _ Hj)) as He.
           eexists _, _. split; [reflexivity|]. unfold alloc.
           apply (repr_alloc h1
                    (mkNode (token n) (minStartPos on) (maxEndPos n)
                            lp (rightChild n))).
           ++ assumption.
           ++ cbn [rightChild]. eapply repr_extends; eassumption.
        -- now rewrite IHl.
      * destruct (maxEndPos n <=? minStartPos on); [|reflexivity].
        specialize (IHr h (rightChild n) (Some b) _ fuel Hrr Ho ltac:(lia)).
        destruct (TokenTrees.Join r _) as [r'|].
        -- destruct IHr as (h1 & rp & Hj & Hrp). rewrite Hj.
           pose proof (proj1 (Join_extends _ _ _ _ _ _ Hj)) as He.
           eexists _, _. split; [reflexivity|]. unfold alloc.
           apply (repr_alloc h1
                    (mkNode (token n) (minStartPos n) (maxEndPos on)
                            (leftChild n) rp)).
           ++ cbn [leftChild]. eapply repr_extends; eassumption.
           ++ assumption.
        -- now rewrite IHr.
Qed.

(** ** The claim about immutability *)

(** C9, as the code has it: [Insert] and [Join] never change a node that
    exists.  Whenever a call returns, every address of the store holds
    the node it held before, so every tree reference obtained earlier
    points to the same tree and has the same in-order traversal.  The
    tree returned by [Insert], and by [Join] when both trees are non-nil,
    has a newly allocated root; [Join] with a nil tree returns the other
    tree itself and allocates nothing.  The calls do return: run on
    pointers to trees, they compute what the functions on trees
    compute. *)
Theorem Insert_Join_leave_existing_nodes_unchanged :
  (forall fuel h t tok h' p,
      TokenHeap.Insert fuel h t tok = Done (h', p) ->
      (forall a n, nth_error h a = Some n -> nth_error h' a = Some n) /\
      (forall q tr,
          repr h q tr ->
          repr h' q tr /\
          forall tr',
            repr h' q tr' ->
            Collect (IterFromPosition tr' 0)
            = Collect (IterFromPosition tr 0)) /\
      freshIn h p) /\
  (forall fuel h t other h' p,
      TokenHeap.Join fuel h t other = Done (h', p) ->
      (forall a n, nth_error h a = Some n -> nth_error h' a = Some n) /\
      (forall q tr,
          repr h q tr ->
          repr h' q tr /\
          forall tr',
            repr h' q tr' ->
            Collect (IterFromPosition tr' 0)
            = Collect (IterFromPosition tr 0)) /\
      match t, other with
      | Some _, Some _ => freshIn h p
      | None, _ => h' = h /\ p = other
      | _, None => h' = h /\ p = t
      end) /\
  (forall h t tr tok,
      repr h t tr ->
      match TokenTrees.Insert tr tok with
      | Some tr' =>
          exists h' p,
            TokenHeap.Insert (S (depth tr)) h t tok = Done (h', p) /\
            repr h' p tr'
      | None => TokenHeap.Insert (S (depth tr)) h t tok = Panic
      end) /\
  (forall h t other tr otr,
      repr h t tr ->
      repr h other otr ->
      match TokenTrees.Join tr otr with
      | Some j =>
          exists h' p,
            TokenHeap.Join (S (depth tr)) h t other = Done (h', p) /\
            repr h' p j
      | None => TokenHeap.Join (S (depth tr)) h t other = Panic
      end).
Proof.
  assert (Hframe : forall h h',
    extends h h' ->
    (forall a n, nth_error h a = Some n -> nth_error h' a = Some n) /\
    (forall q tr,
        repr h q tr ->
        repr h' q tr /\
        forall tr',
          repr h' q tr' ->
          Collect (IterFromPosition tr' 0)
          = Collect (IterFromPosition tr 0))).
  { intros h h' He. split.
    - intros a n. now apply extends_nth_error.
    - intros q tr Hq.
      pose proof (repr_extends _ _ _ _ He Hq) as Hq'.
      split; [assumption|].
      intros tr' Hq''.
      now rewrite (repr_functional _ _ _ Hq' _ Hq''). }
  split; [|split; [|split]].
  - intros fuel h t tok h' p H.
    apply Insert_extends in H. destruct H as [He Hf].
    destruct (Hframe h h' He) as [H1 H2]. auto.
  - intros fuel h t other h' p H.
    apply Join_extends in H. destruct H as [He Hf].
    destruct (Hframe h h' He) as [H1 H2]. auto.
  - intros h t tr tok Hr. apply Insert_refines; [assumption | lia].
  - intros h t other tr otr Hr Ho. apply Join_refines; auto.
Qed.

Lemma Insert_Join_leave_existing_nodes_unchanged_witness :
  nth_error
    [mkNode (mkToken 0 0 3 3) 0 3 None None;
     mkNode (mkToken 0 5 8 8) 5 8 None None;
     mkNode (mkToken 0 0 3 3) 0 8 None (Some 1%nat)] 0
  = Some (mkNode (mkToken 0 0 3 3) 0 3 None None) /\
  freshIn [mkNode (mkToken 0 0 3 3) 0 3 None None] (Some 2%nat).
Proof.
  destruct (proj1 Insert_Join_leave_existing_nodes_unchanged
              2%nat [mkNode (mkToken 0 0 3 3) 0 3 None None]
              (Some 0%nat) (mkToken 0 5 8 8)
              [mkNode (mkToken 0 0 3 3) 0 3 None None;
               mkNode (mkToken 0 5 8 8) 5 8 None None;
               mkNode (mkToken 0 0 3 3) 0 8 None (Some 1%nat)]
              (Some 2%nat) eq_refl) as (Hcells & _ & Hfresh).
  split; [|exact Hfresh].
  apply Hcells. reflexivity.
Defined.

(** C9, as stated, fails for [Join] with a nil tree: the tree returned
    is the other tree itself, at the address it already had, and no node
    is allocated. *)
Lemma Join_with_nil_returns_the_other_tree :
  TokenHeap.Join 1 [mkNode (mkToken 0 0 3 3) 0 3 None None]
                 (Some 0%nat) None
  = Done ([mkNode (mkToken 0 0 3 3) 0 3 None None], Some 0%nat) /\
  ~ freshIn [mkNode (mkToken 0 0 3 3) 0 3 None None] (Some 0%nat).
Proof. split; [reflexivity | simpl; lia]. Qed.

End TokenHeapFacts.

(* ===================================================================== *)
(** * More properties of the token tree *)
(* ===================================================================== *)

Section TokenTreeJoinFacts.

Import TokenTrees.
Local Open Scope N_scope.

(** ** Exact aggregates, and when [Join] panics *)

Lemma Exists_perm {A} (P : A -> Prop) l l' :
  Permutation l l' -> Exists P l -> Exists P l'.
Proof.
  intros Hp H. apply Exists_exists in H. destruct H as (x & Hx & HP).
  apply Exists_exists. exists x. split; [|assumption].
  eapply Permutation_in; eassumption.
Qed.

Lemma attained_Node tk mn mx l r :
  attained l -> attained r ->
  Exists (fun x => StartPos x = mn) (inorder l ++ tk :: inorder r) ->
  Exists (fun x => EndPos x = mx) (inorder l ++ tk :: inorder r) ->
  attained (Node tk mn mx l r).
Proof. simpl. tauto. Qed.

Lemma Exists_left_grows {A} (P : A -> Prop) l l' extra rest :
  Permutation l' (extra ++ l) ->
  Exists P (l ++ rest) -> Exists P (l' ++ rest).
Proof.
  intros Hp H. apply Exists_app in H. apply Exists_app.
  destruct H as [H|H]; [left | now right].
  eapply Exists_perm; [symmetry; exact Hp|].
  apply Exists_app. now right.
Qed.

Lemma Exists_right_grows {A} (P : A -> Prop) l r r' extra (x : A) :
  Permutation r' (extra ++ r) ->
  Exists P (l ++ x :: r) -> Exists P (l ++ x :: r').
Proof.
  intros Hp H. apply Exists_app in H. apply Exists_app.
  destruct H as [H|H]; [now left | right].
  inversion H as [? ? Hx|? ? Hr]; subst; [now left | right].
  eapply Exists_perm; [symmetry; exact Hp|].
  apply Exists_app. now right.
Qed.

Lemma Insert_attained t : forall tok t',
  ordered t -> attained t -> Insert t tok = Some t' -> attained t'.
Proof.
  induction t as [|tk mn mx l IHl r IHr]; intros tok t' Hord Hat;
    [rewrite Insert_Nil_eq | rewrite Insert_Node_eq].
  - destruct (validateNewToken tok); try discriminate.
    intros [= <-]. apply attained_Node; try exact I; now left.
  - destruct Hord as (Htk & Hl & Hr & Hbl & Hbr).
    destruct Hat as (Hal & Har & Hmn & Hmx).
    destruct (validateNewToken tok); try discriminate.
    destruct (EndPos tok <=? StartPos tk).
    + destruct (Insert l tok) as [child|] eqn:Hins; try discriminate.
      pose proof (IHl _ _ Hl Hal Hins) as Hac.
      destruct (Insert_Some l tok child Hl Hins) as (_ & _ & Hperm & _).
      destruct child as [|ctk cmn cmx cl cr]; simpl; try discriminate.
      remember (Node ctk cmn cmx cl cr) as child eqn:Hchild.
      intros [= <-]. apply attained_Node; try assumption.
      * destruct (cmn <? mn).
        -- apply Exists_app. left. subst child.
           destruct Hac as (_ & _ & H & _). exact H.
        -- eapply (Exists_left_grows _ _ _ [tok]); [exact Hperm|].
           exact Hmn.
      * eapply (Exists_left_grows _ _ _ [tok]); [exact Hperm | exact Hmx].
    + destruct (EndPos tk <=? StartPos tok); try discriminate.
      destruct (Insert r tok) as [child|] eqn:Hins; try discriminate.
      pose proof (IHr _ _ Hr Har Hins) as Hac.
      destruct (Insert_Some r tok child Hr Hins) as (_ & _ & Hperm & _).
      destruct child as [|ctk cmn cmx cl cr]; simpl; try discriminate.
      remember (Node ctk cmn cmx cl cr) as child eqn:Hchild.
      intros [= <-]. apply attained_Node; try assumption.
      * eapply (Exists_right_grows _ _ _ _ [tok]); [exact Hperm | exact Hmn].
      * destruct (mx <? cmx).
        -- apply Exists_app. right. right. subst child.
           destruct Hac as (_ & _ & _ & H). exact H.
        -- eapply (Exists_right_grows _ _ _ _ [tok]); [exact Hperm|].
           exact Hmx.
Qed.

Lemma Join_attained t : forall other t',
  ordered t -> spanned t -> attained t ->
  ordered other -> spanned other -> attained other ->
  Join t other = Some t' -> attained t'.
Proof.
  induction t as [|tk mn mx l IHl r IHr];
    intros other t' Hord Hsp Hat Hoo Hso Hao.
  - destruct other; intros [= <-]; assumption.
  - destruct other as [|otk omn omx ol or]; [now intros [= <-]|].
    rewrite Join_Node_eq.
    remember (Node otk omn omx ol or) as other eqn:Hother.
    assert (Homn : Exists (fun x => StartPos x = omn) (inorder other)).
    { subst other. destruct Hao as (_ & _ & H & _). exact H. }
    assert (Homx : Exists (fun x => EndPos x = omx) (inorder other)).
    { subst other. destruct Hao as (_ & _ & _ & H). exact H. }
    destruct Hord as (Htk & Hl & Hr & Hbl & Hbr).
    destruct Hsp as (Hsl & Hsr & Hall).
    destruct Hat as (Hal & Har & Hmn & Hmx).
    destruct (omx <=? mn).
    + destruct (Join l other) as [l'|] eqn:Hj; try discriminate.
      pose proof (IHl other l' Hl Hsl Hal Hoo Hso Hao Hj) as Hal'.
      destruct (Join_Some l other l' Hl Hsl Hoo Hso Hj) as (_ & _ & Hperm).
      intros [= <-]. apply attained_Node; try assumption.
      * apply Exists_app. left.
        eapply Exists_perm; [symmetry; exact Hperm|].
        apply Exists_app. now right.
      * eapply (Exists_left_grows _ _ _ (inorder other)); [|exact Hmx].
        rewrite Hperm. apply Permutation_app_comm.
    + destruct (mx <=? omn); try discriminate.
      destruct (Join r other) as [r'|] eqn:Hj; try discriminate.
      pose proof (IHr other r' Hr Hsr Har Hoo Hso Hao Hj) as Har'.
      destruct (Join_Some r other r' Hr Hsr Hoo Hso Hj) as (_ & _ & Hperm).
      intros [= <-]. apply attained_Node; try assumption.
      * eapply (Exists_right_grows _ _ _ _ (inorder other)); [|exact Hmn].
        rewrite Hperm. apply Permutation_app_comm.
      * apply Exists_app. right. right.
        eapply Exists_perm; [symmetry; exact Hperm|].
        apply Exists_app. now right.
Qed.

Lemma constructible_attained t : constructible t -> attained t.
Proof.
  induction 1 as [|t tok t' Hc IH Hins|t other t' Hc IH Hco IHo Hj].
  - exact I.
  - destruct (constructible_ordered t Hc) as [Ho _].
    exact (Insert_attained t tok t' Ho IH Hins).
  - destruct (constructible_ordered t Hc) as [Ho Hs].
    destruct (constructible_ordered other Hco) as [Hoo Hso].
    exact (Join_attained t other t' Ho Hs IH Hoo Hso IHo Hj).
Qed.

(** Within a tree with exact aggregates, the span of a subtree lies
    inside the span of the tree. *)
Lemma child_span_inside tk mn mx l r :
  spanned (Node tk mn mx l r) -> attained (Node tk mn mx l r) ->
  (forall cmn cmx, span l = Some (cmn, cmx) -> mn <= cmn /\ cmx <= mx) /\
  (forall cmn cmx, span r = Some (cmn, cmx) -> mn <= cmn /\ cmx <= mx).
Proof.
  intros (_ & _ & Hall) (Hal & Har & _ & _).
  apply Forall_app in Hall. destruct Hall as [Hl Hr].
  inversion Hr as [|? ? _ Hr']; subst.
  rewrite Forall_forall in Hl, Hr'.
  split; intros cmn cmx Hspan.
  - destruct l as [|ctk c1 c2 cl cr]; [discriminate|].
    injection Hspan as -> ->.
    destruct Hal as (_ & _ & H1 & H2).
    apply Exists_exists in H1. destruct H1 as (x & Hx & <-).
    apply Exists_exists in H2. destruct H2 as (y & Hy & <-).
    specialize (Hl x Hx) as Hx'. specialize (Hl y Hy) as Hy'. lia.
  - destruct r as [|ctk c1 c2 cl cr]; [discriminate|].
    injection Hspan as -> ->.
    destruct Har as (_ & _ & H1 & H2).
    apply Exists_exists in H1. destruct H1 as (x & Hx & <-).
    apply Exists_exists in H2. destruct H2 as (y & Hy & <-).
    specialize (Hr' x Hx) as Hx'. specialize (Hr' y Hy) as Hy'. lia.
Qed.

Lemma Join_defined t : forall other,
  spanned t -> attained t ->
  ~ spansOverlap (span t) (span other) ->
  exists t', Join t other = Some t'.
Proof.
  induction t as [|tk mn mx l IHl r IHr]; intros other Hsp Hat Hno.
  - destruct other; simpl; eauto.
  - destruct other as [|otk omn omx ol or]; [simpl; eauto|].
    rewrite Join_Node_eq.
    destruct (child_span_inside _ _ _ _ _ Hsp Hat) as [Hcl Hcr].
    destruct Hsp as (Hsl & Hsr & _). destruct Hat as (Hal & Har & _).
    simpl in Hno.
    destruct (N.leb_spec omx mn) as [Hle|Hgt].
    + destruct (IHl (Node otk omn omx ol or) Hsl Hal) as [l' Hl'].
      * destruct l as [|ctk cmn cmx cl cr]; simpl; [tauto|].
        destruct (Hcl cmn cmx eq_refl). lia.
      * rewrite Hl'. eauto.
    + destruct (N.leb_spec mx omn) as [Hle2|Hgt2]; [|lia].
      destruct (IHr (Node otk omn omx ol or) Hsr Har) as [r' Hr'].
      * destruct r as [|ctk cmn cmx cl cr]; simpl; [tauto|].
        destruct (Hcr cmn cmx eq_refl). lia.
      * rewrite Hr'. eauto.
Qed.

(** X1: [Join] of two trees that can be built panics exactly when both
    are non-nil and their spans overlap; otherwise it returns a tree
    that satisfies the ordering invariant and holds the tokens of both,
    so that its traversal is sorted. *)
Theorem Join_panics_iff_spans_overlap :
  forall t other,
    constructible t ->
    constructible other ->
    (Join t other = None <-> spansOverlap (span t) (span other)) /\
    (forall t',
        Join t other = Some t' ->
        ordered t' /\
        Permutation (inorder t') (inorder t ++ inorder other) /\
        StronglySorted before (inorder t')).
Proof.
  intros t other Hc Hco.
  destruct (constructible_ordered t Hc) as [Ho Hs].
  destruct (constructible_ordered other Hco) as [Hoo Hso].
  pose proof (constructible_attained t Hc) as Ha.
  split; [split|].
  - intros Hnone.
    destruct t as [|tk mn mx l r]; [destruct other; discriminate|].
    destruct other as [|otk omn omx ol or]; [discriminate|].
    simpl.
    destruct (N.le_gt_cases omx mn) as [H1|H1];
      [|destruct (N.le_gt_cases mx omn) as [H2|H2]; [|lia]].
    + destruct (Join_defined (Node tk mn mx l r) (Node otk omn omx ol or)
                  Hs Ha) as [t' Ht']; [simpl; lia | congruence].
    + destruct (Join_defined (Node tk mn mx l r) (Node otk omn omx ol or)
                  Hs Ha) as [t' Ht']; [simpl; lia | congruence].
  - intros Hov.
    destruct t as [|tk mn mx l r]; [contradiction|].
    destruct other as [|otk omn omx ol or]; [contradiction|].
    simpl in Hov. rewrite Join_Node_eq.
    destruct (N.leb_spec omx mn); [lia|].
    destruct (N.leb_spec mx omn); [lia | reflexivity].
  - intros t' Hj.
    destruct (Join_Some t other t' Ho Hs Hoo Hso Hj) as (Ho' & _ & Hp).
    split; [assumption|]. split; [assumption|].
    now apply ordered_sorted.
Qed.

Lemma Join_panics_iff_spans_overlap_witness :
  Join (Node (mkToken 0 5 8 8) 5 8 Nil Nil)
       (Node (mkToken 0 0 3 3) 0 3 Nil Nil) = None <->
  spansOverlap (Some (5, 8)) (Some (0, 3)).
Proof.
  apply (Join_panics_iff_spans_overlap
           (Node (mkToken 0 5 8 8) 5 8 Nil Nil)
           (Node (mkToken 0 0 3 3) 0 3 Nil Nil)).
  - apply (constructible_Insert Nil (mkToken 0 5 8 8)); [|reflexivity].
    constructor.
  - apply (constructible_Insert Nil (mkToken 0 0 3 3)); [|reflexivity].
    constructor.
Defined.

(** X2: in a tree that can be built the aggregates are exact:
    [minStartPos] is the start of the first token of the traversal and
    [maxEndPos] the end of the last one. *)
Theorem aggregates_exact :
  forall tk mn mx l r,
    constructible (Node tk mn mx l r) ->
    (exists first rest,
        inorder (Node tk mn mx l r) = first :: rest /\
        StartPos first = mn) /\
    (exists front last,
        inorder (Node tk mn mx l r) = front ++ [last] /\
        EndPos last = mx).
Proof.
  intros tk mn mx l r Hc.
  destruct (constructible_ordered _ Hc) as [Ho Hs].
  pose proof (constructible_attained _ Hc) as Ha.
  pose proof (ordered_sorted _ Ho) as Hsorted.
  pose proof (ordered_positive _ Ho) as Hpos.
  destruct Hs as (_ & _ & Hall). destruct Ha as (_ & _ & Hmn & Hmx).
  change (inorder l ++ tk :: inorder r)
    with (inorder (Node tk mn mx l r)) in Hall, Hmn, Hmx.
  remember (inorder (Node tk mn mx l r)) as toks eqn:Htoks.
  clear Htoks Hc Ho. split.
  - destruct toks as [|first rest]; [inversion Hmn|].
    exists first, rest. split; [reflexivity|].
    inversion Hall as [|? ? [Hf _] _]; subst.
    apply Exists_exists in Hmn. destruct Hmn as (x & Hx & Hxmn).
    destruct Hx as [<-|Hx]; [assumption|].
    inversion Hsorted as [|? ? _ Hbef]; subst.
    inversion Hpos as [|? ? Hpf _]; subst.
    rewrite Forall_forall in Hbef. specialize (Hbef x Hx).
    unfold before in Hbef. lia.
  - destruct (exists_last (l := toks)) as (front & last & ->).
    { intros ->. inversion Hmx. }
    exists front, last. split; [reflexivity|].
    apply Forall_app in Hall. destruct Hall as [Hfront Hlast].
    inversion Hlast as [|? ? [_ Hl] _]; subst.
    apply Exists_app in Hmx. destruct Hmx as [Hx|Hx].
    + apply Exists_exists in Hx. destruct Hx as (x & Hx & Hxmx).
      assert (Hb : before x last).
      { clear - Hsorted Hx. induction front as [|a front IH];
          [contradiction|].
        simpl in Hsorted. inversion Hsorted as [|? ? Hs' Hall]; subst.
        destruct Hx as [<-|Hx].
        - rewrite Forall_forall in Hall. apply Hall.
          apply in_or_app. right. now left.
        - now apply IH. }
      apply Forall_app in Hpos. destruct Hpos as [_ Hpl].
      inversion Hpl as [|? ? Hpl' _]; subst.
      unfold before in Hb. lia.
    + inversion Hx as [? ? Hh|? ? Ht]; [exact Hh | inversion Ht].
Qed.

Lemma aggregates_exact_witness :
  (exists first rest,
      inorder (Node (mkToken 0 5 8 8) 0 8
                 (Node (mkToken 0 0 3 3) 0 3 Nil Nil) Nil)
      = first :: rest /\ StartPos first = 0) /\
  (exists front last,
      inorder (Node (mkToken 0 5 8 8) 0 8
                 (Node (mkToken 0 0 3 3) 0 3 Nil Nil) Nil)
      = front ++ [last] /\ EndPos last = 8).
Proof.
  apply (aggregates_exact (mkToken 0 5 8 8) 0 8
           (Node (mkToken 0 0 3 3) 0 3 Nil Nil) Nil).
  apply (constructible_Insert (Node (mkToken 0 5 8 8) 5 8 Nil Nil)
           (mkToken 0 0 3 3)); [|reflexivity].
  apply (constructible_Insert Nil (mkToken 0 5 8 8)); [|reflexivity].
  constructor.
Defined.

(** ** Stepping an iterator, and looking a token up *)

(** Only entered nodes are on the stack of an iterator that
    [IterFromPosition] made and [Advance] moved. *)
Lemma pushLeftSpine_entered t : forall st,
  Forall (fun u => u <> Nil) st ->
  Forall (fun u => u <> Nil) (pushLeftSpine t st).
Proof.
  induction t as [|tk mn mx l IHl r IHr]; intros st Hst; simpl.
  - exact Hst.
  - apply IHl. constructor; [discriminate | exact Hst].
Qed.

Lemma iterDescend_entered t pos : forall st,
  Forall (fun u => u <> Nil) st ->
  Forall (fun u => u <> Nil) (iterDescend t pos st).
Proof.
  induction t as [|tk mn mx l IHl r IHr]; intros st Hst; simpl.
  - exact Hst.
  - destruct (pos <? StartPos tk).
    + apply IHl. constructor; [discriminate | exact Hst].
    + destruct (EndPos tk <=? pos).
      * now apply IHr.
      * constructor; [discriminate | exact Hst].
Qed.

Lemma Advance_pendingTokens st :
  Forall (fun u => u <> Nil) st ->
  Forall (fun u => u <> Nil) (stack (Advance (mkIter st))) /\
  pendingTokens (stack (Advance (mkIter st))) = tl (pendingTokens st).
Proof.
  intros Hst. destruct st as [|[|tk mn mx l r] rest].
  - split; [exact Hst | reflexivity].
  - inversion Hst; subst. congruence.
  - inversion Hst; subst. unfold Advance. simpl. split.
    + now apply pushLeftSpine_entered.
    + apply pendingTokens_pushLeftSpine.
Qed.

Lemma tl_skipn {A} n : forall l : list A, tl (skipn n l) = skipn (S n) l.
Proof.
  induction n as [|n IH]; intros [|a l]; try reflexivity.
  exact (IH l).
Qed.

Lemma Advance_iter_pendingTokens st n :
  Forall (fun u => u <> Nil) st ->
  Forall (fun u => u <> Nil) (stack (Nat.iter n Advance (mkIter st))) /\
  pendingTokens (stack (Nat.iter n Advance (mkIter st)))
  = skipn n (pendingTokens st).
Proof.
  intros Hst. induction n as [|n [IHe IHp]]; [now split|].
  change (Nat.iter (S n) Advance (mkIter st))
    with (Advance (Nat.iter n Advance (mkIter st))).
  destruct (Nat.iter n Advance (mkIter st)) as [st'].
  destruct (Advance_pendingTokens st' IHe) as [He Hp].
  split; [exact He|]. rewrite Hp. simpl in IHp. rewrite IHp.
  apply tl_skipn.
Qed.

(** X3: on a tree satisfying the ordering invariant, the iterator that
    [IterFromPosition] returns, advanced [n] times, is on the [n]-th
    (counting from zero) of the tokens that end after the position, in
    increasing order of position; once they are used up it has no token. *)
Theorem Advance_steps_in_order :
  forall t pos n,
    ordered t ->
    Get (Nat.iter n Advance (IterFromPosition t pos))
    = nth_error (filter (endsAfter pos) (inorder t)) n.
Proof.
  intros t pos n Hord.
  rewrite Get_pendingTokens. unfold IterFromPosition.
  rewrite (proj2 (Advance_iter_pendingTokens (iterDescend t pos []) n
                    (iterDescend_entered t pos [] (Forall_nil _)))).
  rewrite iterDescend_pendingTokens by assumption.
  simpl. rewrite app_nil_r.
  generalize (filter (endsAfter pos) (inorder t)). clear.
  induction n as [|n IH]; intros [|a l]; simpl; auto.
Qed.

Lemma Advance_steps_in_order_witness :
  Get (Nat.iter 1 Advance
         (IterFromPosition
            (Node (mkToken 0 5 8 8) 0 12
               (Node (mkToken 0 0 3 3) 0 3 Nil Nil)
               (Node (mkToken 0 9 12 12) 9 12 Nil Nil)) 4))
  = nth_error
      (filter (endsAfter 4)
         (inorder
            (Node (mkToken 0 5 8 8) 0 12
               (Node (mkToken 0 0 3 3) 0 3 Nil Nil)
               (Node (mkToken 0 9 12 12) 9 12 Nil Nil)))) 1 /\
  Get (Nat.iter 1 Advance
         (IterFromPosition
            (Node (mkToken 0 5 8 8) 0 12
               (Node (mkToken 0 0 3 3) 0 3 Nil Nil)
               (Node (mkToken 0 9 12 12) 9 12 Nil Nil)) 4))
  = Some (mkToken 0 9 12 12).
Proof.
  split.
  - apply (Advance_steps_in_order
             (Node (mkToken 0 5 8 8) 0 12
                (Node (mkToken 0 0 3 3) 0 3 Nil Nil)
                (Node (mkToken 0 9 12 12) 9 12 Nil Nil)) 4 1).
    simpl. repeat split; repeat constructor; unfold before; simpl; lia.
  - reflexivity.
Defined.

Lemma sorted_lookup pos x : forall toks,
  StronglySorted before toks ->
  In x toks ->
  StartPos x <= pos < EndPos x ->
  hd_error (filter (endsAfter pos) toks) = Some x.
Proof.
  induction toks as [|a toks IH]; intros Hs Hin Hpos; [contradiction|].
  inversion Hs as [|? ? Hs' Hbef]; subst.
  simpl. destruct Hin as [->|Hin].
  - rewrite endsAfter_true by lia. reflexivity.
  - rewrite Forall_forall in Hbef. specialize (Hbef x Hin).
    unfold before in Hbef.
    rewrite endsAfter_false by lia. now apply IH.
Qed.

(** X4: after a successful [Insert] into a tree satisfying the ordering
    invariant, an iterator started at any position inside the new token
    is on that token, and one started inside a token that was already
    there is still on it. *)
Theorem Insert_then_IterFromPosition :
  forall t tok t' x pos,
    ordered t ->
    Insert t tok = Some t' ->
    x = tok \/ In x (inorder t) ->
    StartPos x <= pos < EndPos x ->
    Get (IterFromPosition t' pos) = Some x.
Proof.
  intros t tok t' x pos Hord Hins Hx Hpos.
  destruct (Insert_Some t tok t' Hord Hins) as (_ & Hord' & Hperm & _).
  rewrite Get_pendingTokens. simpl.
  rewrite iterDescend_pendingTokens by assumption.
  simpl. rewrite app_nil_r.
  apply sorted_lookup; [now apply ordered_sorted | | assumption].
  eapply Permutation_in; [symmetry; exact Hperm|].
  destruct Hx as [->|Hx]; [now left | now right].
Qed.

Lemma Insert_then_IterFromPosition_witness :
  Get (IterFromPosition
         (Node (mkToken 0 0 3 3) 0 8 Nil
            (Node (mkToken 0 5 8 8) 5 8 Nil Nil)) 6)
  = Some (mkToken 0 5 8 8).
Proof.
  apply (Insert_then_IterFromPosition
           (Node (mkToken 0 0 3 3) 0 3 Nil Nil) (mkToken 0 5 8 8)
           (Node (mkToken 0 0 3 3) 0 8 Nil
              (Node (mkToken 0 5 8 8) 5 8 Nil Nil))
           (mkToken 0 5 8 8) 6).
  - simpl. repeat split; try constructor; lia.
  - reflexivity.
  - now left.
  - simpl. lia.
Defined.

End TokenTreeJoinFacts.

(* ===================================================================== *)
(** * What Insert and Join allocate *)
(* ===================================================================== *)

Section TokenHeapAllocationFacts.

Import TokenTrees TokenHeap.
Local Open Scope N_scope.

Lemma Insert_allocates fuel : forall h t tok tr h' p,
  repr h t tr ->
  TokenHeap.Insert fuel h t tok = Done (h', p) ->
  (length h < length h' <= length h + S (depth tr))%nat.
Proof.
  induction fuel as [|fuel IH]; intros h t tok tr h' p Hr; [discriminate|].
  cbn [TokenHeap.Insert].
  destruct (validateNewToken tok); [|discriminate].
  destruct t as [a|].
  - destruct (nth_error h a) as [tn|] eqn:Hn; [|discriminate].
    inversion Hr as [|a' n l r Hn' Hl Hrr]; subst.
    rewrite Hn in Hn'. injection Hn' as <-.
    cbn [depth].
    destruct (EndPos tok <=? StartPos (token tn)).
    + destruct (TokenHeap.Insert fuel h (leftChild tn) tok)
        as [[h1 child]| |] eqn:Hins; try discriminate.
      apply (IH _ _ _ _ _ _ Hl) in Hins.
      unfold TokenHeap.withLeftChild, alloc.
      destruct (deref h1 (Some a)); [|discriminate].
      destruct (deref h1 child); [|discriminate].
      intros [= <- _]. rewrite length_app. simpl. lia.
    + destruct (EndPos (token tn) <=? StartPos tok); [|discriminate].
      destruct (TokenHeap.Insert fuel h (rightChild tn) tok)
        as [[h1 child]| |] eqn:Hins; try discriminate.
      apply (IH _ _ _ _ _ _ Hrr) in Hins.
      unfold TokenHeap.withRightChild, alloc.
      destruct (deref h1 (Some a)); [|discriminate].
      destruct (deref h1 child); [|discriminate].
      intros [= <- _]. rewrite length_app. simpl. lia.
  - unfold alloc. intros [= <- _]. rewrite length_app. simpl. lia.
Qed.

Lemma Join_allocates fuel : forall h t other tr h' p,
  repr h t tr ->
  TokenHeap.Join fuel h t other = Done (h', p) ->
  (length h <= length h' <= length h + depth tr)%nat.
Proof.
  induction fuel as [|fuel IH]; intros h t other tr h' p Hr; [discriminate|].
  cbn [TokenHeap.Join].
  destruct t as [a|]; destruct other as [b|];
    try (intros [= <- _]; lia).
  destruct (nth_error h a) as [tn|] eqn:Hn; [|discriminate].
  destruct (nth_error h b) as [on|]; [|discriminate].
  inversion Hr as [|a' n l r Hn' Hl Hrr]; subst.
  rewrite Hn in Hn'. injection Hn' as <-.
  cbn [depth].
  destruct (maxEndPos on <=? minStartPos tn).
  - destruct (TokenHeap.Join fuel h (leftChild tn) (Some b))
      as [[h1 l']| |] eqn:Hj; try discriminate.
    apply (IH _ _ _ _ _ _ Hl) in Hj.
    unfold alloc. intros [= <- _]. rewrite length_app. simpl. lia.
  - destruct (maxEndPos tn <=? minStartPos on); [|discriminate].
    destruct (TokenHeap.Join fuel h (rightChild tn) (Some b))
      as [[h1 r']| |] eqn:Hj; try discriminate.
    apply (IH _ _ _ _ _ _ Hrr) in Hj.
    unfold alloc. intros [= <- _]. rewrite length_app. simpl. lia.
Qed.

(** X5: [Insert] and [Join] copy one path of the tree and nothing
    else.  [Insert] allocates at least one node and at most one more
    than the depth of the tree; [Join] allocates at most as many nodes
    as the tree it is called on is deep, whatever the size of the other
    tree, whose nodes are shared and not copied. *)
Theorem Insert_Join_allocate_along_one_path h t tr :
  repr h t tr ->
  (forall fuel tok h' p,
      TokenHeap.Insert fuel h t tok = Done (h', p) ->
      (length h < length h' <= length h + S (depth tr))%nat) /\
  (forall fuel other h' p,
      TokenHeap.Join fuel h t other = Done (h', p) ->
      (length h <= length h' <= length h + depth tr)%nat).
Proof.
  intros Hr. split.
  - intros fuel tok h' p. now apply Insert_allocates.
  - intros fuel other h' p. now apply Join_allocates.
Qed.

Lemma Insert_Join_allocate_along_one_path_witness :
  let h := [mkNode (mkToken 0 0 3 3) 0 3 None None] in
  let h' := [mkNode (mkToken 0 0 3 3) 0 3 None None;
             mkNode (mkToken 0 5 8 8) 5 8 None None;
             mkNode (mkToken 0 0 3 3) 0 8 None (Some 1%nat)] in
  repr h (Some 0%nat) (Node (mkToken 0 0 3 3) 0 3 Nil Nil) /\
  TokenHeap.Insert 2 h (Some 0%nat) (mkToken 0 5 8 8) = Done (h', Some 2%nat)
  /\ (length h < length h'
       <= length h + S (depth (Node (mkToken 0 0 3 3) 0 3 Nil Nil)))%nat.
Proof.
  intros h h'.
  assert (Hr : repr h (Some 0%nat) (Node (mkToken 0 0 3 3) 0 3 Nil Nil)).
  { exact (repr_node h 0%nat (mkNode (mkToken 0 0 3 3) 0 3 None None)
             Nil Nil eq_refl (repr_nil h) (repr_nil h)). }
  split; [exact Hr|]. split; [reflexivity|].
  exact (proj1 (Insert_Join_allocate_along_one_path h (Some 0%nat) _ Hr)
               2%nat (mkToken 0 5 8 8) h' (Some 2%nat) eq_refl).
Defined.

End TokenHeapAllocationFacts.

(* ===================================================================== *)
(** * More properties of the locators *)
(* ===================================================================== *)

Section LocatorClusterFacts.

Import Strings.String List ListNotations.
Import Locators.
Local Open Scope string_scope.
Local Open Scope list_scope.
Local Open Scope Z_scope.

(** ** Rune counts of cluster lists *)

Lemma clusterRunes_nil : clusterRunes [] = 0.
Proof. reflexivity. Qed.

Lemma clusterRunes_cons seg segs :
  clusterRunes (seg :: segs) = clusterLen seg + clusterRunes segs.
Proof.
  unfold clusterRunes, clusterLen. simpl. rewrite length_app. lia.
Qed.

Lemma clusterRunes_nonneg segs : 0 <= clusterRunes segs.
Proof. unfold clusterRunes. lia. Qed.

Lemma clusterLen_nonneg seg : 0 <= clusterLen seg.
Proof. unfold clusterLen. lia. Qed.

Lemma clusterRunes_firstn_le n : forall segs,
  clusterRunes (firstn n segs) <= clusterRunes segs.
Proof.
  induction n as [|n IH]; intros segs.
  - simpl. apply clusterRunes_nonneg.
  - destruct segs as [|seg segs]; simpl; [lia|].
    rewrite !clusterRunes_cons. specialize (IH segs). lia.
Qed.

Lemma NumRunes_small seg :
  clusterLen seg < 2 ^ 64 -> NumRunes seg = clusterLen seg.
Proof.
  intros H. unfold NumRunes. apply u64_small.
  pose proof (clusterLen_nonneg seg). unfold clusterLen in *. lia.
Qed.

Lemma add64_small a seg :
  0 <= a -> a + clusterLen seg < 2 ^ 64 ->
  add64 a (NumRunes seg) = a + clusterLen seg.
Proof.
  intros Ha H. pose proof (clusterLen_nonneg seg).
  rewrite NumRunes_small by lia. unfold add64. apply u64_small. lia.
Qed.

Lemma lineClusters_prefix : forall segs,
  lineClusters segs = firstn (length (lineClusters segs)) segs.
Proof.
  induction segs as [|seg rest IH]; simpl; [reflexivity|].
  destruct (HasNewline seg); simpl; [reflexivity|]. now rewrite <- IH.
Qed.

Lemma lineClusters_length_le : forall segs,
  (length (lineClusters segs) <= length segs)%nat.
Proof.
  induction segs as [|seg rest IH]; simpl; [lia|].
  destruct (HasNewline seg); simpl; lia.
Qed.

Lemma lineClusters_noNewline : forall segs,
  Forall noNewline (lineClusters segs).
Proof.
  induction segs as [|seg rest IH]; simpl; [constructor|].
  destruct (HasNewline seg) eqn:E; constructor; assumption.
Qed.

(** What follows the clusters of the line is the end of the text or a
    cluster with a newline. *)
Lemma lineClusters_stop : forall segs,
  lineClusters (skipn (length (lineClusters segs)) segs) = [].
Proof.
  induction segs as [|seg rest IH]; simpl; [reflexivity|].
  destruct (HasNewline seg) eqn:E; simpl; [now rewrite E | exact IH].
Qed.

Lemma nonempty_length_le : forall segs,
  Forall (fun seg : Segment => seg <> []) segs ->
  Z.of_nat (length segs) <= clusterRunes segs.
Proof.
  induction 1 as [|seg rest Hne _ IH]; [reflexivity|].
  rewrite clusterRunes_cons. unfold clusterLen.
  destruct seg; [congruence|]. simpl length in *. lia.
Qed.

(** ** The iterator of a partitioning cluster breaker *)

Lemma forward_runes gcSplit gcSplitRev tree pos :
  (forall l, concat (gcSplit l) = l) ->
  clusterRunes (gcIterForTree gcSplit gcSplitRev tree pos ReadDirectionForward)
  = Z.of_nat (length tree - Z.to_nat pos).
Proof.
  intros Hc. unfold clusterRunes. simpl. rewrite Hc, length_skipn.
  reflexivity.
Qed.

Lemma backward_runes gcSplit gcSplitRev tree pos :
  (forall l, concat (gcSplitRev l) = l) ->
  clusterRunes (gcIterForTree gcSplit gcSplitRev tree pos ReadDirectionBackward)
  = Z.of_nat (Nat.min (Z.to_nat pos) (length tree)).
Proof.
  intros Hc. unfold clusterRunes. simpl.
  rewrite Hc, length_rev, length_firstn. reflexivity.
Qed.

(** Reading on after some clusters gives the clusters that were left. *)
Lemma cuts_skip split :
  cutsIntoClusters split ->
  forall n l,
    split (skipn (length (concat (firstn n (split l)))) l)
    = skipn n (split l).
Proof.
  intros (_ & _ & Hs). induction n as [|n IH]; intros l; [reflexivity|].
  destruct (split l) as [|seg segs] eqn:E; simpl.
  - simpl. exact E.
  - rewrite length_app, Nat.add_comm, <- skipn_skipn.
    pose proof (Hs l seg segs E) as E'.
    specialize (IH (skipn (length seg) l)). rewrite E' in IH. exact IH.
Qed.

Lemma cuts_nil split : cutsIntoClusters split -> split [] = [].
Proof.
  intros (Hc & Hne & _). specialize (Hc []). specialize (Hne []).
  destruct (split []) as [|seg segs]; [reflexivity|].
  inversion Hne; subst. destruct seg; [congruence | discriminate].
Qed.

(** ** The loops of the locators *)

Lemma triple_eq (b b' : bool) (x x' y y' : Z) :
  b = b' -> x = x' -> y = y' -> (b, x, y) = (b', x', y').
Proof. congruence. Qed.

Lemma lineBoundaryLoop_eq : forall segs prevOffset offset,
  0 <= offset -> offset + clusterRunes segs < 2 ^ 64 ->
  lineBoundaryLoop segs prevOffset offset
  = (match length (lineClusters segs) with
     | O => prevOffset
     | S k => offset + clusterRunes (firstn k segs)
     end,
     offset + clusterRunes (firstn (length (lineClusters segs)) segs)).
Proof.
  induction segs as [|seg rest IH]; intros prev off H0 Hb; simpl.
  - rewrite clusterRunes_nil, Z.add_0_r. reflexivity.
  - rewrite clusterRunes_cons in Hb.
    pose proof (clusterLen_nonneg seg). pose proof (clusterRunes_nonneg rest).
    destruct (HasNewline seg); simpl.
    + rewrite clusterRunes_nil, Z.add_0_r. reflexivity.
    + rewrite add64_small by lia. rewrite IH by lia.
      rewrite clusterRunes_cons.
      destruct (length (lineClusters rest)); simpl;
        rewrite ?clusterRunes_cons, ?clusterRunes_nil; f_equal; lia.
Qed.

Lemma afterCursorLoop_eq loc : forall segs i prevPrevOffset prevOffset,
  0 <= i -> i + Z.of_nat (length segs) < 2 ^ 64 ->
  0 <= prevOffset -> prevOffset + clusterRunes segs < 2 ^ 64 ->
  afterCursorLoop loc segs i prevPrevOffset prevOffset
  = let k := length (lineClusters segs) in
    let n := cil_count loc + 1 - i in
    let m := if n <=? Z.of_nat k then Z.to_nat n else k in
    (negb (n <=? Z.of_nat k),
     match m with
     | O => prevPrevOffset
     | S m' => prevOffset + clusterRunes (firstn m' segs)
     end,
     prevOffset + clusterRunes (firstn m segs)).
Proof.
  induction segs as [|seg rest IH]; intros i pp p Hi Hib Hp Hpb.
  - cbn [afterCursorLoop lineClusters length]. cbv zeta.
    destruct (i <=? cil_count loc) eqn:E;
      [apply Z.leb_le in E | apply Z.leb_gt in E].
    + replace (cil_count loc + 1 - i <=? Z.of_nat 0) with false
        by (symmetry; apply Z.leb_gt; lia).
      simpl. rewrite Z.add_0_r. reflexivity.
    + replace (cil_count loc + 1 - i <=? Z.of_nat 0) with true
        by (symmetry; apply Z.leb_le; lia).
      replace (Z.to_nat (cil_count loc + 1 - i)) with O by lia.
      simpl. rewrite Z.add_0_r. reflexivity.
  - rewrite clusterRunes_cons in Hpb. simpl length in Hib.
    pose proof (clusterLen_nonneg seg). pose proof (clusterRunes_nonneg rest).
    cbn [afterCursorLoop lineClusters]. cbv zeta.
    destruct (i <=? cil_count loc) eqn:E;
      [apply Z.leb_le in E | apply Z.leb_gt in E].
    + destruct (HasNewline seg).
      * cbn [length].
        replace (cil_count loc + 1 - i <=? Z.of_nat 0) with false
          by (symmetry; apply Z.leb_gt; lia).
        simpl. rewrite Z.add_0_r. reflexivity.
      * rewrite add64_small by lia.
        assert (Ei : add64 i 1 = i + 1)
          by (unfold add64; apply u64_small; lia).
        rewrite Ei. rewrite IH by lia. cbv zeta. cbn [length].
        set (k := length (lineClusters rest)).
        replace (cil_count loc + 1 - (i + 1)) with (cil_count loc - i) by lia.
        destruct (cil_count loc - i <=? Z.of_nat k) eqn:E2;
          [apply Z.leb_le in E2 | apply Z.leb_gt in E2].
        -- replace (cil_count loc + 1 - i <=? Z.of_nat (S k)) with true
             by (symmetry; apply Z.leb_le; lia).
           replace (Z.to_nat (cil_count loc + 1 - i))
             with (S (Z.to_nat (cil_count loc - i))) by lia.
           destruct (Z.to_nat (cil_count loc - i)); simpl;
             rewrite ?clusterRunes_cons, ?clusterRunes_nil;
             apply triple_eq; try reflexivity; lia.
        -- replace (cil_count loc + 1 - i <=? Z.of_nat (S k)) with false
             by (symmetry; apply Z.leb_gt; lia).
           destruct k; simpl;
             rewrite ?clusterRunes_cons, ?clusterRunes_nil;
             apply triple_eq; try reflexivity; lia.
    + replace (cil_count loc + 1 - i <=?
               Z.of_nat (length (if HasNewline seg then []
                                 else seg :: lineClusters rest)))
        with true by (symmetry; apply Z.leb_le; lia).
      replace (Z.to_nat (cil_count loc + 1 - i)) with O by lia.
      simpl. rewrite clusterRunes_nil, Z.add_0_r. reflexivity.
Qed.

Lemma beforeCursorLoop_eq loc startPos : forall segs i offset,
  0 <= i -> i + Z.of_nat (length segs) < 2 ^ 64 ->
  0 <= offset -> offset + clusterRunes segs <= startPos -> startPos < 2 ^ 64 ->
  beforeCursorLoop loc startPos segs i offset
  = let k := length (lineClusters segs) in
    let n := cil_count loc - i in
    let j := if n <=? Z.of_nat k then Z.to_nat n
             else if cil_includeEndOfLineOrFile loc then S k else k in
    startPos - (offset + clusterRunes (firstn j segs)).
Proof.
  induction segs as [|seg rest IH]; intros i off Hi Hib Ho Hob Hs.
  - cbn [beforeCursorLoop lineClusters length]. cbv zeta.
    rewrite clusterRunes_nil in Hob.
    assert (E0 : sub64 startPos off = startPos - off)
      by (unfold sub64; apply u64_small; lia).
    rewrite firstn_nil, clusterRunes_nil, Z.add_0_r.
    destruct (i <? cil_count loc); exact E0.
  - rewrite clusterRunes_cons in Hob. simpl length in Hib.
    pose proof (clusterLen_nonneg seg). pose proof (clusterRunes_nonneg rest).
    assert (E0 : sub64 startPos off = startPos - off)
      by (unfold sub64; apply u64_small; lia).
    cbn [beforeCursorLoop lineClusters]. cbv zeta.
    destruct (i <? cil_count loc) eqn:E;
      [apply Z.ltb_lt in E | apply Z.ltb_ge in E].
    + rewrite add64_small by lia.
      replace (startPos <? off + clusterLen seg) with false
        by (symmetry; apply Z.ltb_ge; lia).
      destruct (HasNewline seg).
      * cbn [length].
        replace (cil_count loc - i <=? Z.of_nat 0) with false
          by (symmetry; apply Z.leb_gt; lia).
        destruct (cil_includeEndOfLineOrFile loc); simpl firstn.
        -- rewrite clusterRunes_cons, clusterRunes_nil.
           unfold sub64. rewrite u64_small by lia. lia.
        -- rewrite clusterRunes_nil, Z.add_0_r. exact E0.
      * assert (Ei : add64 i 1 = i + 1)
          by (unfold add64; apply u64_small; lia).
        rewrite Ei, IH by lia. cbv zeta. cbn [length].
        set (k := length (lineClusters rest)).
        replace (cil_count loc - (i + 1)) with (cil_count loc - i - 1) by lia.
        destruct (cil_count loc - i - 1 <=? Z.of_nat k) eqn:E2;
          [apply Z.leb_le in E2 | apply Z.leb_gt in E2].
        -- replace (cil_count loc - i <=? Z.of_nat (S k)) with true
             by (symmetry; apply Z.leb_le; lia).
           replace (Z.to_nat (cil_count loc - i))
             with (S (Z.to_nat (cil_count loc - i - 1))) by lia.
           simpl firstn. rewrite clusterRunes_cons. lia.
        -- replace (cil_count loc - i <=? Z.of_nat (S k)) with false
             by (symmetry; apply Z.leb_gt; lia).
           destruct (cil_includeEndOfLineOrFile loc);
             simpl firstn; rewrite clusterRunes_cons; lia.
    + replace (cil_count loc - i <=?
               Z.of_nat (length (if HasNewline seg then []
                                 else seg :: lineClusters rest)))
        with true by (symmetry; apply Z.leb_le; lia).
      replace (Z.to_nat (cil_count loc - i)) with O by lia.
      simpl firstn. rewrite clusterRunes_nil, Z.add_0_r. exact E0.
Qed.

(** ** What the iterator can return for a state in range *)

Lemma iter_length gcSplit gcSplitRev tree pos dir :
  cutsIntoClusters gcSplit -> cutsIntoClusters gcSplitRev ->
  Z.of_nat (length (gcIterForTree gcSplit gcSplitRev tree pos dir))
  <= clusterRunes (gcIterForTree gcSplit gcSplitRev tree pos dir).
Proof.
  intros (_ & Hf & _) (_ & Hb & _). apply nonempty_length_le.
  destruct dir; simpl; [apply Hf | apply Hb].
Qed.

Lemma iter_forward_bound gcSplit gcSplitRev st :
  cutsIntoClusters gcSplit -> inRange st ->
  position (cursor st)
  + clusterRunes (gcIterForTree gcSplit gcSplitRev (tree st)
                    (position (cursor st)) ReadDirectionForward) < 2 ^ 64
  /\ clusterRunes (gcIterForTree gcSplit gcSplitRev (tree st)
                    (position (cursor st)) ReadDirectionForward) < 2 ^ 64.
Proof.
  intros (Hc & _) [Hp Hl]. rewrite forward_runes by exact Hc. lia.
Qed.

Lemma iter_backward_bound gcSplit gcSplitRev st :
  cutsIntoClusters gcSplitRev -> inRange st ->
  clusterRunes (gcIterForTree gcSplit gcSplitRev (tree st)
                  (position (cursor st)) ReadDirectionBackward)
  <= position (cursor st).
Proof.
  intros (Hc & _) [Hp Hl]. rewrite backward_runes by exact Hc. lia.
Qed.

Lemma Forall_firstn_line j : forall segs,
  (j <= length (lineClusters segs))%nat ->
  Forall noNewline (firstn j segs).
Proof.
  induction j as [|j IH]; intros segs Hj; [constructor|].
  destruct segs as [|seg rest]; [constructor|].
  simpl in *. destruct (HasNewline seg) eqn:E; simpl in Hj; [lia|].
  constructor; [exact E | apply IH; lia].
Qed.

Lemma cursor_eta (c : cursorState) :
  mkCursor (position c) (logicalOffset c) = c.
Proof. now destruct c. Qed.

(** ** [charInLineLocator] *)

Lemma findPosition_eq gcSplit gcSplitRev loc st :
  cutsIntoClusters gcSplit -> cutsIntoClusters gcSplitRev -> inRange st ->
  findPosition gcSplit gcSplitRev loc st
  = moved (cil_direction loc) (position (cursor st))
      (clusterRunes
         (firstn (clustersPassed loc
                    (gcIterForTree gcSplit gcSplitRev (tree st)
                       (position (cursor st)) (cil_direction loc)))
                 (gcIterForTree gcSplit gcSplitRev (tree st)
                    (position (cursor st)) (cil_direction loc)))).
Proof.
  intros Hf Hb Hr.
  pose proof (iter_length gcSplit gcSplitRev (tree st) (position (cursor st))
                (cil_direction loc) Hf Hb) as Hlen.
  unfold findPosition, clustersPassed, moved.
  destruct (cil_direction loc).
  - destruct (iter_forward_bound gcSplit gcSplitRev st Hf Hr) as [Hb1 Hb2].
    unfold findPositionAfterCursor.
    set (segs := gcIterForTree gcSplit gcSplitRev (tree st)
                   (position (cursor st)) ReadDirectionForward) in *.
    destruct Hr as [Hp Hl].
    pose proof (clusterRunes_nonneg segs) as Hn.
    rewrite afterCursorLoop_eq by lia. cbv zeta.
    set (k := length (lineClusters segs)).
    replace (cil_count loc + 1 - 0 <=? Z.of_nat k)
      with (cil_count loc <? Z.of_nat k)
      by (destruct (Z.ltb_spec (cil_count loc) (Z.of_nat k));
          symmetry; [apply Z.leb_le | apply Z.leb_gt]; lia).
    destruct (cil_count loc <? Z.of_nat k) eqn:E;
      [apply Z.ltb_lt in E | apply Z.ltb_ge in E]; cbn [negb andb].
    + pose proof (clusterRunes_firstn_le (Z.to_nat (cil_count loc)) segs).
      pose proof (clusterRunes_nonneg
                    (firstn (Z.to_nat (cil_count loc)) segs)).
      destruct (Z.to_nat (cil_count loc + 1 - 0)) as [|m'] eqn:Em.
      * replace (Z.to_nat (cil_count loc)) with O by lia.
        simpl firstn. rewrite clusterRunes_nil.
        unfold add64. apply u64_small. lia.
      * replace m' with (Z.to_nat (cil_count loc)) by lia.
        rewrite Z.add_0_l. unfold add64. apply u64_small. lia.
    + destruct (cil_includeEndOfLineOrFile loc).
      * pose proof (clusterRunes_firstn_le k segs).
        pose proof (clusterRunes_nonneg (firstn k segs)).
        rewrite Z.add_0_l. unfold add64. apply u64_small. lia.
      * destruct k as [|k']; simpl pred.
        -- simpl firstn. rewrite clusterRunes_nil.
           unfold add64. apply u64_small. lia.
        -- pose proof (clusterRunes_firstn_le k' segs).
           pose proof (clusterRunes_nonneg (firstn k' segs)).
           rewrite Z.add_0_l. unfold add64. apply u64_small. lia.
  - pose proof (iter_backward_bound gcSplit gcSplitRev st Hb Hr) as Hb1.
    unfold findPositionBeforeCursor.
    set (segs := gcIterForTree gcSplit gcSplitRev (tree st)
                   (position (cursor st)) ReadDirectionBackward) in *.
    destruct Hr as [Hp Hl].
    assert (Hb2 : clusterRunes segs < 2 ^ 64) by lia.
    rewrite beforeCursorLoop_eq by lia. cbv zeta.
    rewrite Z.sub_0_r, Z.add_0_l. reflexivity.
Qed.

Lemma charInLine_same gcSplit gcSplitRev loc st :
  cutsIntoClusters gcSplit -> cutsIntoClusters gcSplitRev -> inRange st ->
  let segs := gcIterForTree gcSplit gcSplitRev (tree st)
                (position (cursor st)) (cil_direction loc) in
  clusterRunes (firstn (clustersPassed loc segs) segs) = 0 ->
  charInLine_Locate gcSplit gcSplitRev loc st = cursor st.
Proof.
  intros Hf Hb Hr segs Hz. unfold charInLine_Locate.
  rewrite findPosition_eq by assumption. fold segs. rewrite Hz.
  replace (moved (cil_direction loc) (position (cursor st)) 0)
    with (position (cursor st))
    by (unfold moved; destruct (cil_direction loc); lia).
  rewrite Z.eqb_refl. apply cursor_eta.
Qed.

(** X6: [charInLineLocator.Locate] moves the cursor over whole clusters
    in its direction: over at most [count] of them, never over a cluster
    with a newline unless it reads backward with the end of the line
    included, and going forward it stops on the last cluster of the line
    unless the end of the line is included.  The logical offset is kept
    when the position does not change and reset otherwise. *)
Theorem charInLine_Locate_clusters gcSplit gcSplitRev loc st :
  cutsIntoClusters gcSplit -> cutsIntoClusters gcSplitRev -> inRange st ->
  let segs := gcIterForTree gcSplit gcSplitRev (tree st)
                (position (cursor st)) (cil_direction loc) in
  let passed := firstn (clustersPassed loc segs) segs in
  let c := charInLine_Locate gcSplit gcSplitRev loc st in
  position c
  = moved (cil_direction loc) (position (cursor st)) (clusterRunes passed) /\
  (0 <= cil_count loc -> Z.of_nat (length passed) <= cil_count loc) /\
  (cil_direction loc = ReadDirectionForward \/
   cil_includeEndOfLineOrFile loc = false -> Forall noNewline passed) /\
  (clusterRunes passed = 0 -> c = cursor st) /\
  (clusterRunes passed <> 0 -> logicalOffset c = 0).
Proof.
  intros Hf Hb Hr segs passed c.
  assert (Hpos : position c
                 = moved (cil_direction loc) (position (cursor st))
                         (clusterRunes passed)).
  { unfold c, charInLine_Locate. cbn [position].
    apply findPosition_eq; assumption. }
  split; [exact Hpos|]. split; [|split; [|split]].
  - intros Hc. unfold passed. rewrite length_firstn.
    unfold clustersPassed.
    destruct (cil_direction loc).
    + destruct (Z.ltb_spec (cil_count loc)
                  (Z.of_nat (length (lineClusters segs)))).
      * lia.
      * pose proof (lineClusters_length_le segs).
        destruct (cil_includeEndOfLineOrFile loc); lia.
    + destruct (Z.leb_spec (cil_count loc)
                  (Z.of_nat (length (lineClusters segs)))).
      * lia.
      * pose proof (lineClusters_length_le segs).
        destruct (cil_includeEndOfLineOrFile loc); lia.
  - intros Hd. unfold passed. apply Forall_firstn_line.
    unfold clustersPassed.
    destruct (cil_direction loc).
    + destruct (Z.ltb_spec (cil_count loc)
                  (Z.of_nat (length (lineClusters segs)))).
      * lia.
      * destruct (cil_includeEndOfLineOrFile loc); lia.
    + destruct Hd as [Hd | Hd]; [discriminate|]. rewrite Hd.
      destruct (Z.leb_spec (cil_count loc)
                  (Z.of_nat (length (lineClusters segs)))); lia.
  - intros Hz.
    assert (Hsame : position c = position (cursor st)).
    { rewrite Hpos, Hz. destruct (cil_direction loc); simpl; lia. }
    unfold c, charInLine_Locate in *. cbn [position] in Hsame.
    rewrite Hsame, Z.eqb_refl. apply cursor_eta.
  - intros Hnz.
    assert (Hdiff : position c <> position (cursor st)).
    { rewrite Hpos. destruct (cil_direction loc); simpl; lia. }
    unfold c, charInLine_Locate in *. cbn [position logicalOffset] in *.
    destruct (Z.eqb_spec (findPosition gcSplit gcSplitRev loc st)
                (position (cursor st))); [contradiction | reflexivity].
Qed.

(** ** [lineBoundaryLocator] *)

Lemma lineBoundary_position gcSplit gcSplitRev loc st :
  cutsIntoClusters gcSplit -> cutsIntoClusters gcSplitRev -> inRange st ->
  let segs := gcIterForTree gcSplit gcSplitRev (tree st)
                (position (cursor st)) (lb_direction loc) in
  lineBoundary_Locate gcSplit gcSplitRev loc st
  = let newPosition :=
      moved (lb_direction loc) (position (cursor st))
        (clusterRunes (firstn (clustersToBoundary loc segs) segs)) in
    if newPosition =? position (cursor st) then cursor st
    else mkCursor newPosition 0.
Proof.
  intros Hf Hb Hr segs. unfold lineBoundary_Locate. fold segs.
  pose proof (clusterRunes_nonneg segs) as Hn.
  assert (Hbound : clusterRunes segs < 2 ^ 64).
  { unfold segs. destruct (lb_direction loc).
    - apply (iter_forward_bound gcSplit gcSplitRev st Hf Hr).
    - pose proof (iter_backward_bound gcSplit gcSplitRev st Hb Hr).
      destruct Hr. lia. }
  rewrite lineBoundaryLoop_eq by lia. cbv zeta.
  unfold clustersToBoundary, moved.
  set (k := length (lineClusters segs)).
  pose proof (clusterRunes_firstn_le k segs) as Hk.
  pose proof (clusterRunes_nonneg (firstn k segs)) as Hk0.
  assert (Hpk : clusterRunes (firstn (pred k) segs) <= clusterRunes segs)
    by apply clusterRunes_firstn_le.
  pose proof (clusterRunes_nonneg (firstn (pred k) segs)) as Hpk0.
  assert (Hprev : match k with
                  | O => 0
                  | S k' => 0 + clusterRunes (firstn k' segs)
                  end = clusterRunes (firstn (pred k) segs)).
  { destruct k; simpl; [reflexivity | lia]. }
  rewrite Hprev, Z.add_0_l.
  unfold segs in Hk, Hpk, Hn. fold segs in Hk, Hpk.
  destruct (lb_direction loc) eqn:Ed.
  - destruct (iter_forward_bound gcSplit gcSplitRev st Hf Hr) as [Hb1 _].
    fold segs in Hb1. destruct Hr as [Hp Hl].
    destruct (lb_includeEndOfLineOrFile loc);
      unfold add64; rewrite u64_small by lia; reflexivity.
  - pose proof (iter_backward_bound gcSplit gcSplitRev st Hb Hr) as Hb1.
    fold segs in Hb1. destruct Hr as [Hp Hl].
    unfold sub64; rewrite u64_small by lia; reflexivity.
Qed.

Lemma lineBoundary_moved gcSplit gcSplitRev loc st :
  cutsIntoClusters gcSplit -> cutsIntoClusters gcSplitRev -> inRange st ->
  let segs := gcIterForTree gcSplit gcSplitRev (tree st)
                (position (cursor st)) (lb_direction loc) in
  let passed := firstn (clustersToBoundary loc segs) segs in
  position (lineBoundary_Locate gcSplit gcSplitRev loc st)
  = moved (lb_direction loc) (position (cursor st)) (clusterRunes passed) /\
  (clusterRunes passed = 0 ->
   lineBoundary_Locate gcSplit gcSplitRev loc st = cursor st).
Proof.
  intros Hf Hb Hr segs passed.
  pose proof (lineBoundary_position gcSplit gcSplitRev loc st Hf Hb Hr) as E.
  cbv zeta in E. fold segs in E. fold passed in E. rewrite E. split.
  - destruct (Z.eqb_spec (moved (lb_direction loc) (position (cursor st))
                                (clusterRunes passed))
                         (position (cursor st))) as [e | ne];
      [now rewrite e | reflexivity].
  - intros Hz. rewrite Hz.
    replace (moved (lb_direction loc) (position (cursor st)) 0)
      with (position (cursor st))
      by (unfold moved; destruct (lb_direction loc); lia).
    now rewrite Z.eqb_refl.
Qed.

(** X7: [lineBoundaryLocator.Locate] moves the cursor over the clusters of
    the current line in its direction, none of which holds a newline:
    backward over all of them, forward over all of them when the end of
    the line is included and over all but the last one otherwise.  When
    the position does not change the cursor is returned as it is, and
    otherwise the logical offset is reset. *)
Theorem lineBoundary_Locate_clusters gcSplit gcSplitRev loc st :
  cutsIntoClusters gcSplit -> cutsIntoClusters gcSplitRev -> inRange st ->
  let segs := gcIterForTree gcSplit gcSplitRev (tree st)
                (position (cursor st)) (lb_direction loc) in
  let passed := firstn (clustersToBoundary loc segs) segs in
  let c := lineBoundary_Locate gcSplit gcSplitRev loc st in
  position c
  = moved (lb_direction loc) (position (cursor st)) (clusterRunes passed) /\
  Forall noNewline passed /\
  (clusterRunes passed = 0 -> c = cursor st) /\
  (clusterRunes passed <> 0 -> logicalOffset c = 0).
Proof.
  intros Hf Hb Hr segs passed c.
  pose proof (lineBoundary_position gcSplit gcSplitRev loc st Hf Hb Hr) as E.
  cbv zeta in E. fold segs in E. fold passed in E. fold c in E.
  assert (Hmv : clusterRunes passed = 0 <->
                moved (lb_direction loc) (position (cursor st))
                      (clusterRunes passed) = position (cursor st)).
  { unfold moved. destruct (lb_direction loc); lia. }
  split; [|split; [|split]].
  - rewrite E.
    destruct (Z.eqb_spec (moved (lb_direction loc) (position (cursor st))
                                (clusterRunes passed))
                         (position (cursor st))) as [e | ne];
      [now rewrite e | reflexivity].
  - unfold passed. apply Forall_firstn_line. unfold clustersToBoundary.
    destruct (lb_direction loc);
      [destruct (lb_includeEndOfLineOrFile loc)|]; lia.
  - intros Hz. rewrite E. apply Hmv in Hz. rewrite Hz, Z.eqb_refl.
    reflexivity.
  - intros Hnz. rewrite E.
    destruct (Z.eqb_spec (moved (lb_direction loc) (position (cursor st))
                                (clusterRunes passed))
                         (position (cursor st))) as [e | ne];
      [apply Hmv in e; contradiction | reflexivity].
Qed.

(** ** Reading on from where a locator stopped *)

Lemma iter_after_forward gcSplit gcSplitRev tree pos n :
  cutsIntoClusters gcSplit -> 0 <= pos ->
  gcIterForTree gcSplit gcSplitRev tree
    (pos + clusterRunes
             (firstn n (gcIterForTree gcSplit gcSplitRev tree pos
                          ReadDirectionForward)))
    ReadDirectionForward
  = skipn n (gcIterForTree gcSplit gcSplitRev tree pos ReadDirectionForward).
Proof.
  intros Hc Hp. unfold clusterRunes. cbn [gcIterForTree].
  rewrite <- (cuts_skip gcSplit Hc n (skipn (Z.to_nat pos) tree)).
  rewrite skipn_skipn. f_equal. f_equal. lia.
Qed.

Lemma rev_firstn_skipn (l : list rune) n m :
  (m <= n <= length l)%nat ->
  skipn m (rev (firstn n l)) = rev (firstn (n - m) l).
Proof.
  intros H. rewrite skipn_rev, length_firstn, firstn_firstn.
  f_equal. f_equal. lia.
Qed.

Lemma iter_after_backward gcSplit gcSplitRev tree pos n :
  cutsIntoClusters gcSplitRev ->
  0 <= pos <= Z.of_nat (length tree) ->
  gcIterForTree gcSplit gcSplitRev tree
    (pos - clusterRunes
             (firstn n (gcIterForTree gcSplit gcSplitRev tree pos
                          ReadDirectionBackward)))
    ReadDirectionBackward
  = skipn n (gcIterForTree gcSplit gcSplitRev tree pos ReadDirectionBackward).
Proof.
  intros Hc Hp.
  pose proof (clusterRunes_firstn_le n
                (gcIterForTree gcSplit gcSplitRev tree pos
                   ReadDirectionBackward)) as Hle.
  rewrite backward_runes in Hle by apply Hc.
  revert Hle. unfold clusterRunes. cbn [gcIterForTree]. intros Hle.
  rewrite <- (cuts_skip gcSplitRev Hc n (rev (firstn (Z.to_nat pos) tree))).
  rewrite rev_firstn_skipn by lia. f_equal. f_equal. f_equal. lia.
Qed.

Lemma lineClusters_skipn : forall segs m,
  (m <= length (lineClusters segs))%nat ->
  length (lineClusters (skipn m segs))
  = (length (lineClusters segs) - m)%nat.
Proof.
  induction segs as [|seg rest IH]; intros [|m] Hm; try reflexivity.
  - now rewrite Nat.sub_0_r.
  - simpl in *. destruct (HasNewline seg); simpl in *; [lia|].
    apply IH. lia.
Qed.

(** Where [lineBoundaryLocator] stops, the state is still in range and
    the iterator returns the clusters that were not passed. *)
Lemma lineBoundary_stop gcSplit gcSplitRev loc st :
  cutsIntoClusters gcSplit -> cutsIntoClusters gcSplitRev -> inRange st ->
  position (cursor st) <= Z.of_nat (length (tree st)) ->
  let segs := gcIterForTree gcSplit gcSplitRev (tree st)
                (position (cursor st)) (lb_direction loc) in
  let st' := mkState (tree st)
               (lineBoundary_Locate gcSplit gcSplitRev loc st) in
  inRange st' /\
  position (cursor st') <= Z.of_nat (length (tree st')) /\
  gcIterForTree gcSplit gcSplitRev (tree st') (position (cursor st'))
    (lb_direction loc)
  = skipn (clustersToBoundary loc segs) segs.
Proof.
  intros Hf Hb Hr Hle segs st'.
  destruct (lineBoundary_moved gcSplit gcSplitRev loc st Hf Hb Hr)
    as (Hpos & _). fold segs in Hpos.
  unfold st', inRange. cbn [tree cursor]. rewrite Hpos.
  pose proof (clusterRunes_firstn_le (clustersToBoundary loc segs) segs).
  pose proof (clusterRunes_nonneg
                (firstn (clustersToBoundary loc segs) segs)).
  unfold segs in *.
  destruct (lb_direction loc); unfold moved.
  - destruct (iter_forward_bound gcSplit gcSplitRev st Hf Hr) as [Hb1 _].
    pose proof (forward_runes gcSplit gcSplitRev (tree st)
                  (position (cursor st)) (proj1 Hf)) as Hfr.
    destruct Hr as [Hp Hl].
    repeat split; try lia.
    apply iter_after_forward; [exact Hf | lia].
  - pose proof (iter_backward_bound gcSplit gcSplitRev st Hb Hr) as Hb1.
    destruct Hr as [Hp Hl].
    repeat split; try lia.
    apply iter_after_backward; [exact Hb | lia].
Qed.

(** X8: [lineBoundaryLocator.Locate] is idempotent: applied to the cursor
    it returned, it returns that cursor again. *)
Theorem lineBoundary_Locate_idempotent gcSplit gcSplitRev loc st :
  cutsIntoClusters gcSplit -> cutsIntoClusters gcSplitRev -> inRange st ->
  position (cursor st) <= Z.of_nat (length (tree st)) ->
  lineBoundary_Locate gcSplit gcSplitRev loc
    (mkState (tree st) (lineBoundary_Locate gcSplit gcSplitRev loc st))
  = lineBoundary_Locate gcSplit gcSplitRev loc st.
Proof.
  intros Hf Hb Hr Hle.
  destruct (lineBoundary_stop gcSplit gcSplitRev loc st Hf Hb Hr Hle)
    as (Hr' & _ & Hit).
  set (st' := mkState (tree st)
                (lineBoundary_Locate gcSplit gcSplitRev loc st)) in *.
  destruct (lineBoundary_moved gcSplit gcSplitRev loc st' Hf Hb Hr')
    as (_ & Hsame).
  transitivity (cursor st'); [apply Hsame | reflexivity].
  rewrite Hit.
  set (segs := gcIterForTree gcSplit gcSplitRev (tree st)
                 (position (cursor st)) (lb_direction loc)).
  assert (E : clustersToBoundary loc
                (skipn (clustersToBoundary loc segs) segs) = O).
  { unfold clustersToBoundary at 1.
    rewrite lineClusters_skipn
      by (unfold clustersToBoundary; destruct (lb_direction loc);
          [destruct (lb_includeEndOfLineOrFile loc)|]; lia).
    unfold clustersToBoundary.
    destruct (lb_direction loc);
      [destruct (lb_includeEndOfLineOrFile loc)|]; lia. }
  rewrite E. reflexivity.
Qed.

(** X9: after [lineBoundaryLocator.Locate] without the end of the line,
    [charInLineLocator.Locate] in the same direction and without the end
    of the line does not move the cursor, whatever its count: the cursor
    cannot be pushed past the last character of a line, nor before the
    first. *)
Theorem charInLine_stays_at_line_boundary gcSplit gcSplitRev st dir count :
  cutsIntoClusters gcSplit -> cutsIntoClusters gcSplitRev -> inRange st ->
  position (cursor st) <= Z.of_nat (length (tree st)) ->
  let c := lineBoundary_Locate gcSplit gcSplitRev
             (mkLineBoundary dir false) st in
  charInLine_Locate gcSplit gcSplitRev (mkCharInLine dir count false)
    (mkState (tree st) c) = c.
Proof.
  intros Hf Hb Hr Hle c.
  destruct (lineBoundary_stop gcSplit gcSplitRev (mkLineBoundary dir false)
              st Hf Hb Hr Hle) as (Hr' & _ & Hit).
  fold c in Hr', Hit. cbn [lb_direction] in Hit.
  set (st' := mkState (tree st) c) in *.
  pose proof (charInLine_same gcSplit gcSplitRev
                (mkCharInLine dir count false) st' Hf Hb Hr') as Hsame.
  cbv zeta in Hsame. cbn [cil_direction] in Hsame.
  rewrite Hsame; [reflexivity|].
  rewrite Hit.
  set (segs := gcIterForTree gcSplit gcSplitRev (tree st)
                 (position (cursor st)) dir).
  assert (E : clustersPassed (mkCharInLine dir count false)
                (skipn (clustersToBoundary (mkLineBoundary dir false) segs)
                       segs) = O).
  { unfold clustersPassed. cbn [cil_direction cil_count
                                cil_includeEndOfLineOrFile].
    rewrite lineClusters_skipn
      by (unfold clustersToBoundary; cbn; destruct dir; lia).
    unfold clustersToBoundary.
    cbn [lb_direction lb_includeEndOfLineOrFile].
    destruct dir.
    - destruct (Z.ltb_spec count
        (Z.of_nat (length (lineClusters segs)
                   - pred (length (lineClusters segs))))); lia.
    - destruct (Z.leb_spec count
        (Z.of_nat (length (lineClusters segs)
                   - length (lineClusters segs)))); lia. }
  rewrite E. reflexivity.
Qed.

(** ** [nonWhitespaceLocator] *)

Lemma nonWhitespaceLoop_eq W : forall segs offset,
  0 <= offset -> offset + clusterRunes segs < 2 ^ 64 ->
  nonWhitespaceLoop W segs offset
  = (offset + clusterRunes (whitespaceClusters W segs),
     skipn (S (length (whitespaceClusters W segs))) segs).
Proof.
  induction segs as [|seg rest IH]; intros off Ho Hb.
  - simpl. rewrite clusterRunes_nil, Z.add_0_r. reflexivity.
  - rewrite clusterRunes_cons in Hb.
    pose proof (clusterLen_nonneg seg). pose proof (clusterRunes_nonneg rest).
    cbn [nonWhitespaceLoop whitespaceClusters].
    destruct (W seg).
    + rewrite add64_small by lia. rewrite IH by lia.
      rewrite clusterRunes_cons. cbn [length skipn]. f_equal. lia.
    + cbn [length skipn]. rewrite clusterRunes_nil, Z.add_0_r. reflexivity.
Qed.

Lemma whitespaceClusters_prefix W : forall segs,
  whitespaceClusters W segs
  = firstn (length (whitespaceClusters W segs)) segs.
Proof.
  induction segs as [|seg rest IH]; simpl; [reflexivity|].
  destruct (W seg); simpl; [now rewrite <- IH | reflexivity].
Qed.

Lemma whitespaceClusters_all W : forall segs,
  Forall (fun seg => W seg = true) (whitespaceClusters W segs).
Proof.
  induction segs as [|seg rest IH]; simpl; [constructor|].
  destruct (W seg) eqn:E; constructor; assumption.
Qed.

Lemma firstn_nth_le n : forall segs,
  clusterRunes (firstn n segs) + clusterLen (nth (S n) segs [])
  <= clusterRunes segs.
Proof.
  induction n as [|n IH]; intros segs.
  - destruct segs as [|a [|b r]]; cbn [firstn nth];
      rewrite ?clusterRunes_cons, ?clusterRunes_nil.
    + unfold clusterLen. simpl. lia.
    + pose proof (clusterLen_nonneg a). unfold clusterLen in *. simpl. lia.
    + pose proof (clusterLen_nonneg a). pose proof (clusterRunes_nonneg r).
      lia.
  - destruct segs as [|a r]; cbn [firstn nth].
    + rewrite clusterRunes_nil. unfold clusterLen. simpl. lia.
    + rewrite !clusterRunes_cons. specialize (IH r). lia.
Qed.

Lemma nonempty_runes_pos seg segs :
  seg <> [] -> 0 < clusterRunes (seg :: segs).
Proof.
  intros Hne. rewrite clusterRunes_cons.
  pose proof (clusterRunes_nonneg segs).
  unfold clusterLen. destruct seg; [congruence | simpl length; lia].
Qed.

(** X10: [nonWhitespaceLocator.Locate] reading forward moves the cursor
    over the whitespace clusters that follow it and no further.  Reading
    backward with whitespace before the cursor, it moves back over the
    whitespace clusters and then by the length of the cluster that
    comes after the one that ended the loop, that one having been read by
    the loop already.  Without whitespace next to the cursor the cursor
    is returned as it is, and otherwise the logical offset is reset. *)
Theorem nonWhitespace_Locate_clusters gcSplit gcSplitRev W loc st :
  cutsIntoClusters gcSplit -> cutsIntoClusters gcSplitRev -> inRange st ->
  let segs := gcIterForTree gcSplit gcSplitRev (tree st)
                (position (cursor st)) (nw_direction loc) in
  let ws := whitespaceClusters W segs in
  let c := nonWhitespace_Locate gcSplit gcSplitRev W loc st in
  (ws = [] -> c = cursor st) /\
  (ws <> [] ->
   logicalOffset c = 0 /\
   position c
   = match nw_direction loc with
     | ReadDirectionForward => position (cursor st) + clusterRunes ws
     | ReadDirectionBackward =>
         position (cursor st) - clusterRunes ws
         - clusterLen (clusterAfterLoop W segs)
     end).
Proof.
  intros Hf Hb Hr segs ws c.
  pose proof (clusterRunes_nonneg segs) as Hn.
  assert (Hne : Forall (fun seg : Segment => seg <> []) segs).
  { unfold segs. destruct (nw_direction loc); simpl;
      [apply Hf | apply Hb]. }
  assert (Hbound : clusterRunes segs < 2 ^ 64).
  { unfold segs. destruct (nw_direction loc).
    - apply (iter_forward_bound gcSplit gcSplitRev st Hf Hr).
    - pose proof (iter_backward_bound gcSplit gcSplitRev st Hb Hr).
      destruct Hr. lia. }
  assert (Hfw : nw_direction loc = ReadDirectionForward ->
                position (cursor st) + clusterRunes segs < 2 ^ 64).
  { intros Ed. unfold segs. rewrite Ed.
    apply (iter_forward_bound gcSplit gcSplitRev st Hf Hr). }
  assert (Hbw : nw_direction loc = ReadDirectionBackward ->
                clusterRunes segs <= position (cursor st)).
  { intros Ed. unfold segs. rewrite Ed.
    apply (iter_backward_bound gcSplit gcSplitRev st Hb Hr). }
  assert (Hws : clusterRunes ws + clusterLen (clusterAfterLoop W segs)
                <= clusterRunes segs).
  { unfold ws, clusterAfterLoop.
    rewrite (whitespaceClusters_prefix W segs) at 1.
    apply firstn_nth_le. }
  pose proof (clusterRunes_nonneg ws) as Hws0.
  pose proof (clusterLen_nonneg (clusterAfterLoop W segs)) as Hx0.
  assert (Hpos : ws <> [] -> 0 < clusterRunes ws).
  { intros Hnil. unfold ws in *.
    rewrite (whitespaceClusters_prefix W segs) in *.
    destruct segs as [|seg rest];
      [rewrite firstn_nil in Hnil; congruence|].
    destruct (length (whitespaceClusters W (seg :: rest)));
      [simpl in Hnil; congruence|].
    simpl firstn. apply nonempty_runes_pos. now inversion Hne. }
  assert (E : c = let offset := clusterRunes ws in
                  let newPosition :=
                    match nw_direction loc with
                    | ReadDirectionForward => position (cursor st) + offset
                    | ReadDirectionBackward =>
                        position (cursor st)
                        - (if 0 <? offset
                           then offset + clusterLen (clusterAfterLoop W segs)
                           else offset)
                    end in
                  if newPosition =? position (cursor st) then cursor st
                  else mkCursor newPosition 0).
  { unfold c, nonWhitespace_Locate. fold segs.
    rewrite nonWhitespaceLoop_eq by lia. fold ws. cbv zeta.
    rewrite Z.add_0_l.
    assert (Hnth : match skipn (S (length ws)) segs with
                   | [] => clusterRunes ws
                   | seg :: _ => add64 (clusterRunes ws) (NumRunes seg)
                   end
                   = clusterRunes ws + clusterLen (clusterAfterLoop W segs)).
    { unfold clusterAfterLoop. fold ws.
      rewrite <- (firstn_skipn (S (length ws)) segs) at 2.
      pose proof (length_firstn (S (length ws)) segs) as Hlen.
      destruct (skipn (S (length ws)) segs) as [|seg tl] eqn:Esk.
      - rewrite app_nil_r, nth_overflow by (rewrite Hlen; lia).
        unfold clusterLen. simpl. lia.
      - assert (Hl : length (firstn (S (length ws)) segs) = S (length ws)).
        { rewrite Hlen. apply Nat.min_l.
          assert (length (skipn (S (length ws)) segs) <> O)
            by (rewrite Esk; discriminate).
          rewrite length_skipn in H. lia. }
        rewrite app_nth2 by (rewrite Hl; lia).
        rewrite Hl, Nat.sub_diag. cbn [nth].
        assert (clusterLen seg = clusterLen (clusterAfterLoop W segs)).
        { unfold clusterAfterLoop. fold ws.
          rewrite <- (firstn_skipn (S (length ws)) segs) at 1.
          rewrite Esk, app_nth2 by (rewrite Hl; lia).
          now rewrite Hl, Nat.sub_diag. }
        apply add64_small; lia. }
    rewrite Hnth.
    destruct Hr as [Hp Hl].
    destruct (nw_direction loc) eqn:Ed.
    - specialize (Hfw eq_refl).
      unfold add64. rewrite u64_small by lia. reflexivity.
    - specialize (Hbw eq_refl).
      unfold sub64. rewrite u64_small; [reflexivity|].
      destruct (0 <? clusterRunes ws); lia. }
  cbv zeta in E. split.
  - intros Hnil. rewrite E, Hnil, clusterRunes_nil. cbn [Z.ltb Z.compare].
    destruct (nw_direction loc);
      [rewrite Z.add_0_r | rewrite Z.sub_0_r]; now rewrite Z.eqb_refl.
  - intros Hnn. specialize (Hpos Hnn).
    replace (0 <? clusterRunes ws) with true in E
      by (symmetry; apply Z.ltb_lt; exact Hpos).
    rewrite E.
    destruct (nw_direction loc).
    + destruct (Z.eqb_spec (position (cursor st) + clusterRunes ws)
                  (position (cursor st))); [lia|]. split; reflexivity.
    + destruct (Z.eqb_spec
                  (position (cursor st)
                   - (clusterRunes ws
                      + clusterLen (clusterAfterLoop W segs)))
                  (position (cursor st))); [lia|].
      split; [reflexivity | cbn [position]; lia].
Qed.

(** ** The clusters of plain text cut a stream into clusters *)

Lemma pairs_ind (P : list rune -> Prop) :
  P [] -> (forall r, P [r]) ->
  (forall r r2 rest, P rest -> P (r2 :: rest) -> P (r :: r2 :: rest)) ->
  forall l, P l.
Proof.
  intros H0 H1 H2.
  assert (H : forall l, P l /\ forall r, P (r :: l)).
  { induction l as [|r2 rest [IH1 IH2]].
    - split; [exact H0 | exact H1].
    - split; [apply IH2 | intros r; apply H2; [exact IH1 | apply IH2]]. }
  intros l. apply H.
Qed.

Lemma asciiClusters_cuts : cutsIntoClusters asciiClusters.
Proof.
  split; [exact asciiClusters_concat|]. split.
  - apply pairs_ind.
    + constructor.
    + intros r. repeat constructor. discriminate.
    + intros r r2 rest IH1 IH2.
      change (asciiClusters (r :: r2 :: rest))
        with (if ((r =? 13) && (r2 =? 10))%bool
              then [r; r2] :: asciiClusters rest
              else [r] :: asciiClusters (r2 :: rest)).
      destruct ((r =? 13) && (r2 =? 10))%bool;
        constructor; try discriminate; assumption.
  - apply (pairs_ind (fun l => forall seg segs,
             asciiClusters l = seg :: segs ->
             asciiClusters (skipn (length seg) l) = segs)).
    + discriminate.
    + intros r seg segs [= <- <-]. reflexivity.
    + intros r r2 rest _ _ seg segs.
      change (asciiClusters (r :: r2 :: rest))
        with (if ((r =? 13) && (r2 =? 10))%bool
              then [r; r2] :: asciiClusters rest
              else [r] :: asciiClusters (r2 :: rest)).
      destruct ((r =? 13) && (r2 =? 10))%bool;
        intros [= <- <-]; reflexivity.
Qed.

Lemma asciiClustersRev_cuts : cutsIntoClusters asciiClustersRev.
Proof.
  split; [exact asciiClustersRev_concat|]. split.
  - apply pairs_ind.
    + constructor.
    + intros r. repeat constructor. discriminate.
    + intros r r2 rest IH1 IH2.
      change (asciiClustersRev (r :: r2 :: rest))
        with (if ((r =? 10) && (r2 =? 13))%bool
              then [r; r2] :: asciiClustersRev rest
              else [r] :: asciiClustersRev (r2 :: rest)).
      destruct ((r =? 10) && (r2 =? 13))%bool;
        constructor; try discriminate; assumption.
  - apply (pairs_ind (fun l => forall seg segs,
             asciiClustersRev l = seg :: segs ->
             asciiClustersRev (skipn (length seg) l) = segs)).
    + discriminate.
    + intros r seg segs [= <- <-]. reflexivity.
    + intros r r2 rest _ _ seg segs.
      change (asciiClustersRev (r :: r2 :: rest))
        with (if ((r =? 10) && (r2 =? 13))%bool
              then [r; r2] :: asciiClustersRev rest
              else [r] :: asciiClustersRev (r2 :: rest)).
      destruct ((r =? 10) && (r2 =? 13))%bool;
        intros [= <- <-]; reflexivity.
Qed.

(** ** The locators on "ab  cd", a newline, "ef" *)

Lemma charInLine_Locate_clusters_witness :
  let st := mkState [97; 98; 32; 32; 99; 100; 10; 101; 102] (mkCursor 3 7) in
  inRange st /\
  charInLine_Locate asciiClusters asciiClustersRev
    (mkCharInLine ReadDirectionForward 5 false) st = mkCursor 5 0 /\
  charInLine_Locate asciiClusters asciiClustersRev
    (mkCharInLine ReadDirectionBackward 5 true) st = mkCursor 0 0.
Proof.
  intros st.
  assert (Hr : inRange st) by (unfold inRange; simpl; lia).
  split; [exact Hr|]. split.
  - destruct (charInLine_Locate_clusters asciiClusters asciiClustersRev
                (mkCharInLine ReadDirectionForward 5 false) st
                asciiClusters_cuts asciiClustersRev_cuts Hr)
      as (Hpos & _ & _ & _ & Hoff).
    rewrite <- (cursor_eta (charInLine_Locate _ _ _ _)).
    rewrite Hpos, Hoff; [reflexivity | vm_compute; discriminate].
  - destruct (charInLine_Locate_clusters asciiClusters asciiClustersRev
                (mkCharInLine ReadDirectionBackward 5 true) st
                asciiClusters_cuts asciiClustersRev_cuts Hr)
      as (Hpos & _ & _ & _ & Hoff).
    rewrite <- (cursor_eta (charInLine_Locate _ _ _ _)).
    rewrite Hpos, Hoff; [reflexivity | vm_compute; discriminate].
Defined.

Lemma lineBoundary_Locate_clusters_witness :
  let st := mkState [97; 98; 32; 32; 99; 100; 10; 101; 102] (mkCursor 3 7) in
  inRange st /\
  lineBoundary_Locate asciiClusters asciiClustersRev
    (mkLineBoundary ReadDirectionForward true) st = mkCursor 6 0 /\
  lineBoundary_Locate asciiClusters asciiClustersRev
    (mkLineBoundary ReadDirectionBackward false) st = mkCursor 0 0.
Proof.
  intros st.
  assert (Hr : inRange st) by (unfold inRange; simpl; lia).
  split; [exact Hr|]. split.
  - destruct (lineBoundary_Locate_clusters asciiClusters asciiClustersRev
                (mkLineBoundary ReadDirectionForward true) st
                asciiClusters_cuts asciiClustersRev_cuts Hr)
      as (Hpos & _ & _ & Hoff).
    rewrite <- (cursor_eta (lineBoundary_Locate _ _ _ _)).
    rewrite Hpos, Hoff; [reflexivity | vm_compute; discriminate].
  - destruct (lineBoundary_Locate_clusters asciiClusters asciiClustersRev
                (mkLineBoundary ReadDirectionBackward false) st
                asciiClusters_cuts asciiClustersRev_cuts Hr)
      as (Hpos & _ & _ & Hoff).
    rewrite <- (cursor_eta (lineBoundary_Locate _ _ _ _)).
    rewrite Hpos, Hoff; [reflexivity | vm_compute; discriminate].
Defined.

Lemma lineBoundary_Locate_idempotent_witness :
  let st := mkState [97; 98; 32; 32; 99; 100; 10; 101; 102] (mkCursor 3 7) in
  let loc := mkLineBoundary ReadDirectionForward false in
  inRange st /\
  position (cursor st) <= Z.of_nat (length (tree st)) /\
  lineBoundary_Locate asciiClusters asciiClustersRev loc
    (mkState (tree st)
       (lineBoundary_Locate asciiClusters asciiClustersRev loc st))
  = lineBoundary_Locate asciiClusters asciiClustersRev loc st.
Proof.
  intros st loc.
  assert (Hr : inRange st) by (unfold inRange; simpl; lia).
  assert (Hle : position (cursor st) <= Z.of_nat (length (tree st)))
    by (simpl; lia).
  split; [exact Hr|]. split; [exact Hle|].
  exact (lineBoundary_Locate_idempotent asciiClusters asciiClustersRev
           loc st asciiClusters_cuts asciiClustersRev_cuts Hr Hle).
Defined.

Lemma charInLine_stays_at_line_boundary_witness :
  let st := mkState [97; 98; 32; 32; 99; 100; 10; 101; 102] (mkCursor 3 7) in
  inRange st /\
  position (cursor st) <= Z.of_nat (length (tree st)) /\
  charInLine_Locate asciiClusters asciiClustersRev
    (mkCharInLine ReadDirectionForward 1 false)
    (mkState (tree st)
       (lineBoundary_Locate asciiClusters asciiClustersRev
          (mkLineBoundary ReadDirectionForward false) st))
  = mkCursor 5 0.
Proof.
  intros st.
  assert (Hr : inRange st) by (unfold inRange; simpl; lia).
  assert (Hle : position (cursor st) <= Z.of_nat (length (tree st)))
    by (simpl; lia).
  split; [exact Hr|]. split; [exact Hle|].
  exact (charInLine_stays_at_line_boundary asciiClusters asciiClustersRev
           st ReadDirectionForward 1
           asciiClusters_cuts asciiClustersRev_cuts Hr Hle).
Defined.

Lemma nonWhitespace_Locate_clusters_witness :
  let st := mkState [97; 98; 32; 32; 99; 100; 10; 101; 102] (mkCursor 2 7) in
  let isSpace := fun seg : Segment => existsb (Z.eqb 32) seg in
  inRange st /\
  nonWhitespace_Locate asciiClusters asciiClustersRev isSpace
    (mkNonWhitespace ReadDirectionForward) st = mkCursor 4 0 /\
  nonWhitespace_Locate asciiClusters asciiClustersRev isSpace
    (mkNonWhitespace ReadDirectionBackward) st = mkCursor 2 7.
Proof.
  intros st isSpace.
  assert (Hr : inRange st) by (unfold inRange; simpl; lia).
  split; [exact Hr|]. split.
  - destruct (nonWhitespace_Locate_clusters asciiClusters asciiClustersRev
                isSpace (mkNonWhitespace ReadDirectionForward) st
                asciiClusters_cuts asciiClustersRev_cuts Hr)
      as (_ & Hmove).
    destruct Hmove as [Hoff Hpos]; [vm_compute; discriminate|].
    rewrite <- (cursor_eta (nonWhitespace_Locate _ _ _ _ _)).
    rewrite Hpos, Hoff. reflexivity.
  - destruct (nonWhitespace_Locate_clusters asciiClusters asciiClustersRev
                isSpace (mkNonWhitespace ReadDirectionBackward) st
                asciiClusters_cuts asciiClustersRev_cuts Hr)
      as (Hstay & _).
    apply Hstay. reflexivity.
Defined.

End LocatorClusterFacts.

(* ===================================================================== *)
(** * The column reached by a vertical move *)
(* ===================================================================== *)

Section RelativeLineColumnFacts.

Import Strings.String List ListNotations.
Import Locators.
Local Open Scope string_scope.
Local Open Scope list_scope.
Local Open Scope Z_scope.

(** ** The loops of [relativeLineLocator] *)

Lemma offsetFromLineStartLoop_eq : forall segs offset,
  0 <= offset -> offset + Z.of_nat (length segs) < 2 ^ 64 ->
  offsetFromLineStartLoop segs offset
  = offset + Z.of_nat (length (lineClusters segs)).
Proof.
  induction segs as [|seg rest IH]; intros off H0 Hb; simpl.
  - lia.
  - simpl length in Hb. destruct (HasNewline seg); simpl length; [lia|].
    assert (E : add64 off 1 = off + 1)
      by (unfold add64; apply u64_small; lia).
    rewrite E, IH by lia. lia.
Qed.

Lemma lineAboveLoop_bound count : forall segs offset newlineCount,
  0 <= offset -> offset + clusterRunes segs < 2 ^ 64 ->
  offset <= fst (lineAboveLoop count segs offset newlineCount)
         <= offset + clusterRunes segs.
Proof.
  induction segs as [|seg rest IH]; intros off nc H0 Hb; simpl.
  - rewrite clusterRunes_nil. lia.
  - rewrite clusterRunes_cons in *.
    pose proof (clusterLen_nonneg seg). pose proof (clusterRunes_nonneg rest).
    destruct (HasNewline seg).
    + destruct (count <? add64 nc 1); simpl; [lia|].
      specialize (IH (add64 off (NumRunes seg)) (add64 nc 1)).
      rewrite add64_small in * by lia.
      specialize (IH ltac:(lia) ltac:(lia)). lia.
    + specialize (IH (add64 off (NumRunes seg)) nc).
      rewrite add64_small in * by lia.
      specialize (IH ltac:(lia) ltac:(lia)). lia.
Qed.

Lemma lineBelowLoop_bound count : forall segs lookahead offset newlineCount,
  0 <= offset -> offset + clusterRunes segs < 2 ^ 64 ->
  offset <= fst (lineBelowLoop count segs lookahead offset newlineCount)
         <= offset + clusterRunes segs.
Proof.
  induction segs as [|seg rest IH]; intros la off nc H0 Hb; simpl.
  - rewrite clusterRunes_nil. destruct (nc <? count); simpl; lia.
  - rewrite clusterRunes_cons in *.
    pose proof (clusterLen_nonneg seg). pose proof (clusterRunes_nonneg rest).
    destruct (nc <? count); simpl; [|lia].
    destruct (HasNewline seg &&
              match la with [] => true | _ :: _ => false end); simpl; [lia|].
    specialize (IH (tl la) (add64 off (NumRunes seg))
                   (if HasNewline seg then add64 nc 1 else nc)).
    rewrite add64_small in * by lia.
    specialize (IH ltac:(lia) ltac:(lia)). lia.
Qed.

Lemma advanceLoop_eq targetOffset :
  forall segs prevPosOffset posOffset gcOffset,
  0 <= gcOffset -> gcOffset + Z.of_nat (length segs) < 2 ^ 64 ->
  0 <= posOffset -> posOffset + clusterRunes segs < 2 ^ 64 ->
  advanceLoop targetOffset segs prevPosOffset posOffset gcOffset
  = let k := length (lineClusters segs) in
    let n := targetOffset - gcOffset in
    let m := if n <=? Z.of_nat k then Z.to_nat n else k in
    (negb (n <=? Z.of_nat k),
     match m with
     | O => prevPosOffset
     | S m' => posOffset + clusterRunes (firstn m' segs)
     end,
     posOffset + clusterRunes (firstn m segs),
     gcOffset + Z.of_nat m).
Proof.
  induction segs as [|seg rest IH]; intros pp p g Hg Hgb Hp Hpb.
  - cbn [advanceLoop lineClusters length]. cbv zeta.
    destruct (g <? targetOffset) eqn:E;
      [apply Z.ltb_lt in E | apply Z.ltb_ge in E].
    + replace (targetOffset - g <=? Z.of_nat 0) with false
        by (symmetry; apply Z.leb_gt; lia).
      simpl. rewrite !Z.add_0_r. reflexivity.
    + replace (targetOffset - g <=? Z.of_nat 0) with true
        by (symmetry; apply Z.leb_le; lia).
      replace (Z.to_nat (targetOffset - g)) with O by lia.
      simpl. rewrite !Z.add_0_r. reflexivity.
  - rewrite clusterRunes_cons in Hpb. simpl length in Hgb.
    pose proof (clusterLen_nonneg seg). pose proof (clusterRunes_nonneg rest).
    cbn [advanceLoop lineClusters]. cbv zeta.
    destruct (g <? targetOffset) eqn:E;
      [apply Z.ltb_lt in E | apply Z.ltb_ge in E].
    + destruct (HasNewline seg).
      * cbn [length].
        replace (targetOffset - g <=? Z.of_nat 0) with false
          by (symmetry; apply Z.leb_gt; lia).
        simpl. rewrite !Z.add_0_r. reflexivity.
      * rewrite add64_small by lia.
        assert (Eg : add64 g 1 = g + 1)
          by (unfold add64; apply u64_small; lia).
        rewrite Eg. rewrite IH by lia. cbv zeta. cbn [length].
        set (k := length (lineClusters rest)).
        replace (targetOffset - (g + 1)) with (targetOffset - g - 1) by lia.
        destruct (targetOffset - g - 1 <=? Z.of_nat k) eqn:E2;
          [apply Z.leb_le in E2 | apply Z.leb_gt in E2].
        -- replace (targetOffset - g <=? Z.of_nat (S k)) with true
             by (symmetry; apply Z.leb_le; lia).
           replace (Z.to_nat (targetOffset - g))
             with (S (Z.to_nat (targetOffset - g - 1))) by lia.
           destruct (Z.to_nat (targetOffset - g - 1)) eqn:En; simpl firstn;
             rewrite ?clusterRunes_cons, ?clusterRunes_nil;
             repeat (f_equal; try lia).
        -- replace (targetOffset - g <=? Z.of_nat (S k)) with false
             by (symmetry; apply Z.leb_gt; lia).
           destruct k; simpl firstn;
             rewrite ?clusterRunes_cons, ?clusterRunes_nil;
             repeat (f_equal; try lia).
    + replace (targetOffset - g <=?
               Z.of_nat (length (if HasNewline seg then []
                                 else seg :: lineClusters rest)))
        with true by (symmetry; apply Z.leb_le; lia).
      replace (Z.to_nat (targetOffset - g)) with O by lia.
      simpl. rewrite clusterRunes_nil, !Z.add_0_r. reflexivity.
Qed.

Lemma findStartOfLine_range gcSplit gcSplitRev loc st :
  cutsIntoClusters gcSplit -> cutsIntoClusters gcSplitRev -> inRange st ->
  0 <= fst (findStartOfLine gcSplit gcSplitRev loc (tree st)
              (position (cursor st)))
    <= Z.max (position (cursor st)) (Z.of_nat (length (tree st))).
Proof.
  intros Hf Hb Hr. unfold findStartOfLine.
  destruct (direction loc).
  - unfold findStartOfLineBelow.
    destruct (iter_forward_bound gcSplit gcSplitRev st Hf Hr) as [Hb1 Hb2].
    pose proof (forward_runes gcSplit gcSplitRev (tree st)
                  (position (cursor st)) (proj1 Hf)) as Hfr.
    set (segs := gcIterForTree gcSplit gcSplitRev (tree st)
                   (position (cursor st)) ReadDirectionForward) in *.
    pose proof (lineBelowLoop_bound (count loc) segs (tl segs) 0 0
                  (Z.le_refl 0) Hb2) as Hl.
    destruct (lineBelowLoop (count loc) segs (tl segs) 0 0) as [off nc].
    cbn [fst] in *. destruct Hr as [Hp Hlen].
    unfold add64. rewrite u64_small by lia. lia.
  - unfold findStartOfLineAbove.
    pose proof (iter_backward_bound gcSplit gcSplitRev st Hb Hr) as Hb1.
    set (segs := gcIterForTree gcSplit gcSplitRev (tree st)
                   (position (cursor st)) ReadDirectionBackward) in *.
    destruct Hr as [Hp Hlen].
    assert (Hb2 : 0 + clusterRunes segs < 2 ^ 64) by lia.
    pose proof (lineAboveLoop_bound (count loc) segs 0 0
                  (Z.le_refl 0) Hb2) as Hl.
    destruct (lineAboveLoop (count loc) segs 0 0) as [off nc].
    cbn [fst] in *.
    unfold sub64. rewrite u64_small by lia. lia.
Qed.

Lemma advanceToOffset_eq gcSplit gcSplitRev text lineStartPos targetOffset :
  cutsIntoClusters gcSplit -> cutsIntoClusters gcSplitRev ->
  0 <= lineStartPos < 2 ^ 64 -> Z.of_nat (length text) < 2 ^ 64 ->
  0 <= targetOffset ->
  let line := lineClusters (gcIterForTree gcSplit gcSplitRev text
                              lineStartPos ReadDirectionForward) in
  advanceToOffset gcSplit gcSplitRev text lineStartPos targetOffset
  = (lineStartPos
     + clusterRunes (firstn (columnReached targetOffset line) line),
     Z.of_nat (columnReached targetOffset line)).
Proof.
  intros Hf Hb Hp Hl Ht line.
  pose (st := mkState text (mkCursor lineStartPos 0)).
  assert (Hr : inRange st) by (split; assumption).
  destruct (iter_forward_bound gcSplit gcSplitRev st Hf Hr) as [Hb1 Hb2].
  pose proof (iter_length gcSplit gcSplitRev text lineStartPos
                ReadDirectionForward Hf Hb) as Hlen.
  cbn [st tree cursor position] in Hb1, Hb2.
  unfold advanceToOffset, line.
  set (segs := gcIterForTree gcSplit gcSplitRev text lineStartPos
                 ReadDirectionForward) in *.
  pose proof (clusterRunes_nonneg segs) as Hn.
  rewrite advanceLoop_eq by lia. cbv zeta.
  rewrite Z.sub_0_r, !Z.add_0_l. unfold columnReached.
  set (k := length (lineClusters segs)).
  assert (Hfirst : forall j, (j <= k)%nat ->
            firstn j (lineClusters segs) = firstn j segs).
  { intros j Hj. rewrite (lineClusters_prefix segs). fold k.
    rewrite firstn_firstn. f_equal. lia. }
  destruct (targetOffset <=? Z.of_nat k) eqn:E;
    [apply Z.leb_le in E | apply Z.leb_gt in E]; cbn [negb].
  - rewrite Hfirst by lia.
    pose proof (clusterRunes_firstn_le (Z.to_nat targetOffset) segs).
    pose proof (clusterRunes_nonneg (firstn (Z.to_nat targetOffset) segs)).
    unfold add64. rewrite u64_small by lia. reflexivity.
  - rewrite Hfirst by lia.
    pose proof (clusterRunes_firstn_le (pred k) segs).
    pose proof (clusterRunes_nonneg (firstn (pred k) segs)).
    pose proof (lineClusters_length_le segs). fold k in H1.
    destruct k as [|k']; cbn [pred].
    + simpl firstn. rewrite clusterRunes_nil. cbn [Z.of_nat Z.ltb Z.compare].
      unfold add64. rewrite u64_small by lia. reflexivity.
    + replace (0 <? Z.of_nat (S k')) with true
        by (symmetry; apply Z.ltb_lt; lia).
      unfold add64, sub64. cbn [pred] in *.
      rewrite !u64_small by lia. f_equal. lia.
Qed.

(** X11: [relativeLineLocator.Locate] aims at the column of the cursor
    in its line, counted in clusters, plus the logical offset.  When
    [findStartOfLine] met no newline the cursor is returned as it is.
    Otherwise the cursor is put in the line that starts where
    [findStartOfLine] says, on the target column if the line has that
    many clusters (the end of the line counting as a column) and on its
    last cluster if not, and the logical offset becomes what is missing
    to the target; the cursor of a state in range stays within the
    text. *)
Theorem relativeLine_Locate_column gcSplit gcSplitRev loc st :
  cutsIntoClusters gcSplit -> cutsIntoClusters gcSplitRev -> inRange st ->
  let column :=
    Z.of_nat (length (lineClusters
                        (gcIterForTree gcSplit gcSplitRev (tree st)
                           (position (cursor st)) ReadDirectionBackward))) in
  let targetOffset := add64 column (logicalOffset (cursor st)) in
  let lineStartPos :=
    fst (findStartOfLine gcSplit gcSplitRev loc (tree st)
           (position (cursor st))) in
  let newlineCount :=
    snd (findStartOfLine gcSplit gcSplitRev loc (tree st)
           (position (cursor st))) in
  let line := lineClusters (gcIterForTree gcSplit gcSplitRev (tree st)
                              lineStartPos ReadDirectionForward) in
  let reached := columnReached targetOffset line in
  let c := relativeLine_Locate gcSplit gcSplitRev loc st in
  (newlineCount = 0 -> c = cursor st) /\
  (newlineCount <> 0 ->
   position c = lineStartPos + clusterRunes (firstn reached line) /\
   logicalOffset c = targetOffset - Z.of_nat reached /\
   0 <= logicalOffset c /\
   0 <= position c
     <= Z.max (position (cursor st)) (Z.of_nat (length (tree st)))).
Proof.
  intros Hf Hb Hr column targetOffset lineStartPos newlineCount line reached c.
  pose proof (findStartOfLine_range gcSplit gcSplitRev loc st Hf Hb Hr)
    as Hls. fold lineStartPos in Hls.
  assert (Htarget : findOffsetFromLineStart gcSplit gcSplitRev st
                    = targetOffset).
  { unfold findOffsetFromLineStart, targetOffset, column.
    pose proof (iter_length gcSplit gcSplitRev (tree st)
                  (position (cursor st)) ReadDirectionBackward Hf Hb) as Hlen.
    pose proof (iter_backward_bound gcSplit gcSplitRev st Hb Hr) as Hbb.
    destruct Hr as [Hp Hl].
    rewrite offsetFromLineStartLoop_eq by lia. reflexivity. }
  assert (Ht0 : 0 <= targetOffset < 2 ^ 64).
  { unfold targetOffset, add64, u64. apply Z.mod_pos_bound. lia. }
  assert (E : c = if newlineCount =? 0 then cursor st
                  else mkCursor
                         (lineStartPos + clusterRunes (firstn reached line))
                         (sub64 targetOffset (Z.of_nat reached))).
  { unfold c, relativeLine_Locate. rewrite Htarget.
    unfold newlineCount, lineStartPos in *.
    destruct (findStartOfLine gcSplit gcSplitRev loc (tree st)
                (position (cursor st))) as [ls nc].
    cbn [fst snd] in *.
    destruct (nc =? 0); [reflexivity|].
    destruct Hr as [Hp Hl].
    rewrite advanceToOffset_eq by (try assumption; lia).
    reflexivity. }
  split.
  - intros Hz. rewrite E, Hz. reflexivity.
  - intros Hnz. rewrite E.
    destruct (Z.eqb_spec newlineCount 0) as [e | _]; [contradiction|].
    cbn [position logicalOffset].
    assert (Hreach : 0 <= Z.of_nat reached <= targetOffset).
    { unfold reached, columnReached.
      destruct (Z.leb_spec targetOffset (Z.of_nat (length line))); lia. }
    assert (Hsub : sub64 targetOffset (Z.of_nat reached)
                   = targetOffset - Z.of_nat reached)
      by (unfold sub64; apply u64_small; lia).
    rewrite Hsub. split; [reflexivity|]. split; [reflexivity|].
    split; [lia|].
    pose proof (clusterRunes_nonneg (firstn reached line)).
    assert (Hle : clusterRunes (firstn reached line)
                  <= clusterRunes
                       (gcIterForTree gcSplit gcSplitRev (tree st)
                          lineStartPos ReadDirectionForward)).
    { unfold line. rewrite (lineClusters_prefix _), firstn_firstn.
      apply clusterRunes_firstn_le. }
    rewrite forward_runes in Hle by apply Hf.
    destruct Hr as [Hp Hl]. lia.
Qed.

Lemma relativeLine_Locate_column_witness :
  let st := mkState [97; 98; 99; 10; 120; 121; 10; 112; 113; 114]
                    (mkCursor 2 0) in
  inRange st /\
  relativeLine_Locate asciiClusters asciiClustersRev
    (mkRelativeLine ReadDirectionForward 1) st = mkCursor 6 0 /\
  relativeLine_Locate asciiClusters asciiClustersRev
    (mkRelativeLine ReadDirectionForward 1)
    (mkState (tree st) (mkCursor 2 1)) = mkCursor 5 2.
Proof.
  intros st.
  assert (Hr : inRange st) by (unfold inRange; simpl; lia).
  split; [exact Hr|]. split.
  - destruct (relativeLine_Locate_column asciiClusters asciiClustersRev
                (mkRelativeLine ReadDirectionForward 1) st
                asciiClusters_cuts asciiClustersRev_cuts Hr)
      as (_ & Hmove).
    destruct Hmove as (Hpos & Hoff & _); [vm_compute; discriminate|].
    rewrite <- (cursor_eta (relativeLine_Locate _ _ _ _)).
    rewrite Hpos, Hoff. reflexivity.
  - assert (Hr' : inRange (mkState (tree st) (mkCursor 2 1)))
      by (unfold inRange; simpl; lia).
    destruct (relativeLine_Locate_column asciiClusters asciiClustersRev
                (mkRelativeLine ReadDirectionForward 1)
                (mkState (tree st) (mkCursor 2 1))
                asciiClusters_cuts asciiClustersRev_cuts Hr')
      as (_ & Hmove).
    destruct Hmove as (Hpos & Hoff & _); [vm_compute; discriminate|].
    rewrite <- (cursor_eta (relativeLine_Locate _ _ _ _)).
    rewrite Hpos, Hoff. reflexivity.
Defined.

End RelativeLineColumnFacts.

(* ===================================================================== *)
(** * The locators keep the cursor within the text *)
(* ===================================================================== *)

Section LocatorRangeFacts.

Import Strings.String List ListNotations.
Import Locators.
Local Open Scope string_scope.
Local Open Scope list_scope.
Local Open Scope Z_scope.

Lemma skipClusters_eq n : forall segs offset,
  0 <= offset -> offset + clusterRunes segs < 2 ^ 64 ->
  skipClusters n segs offset
  = (skipn n segs, offset + clusterRunes (firstn n segs)).
Proof.
  induction n as [|n IH]; intros segs off H0 Hb.
  - simpl. rewrite clusterRunes_nil, Z.add_0_r. reflexivity.
  - destruct segs as [|seg rest]; simpl.
    + rewrite clusterRunes_nil, Z.add_0_r. reflexivity.
    + rewrite clusterRunes_cons in *.
      pose proof (clusterLen_nonneg seg).
      pose proof (clusterRunes_nonneg rest).
      rewrite add64_small by lia. rewrite IH by lia. f_equal. lia.
Qed.

Lemma firstn_head_le n : forall segs : list Segment,
  clusterRunes (firstn n segs) + clusterLen (hd [] (skipn n segs))
  <= clusterRunes segs.
Proof.
  induction n as [|n IH]; intros segs.
  - destruct segs as [|a r]; cbn [firstn skipn hd];
      rewrite ?clusterRunes_cons, ?clusterRunes_nil.
    + unfold clusterLen. simpl. lia.
    + pose proof (clusterRunes_nonneg r). lia.
  - destruct segs as [|a r]; cbn [firstn skipn hd].
    + rewrite clusterRunes_nil. unfold clusterLen. simpl. lia.
    + rewrite !clusterRunes_cons. specialize (IH r). lia.
Qed.

Lemma findPrevGraphemeCluster_range gcSplit gcSplitRev text pos count :
  cutsIntoClusters gcSplitRev ->
  0 <= pos < 2 ^ 64 -> Z.of_nat (length text) < 2 ^ 64 ->
  0 <= findPrevGraphemeCluster gcSplit gcSplitRev text pos count <= pos.
Proof.
  intros Hb Hp Hl. unfold findPrevGraphemeCluster.
  pose (st := mkState text (mkCursor pos 0)).
  assert (Hr : inRange st) by (split; assumption).
  pose proof (iter_backward_bound gcSplit gcSplitRev st Hb Hr) as Hbb.
  cbn [st tree cursor position] in Hbb.
  set (segs := gcIterForTree gcSplit gcSplitRev text pos
                 ReadDirectionBackward) in *.
  pose proof (clusterRunes_nonneg segs) as Hn.
  rewrite skipClusters_eq by lia. rewrite Z.add_0_l.
  pose proof (firstn_head_le (Z.to_nat (count - 1)) segs) as Hh.
  pose proof (clusterRunes_nonneg (firstn (Z.to_nat (count - 1)) segs)).
  destruct (skipn (Z.to_nat (count - 1)) segs) as [|seg rest]; [lia|].
  cbn [hd] in Hh. pose proof (clusterLen_nonneg seg).
  destruct (HasNewline seg).
  - unfold sub64. rewrite u64_small by lia. lia.
  - rewrite NumRunes_small by lia.
    unfold sub64. rewrite (u64_small (pos - _)) by lia.
    rewrite u64_small by lia. lia.
Qed.

Lemma ontoLine_range gcSplit gcSplitRev st :
  cutsIntoClusters gcSplit -> cutsIntoClusters gcSplitRev -> inRange st ->
  0 <= position (ontoLine_Locate gcSplit gcSplitRev st)
    <= Z.of_nat (length (tree st)).
Proof.
  intros Hf Hb Hr. unfold ontoLine_Locate.
  assert (Hnum : NumChars (tree st) = Z.of_nat (length (tree st))).
  { unfold NumChars. apply u64_small. destruct Hr. lia. }
  rewrite Hnum.
  destruct (Z.leb_spec (Z.of_nat (length (tree st))) (position (cursor st))).
  - cbn [position]. destruct Hr as [Hp Hl].
    apply findPrevGraphemeCluster_range; [exact Hb | lia | exact Hl].
  - unfold findNewlineAtPos.
    destruct (iter_forward_bound gcSplit gcSplitRev st Hf Hr) as [Hb1 _].
    pose proof (forward_runes gcSplit gcSplitRev (tree st)
                  (position (cursor st)) (proj1 Hf)) as Hfr.
    destruct (gcIterForTree gcSplit gcSplitRev (tree st)
                (position (cursor st)) ReadDirectionForward)
      as [|seg rest] eqn:E.
    + cbn [position]. destruct Hr. lia.
    + rewrite clusterRunes_cons in *.
      pose proof (clusterLen_nonneg seg). pose proof (clusterRunes_nonneg rest).
      destruct Hr as [Hp Hl].
      destruct (HasNewline seg); cbn [position]; [|lia].
      rewrite add64_small by lia.
      pose proof (findPrevGraphemeCluster_range gcSplit gcSplitRev (tree st)
                    (position (cursor st) + clusterLen seg) 2 Hb
                    ltac:(lia) Hl).
      lia.
Qed.

Lemma moved_range gcSplit gcSplitRev st dir n :
  cutsIntoClusters gcSplit -> cutsIntoClusters gcSplitRev -> inRange st ->
  position (cursor st) <= Z.of_nat (length (tree st)) ->
  0 <= moved dir (position (cursor st))
         (clusterRunes
            (firstn n (gcIterForTree gcSplit gcSplitRev (tree st)
                         (position (cursor st)) dir)))
    <= Z.of_nat (length (tree st)).
Proof.
  intros Hf Hb Hr Hle.
  pose proof (clusterRunes_firstn_le n
                (gcIterForTree gcSplit gcSplitRev (tree st)
                   (position (cursor st)) dir)) as H1.
  pose proof (clusterRunes_nonneg
                (firstn n (gcIterForTree gcSplit gcSplitRev (tree st)
                             (position (cursor st)) dir))) as H0.
  destruct Hr as [Hp Hl]. destruct dir; unfold moved.
  - rewrite forward_runes in H1 by apply Hf. lia.
  - rewrite backward_runes in H1 by apply Hb. lia.
Qed.

Lemma nonWhitespace_range gcSplit gcSplitRev W loc st :
  cutsIntoClusters gcSplit -> cutsIntoClusters gcSplitRev -> inRange st ->
  position (cursor st) <= Z.of_nat (length (tree st)) ->
  0 <= position (nonWhitespace_Locate gcSplit gcSplitRev W loc st)
    <= Z.of_nat (length (tree st)).
Proof.
  intros Hf Hb Hr Hle. unfold nonWhitespace_Locate.
  pose proof (iter_forward_bound gcSplit gcSplitRev st Hf Hr) as [Hfw _].
  pose proof (iter_backward_bound gcSplit gcSplitRev st Hb Hr) as Hbw.
  pose proof (forward_runes gcSplit gcSplitRev (tree st)
                (position (cursor st)) (proj1 Hf)) as Hfr.
  assert (Hbound : clusterRunes
                     (gcIterForTree gcSplit gcSplitRev (tree st)
                        (position (cursor st)) (nw_direction loc)) < 2 ^ 64).
  { destruct Hr. destruct (nw_direction loc); lia. }
  set (segs := gcIterForTree gcSplit gcSplitRev (tree st)
                 (position (cursor st)) (nw_direction loc)) in *.
  pose proof (clusterRunes_nonneg segs) as Hn.
  rewrite nonWhitespaceLoop_eq by lia. rewrite Z.add_0_l.
  set (ws := whitespaceClusters W segs).
  assert (Hws : clusterRunes ws = clusterRunes (firstn (length ws) segs))
    by (unfold ws at 1; now rewrite (whitespaceClusters_prefix W segs)).
  pose proof (firstn_head_le (S (length ws)) segs) as Hh.
  assert (Hmono : clusterRunes (firstn (length ws) segs)
                  <= clusterRunes (firstn (S (length ws)) segs)).
  { replace (firstn (length ws) segs)
      with (firstn (length ws) (firstn (S (length ws)) segs))
      by (rewrite firstn_firstn; f_equal; lia).
    apply clusterRunes_firstn_le. }
  pose proof (clusterRunes_nonneg ws) as Hws0.
  pose proof (clusterRunes_firstn_le (length ws) segs) as Hwle.
  pose proof (clusterLen_nonneg (hd [] (skipn (S (length ws)) segs))) as Hh0.
  destruct Hr as [Hp Hl].
  assert (Hpos : forall newPosition,
            0 <= newPosition <= Z.of_nat (length (tree st)) ->
            0 <= position (if newPosition =? position (cursor st)
                           then cursor st else mkCursor newPosition 0)
              <= Z.of_nat (length (tree st))).
  { intros np Hnp. destruct (np =? position (cursor st)); cbn; lia. }
  apply Hpos. unfold segs in *.
  destruct (nw_direction loc).
  - unfold add64. rewrite u64_small by lia. lia.
  - destruct (0 <? clusterRunes ws).
    + destruct (skipn (S (length ws))
                  (gcIterForTree gcSplit gcSplitRev (tree st)
                     (position (cursor st)) ReadDirectionBackward))
        as [|seg tl].
      * unfold sub64. rewrite u64_small by lia. lia.
      * cbn [hd] in Hh. pose proof (clusterLen_nonneg seg).
        rewrite add64_small by lia.
        unfold sub64. rewrite u64_small by lia. lia.
    + unfold sub64. rewrite u64_small by lia. lia.
Qed.

Lemma relativeLine_range gcSplit gcSplitRev loc st :
  cutsIntoClusters gcSplit -> cutsIntoClusters gcSplitRev -> inRange st ->
  position (cursor st) <= Z.of_nat (length (tree st)) ->
  0 <= position (relativeLine_Locate gcSplit gcSplitRev loc st)
    <= Z.of_nat (length (tree st)).
Proof.
  intros Hf Hb Hr Hle. unfold relativeLine_Locate.
  pose proof (findStartOfLine_range gcSplit gcSplitRev loc st Hf Hb Hr)
    as Hls.
  destruct (findStartOfLine gcSplit gcSplitRev loc (tree st)
              (position (cursor st))) as [ls nc].
  cbn [fst] in Hls. destruct Hr as [Hp Hl].
  destruct (nc =? 0); [lia|].
  assert (Ht : 0 <= findOffsetFromLineStart gcSplit gcSplitRev st).
  { unfold findOffsetFromLineStart, add64, u64.
    apply Z.mod_pos_bound. lia. }
  rewrite advanceToOffset_eq by (try assumption; lia).
  cbn [position].
  set (line := lineClusters (gcIterForTree gcSplit gcSplitRev (tree st) ls
                               ReadDirectionForward)).
  set (j := columnReached (findOffsetFromLineStart gcSplit gcSplitRev st)
              line).
  pose proof (clusterRunes_nonneg (firstn j line)).
  assert (Hlt : clusterRunes (firstn j line)
                <= clusterRunes
                     (gcIterForTree gcSplit gcSplitRev (tree st) ls
                        ReadDirectionForward)).
  { unfold line. rewrite (lineClusters_prefix _), firstn_firstn.
    apply clusterRunes_firstn_le. }
  rewrite forward_runes in Hlt by apply Hf. lia.
Qed.

(** X12: no locator moves a cursor that is within the text out of it:
    the positions returned by [charInLineLocator], [lineBoundaryLocator],
    [nonWhitespaceLocator] and [relativeLineLocator] are between 0 and
    the length of the text.  [ontoLineLocator] returns such a position
    for any cursor, within the text or past its end. *)
Theorem locators_stay_in_text gcSplit gcSplitRev W st :
  cutsIntoClusters gcSplit -> cutsIntoClusters gcSplitRev -> inRange st ->
  let inText := fun c : cursorState =>
                  0 <= position c <= Z.of_nat (length (tree st)) in
  inText (ontoLine_Locate gcSplit gcSplitRev st) /\
  (inText (cursor st) ->
   (forall loc, inText (charInLine_Locate gcSplit gcSplitRev loc st)) /\
   (forall loc, inText (lineBoundary_Locate gcSplit gcSplitRev loc st)) /\
   (forall loc, inText (nonWhitespace_Locate gcSplit gcSplitRev W loc st)) /\
   (forall loc, inText (relativeLine_Locate gcSplit gcSplitRev loc st))).
Proof.
  intros Hf Hb Hr inText. unfold inText.
  split; [now apply ontoLine_range|].
  intros [_ Hle]. repeat split.
  - unfold charInLine_Locate. cbn [position].
    rewrite findPosition_eq by assumption.
    now apply moved_range.
  - unfold charInLine_Locate. cbn [position].
    rewrite findPosition_eq by assumption.
    now apply moved_range.
  - rewrite (proj1 (lineBoundary_moved gcSplit gcSplitRev loc st Hf Hb Hr)).
    now apply moved_range.
  - rewrite (proj1 (lineBoundary_moved gcSplit gcSplitRev loc st Hf Hb Hr)).
    now apply moved_range.
  - now apply nonWhitespace_range.
  - now apply nonWhitespace_range.
  - now apply relativeLine_range.
  - now apply relativeLine_range.
Qed.

Lemma locators_stay_in_text_witness :
  let st := mkState [97; 98; 10; 99] (mkCursor 9 0) in
  inRange st /\
  0 <= position (ontoLine_Locate asciiClusters asciiClustersRev st) <= 4.
Proof.
  intros st.
  assert (Hr : inRange st) by (unfold inRange; simpl; lia).
  split; [exact Hr|].
  exact (proj1 (locators_stay_in_text asciiClusters asciiClustersRev
                  (fun _ => false) st
                  asciiClusters_cuts asciiClustersRev_cuts Hr)).
Defined.

End LocatorRangeFacts.

(* ===================================================================== *)
(** * Patterns that ParseRegexp accepts *)
(* ===================================================================== *)

Section RegexpParseFacts.

Import List ListNotations Strings.Ascii Strings.String.
Import Regexps.
Local Open Scope char_scope.
Local Open Scope list_scope.
Local Open Scope string_scope.

(** ** From the loop to [ParseRegexp] and back *)

Lemma ParseRegexp_of_loop s fuel r :
  s <> "" ->
  parseLoop fuel s false regexpEmpty = Ok (r, "") ->
  ParseRegexp s = Ok r.
Proof.
  intros Hs Hl. unfold ParseRegexp.
  replace (2 * length s + 2) with (S (2 * length s + 1)) by lia.
  rewrite parseRegexp_S. destruct s as [|c rest]; [congruence|].
  set (s := String c rest) in *.
  pose proof (proj2 (parse_fuel (2 * length s + 1) s false) regexpEmpty
                (le_n _)) as Hf.
  destruct (parseLoop (2 * length s + 1) s false regexpEmpty) as [[r' s']| |]
    eqn:E; [|exfalso|congruence].
  - assert (H1 : parseLoop (fuel + (2 * length s + 1)) s false regexpEmpty
                 = Ok (r', s'))
      by (apply (parseLoop_more_fuel (2 * length s + 1));
          [exact E | discriminate | lia]).
    assert (H2 : parseLoop (fuel + (2 * length s + 1)) s false regexpEmpty
                 = Ok (r, ""))
      by (apply (parseLoop_more_fuel fuel);
          [exact Hl | discriminate | lia]).
    congruence.
  - assert (H1 : parseLoop (fuel + (2 * length s + 1)) s false regexpEmpty
                 = Err msg)
      by (apply (parseLoop_more_fuel (2 * length s + 1));
          [exact E | discriminate | lia]).
    assert (H2 : parseLoop (fuel + (2 * length s + 1)) s false regexpEmpty
                 = Ok (r, ""))
      by (apply (parseLoop_more_fuel fuel);
          [exact Hl | discriminate | lia]).
    congruence.
Qed.

Lemma ParseRegexp_loop s r :
  ParseRegexp s = Ok r ->
  s <> "" /\
  parseRegexp (2 * length s + 2) s false = Ok (r, "") /\
  parseLoop (2 * length s + 1) s false regexpEmpty = Ok (r, "").
Proof.
  unfold ParseRegexp.
  destruct (parseRegexp (2 * length s + 2) s false) as [[r' s']| |] eqn:E;
    try discriminate.
  intros [= <-].
  pose proof (parseRegexp_top_rest _ _ _ _ E) as ->.
  assert (Hs : s <> "").
  { intros ->. simpl in E. discriminate. }
  split; [exact Hs|]. split; [reflexivity|].
  replace (2 * length s + 2) with (S (2 * length s + 1)) in E by lia.
  rewrite parseRegexp_S in E.
  destruct s as [|c rest]; [congruence | exact E].
Qed.

(** ** A successful parse is never empty at the top *)

Lemma classLoop_result : forall s negated chars r s',
  classLoop s negated chars = Ok (r, s') ->
  exists chars', r = regexpCharClass negated chars'.
Proof.
  assert (H : forall s,
    (forall negated chars r s',
        classLoop s negated chars = Ok (r, s') ->
        exists chars', r = regexpCharClass negated chars') /\
    (forall c negated chars r s',
        classLoop (String c s) negated chars = Ok (r, s') ->
        exists chars', r = regexpCharClass negated chars')).
  { induction s as [|a s [IH1 IH2]].
    - split; [intros; discriminate|].
      intros c negated chars r s'. rewrite classLoop_String.
      destruct (c =? "]")%char; [intros [= <- _]; eauto|].
      destruct (c =? "\")%char; discriminate.
    - split; [apply IH2|].
      intros c negated chars r s'. rewrite classLoop_String.
      destruct (c =? "]")%char; [intros [= <- _]; eauto|].
      destruct (c =? "\")%char.
      + destruct ((a =? "[") || (a =? "]") || (a =? "^") || (a =? "\"))%char;
          [apply IH1 | discriminate].
      + apply IH2. }
  intros s. apply H.
Qed.

Lemma appendAtom_nonEmpty regexp next :
  isEmpty next = false -> isEmpty (appendAtom regexp next) = false.
Proof. unfold appendAtom. destruct (isEmpty regexp); auto. Qed.

Lemma parseSimpleCase_nonEmpty c rest regexp regexp' rest' :
  parseSimpleCase c rest regexp = Ok (regexp', rest') ->
  isEmpty regexp' = false.
Proof.
  unfold parseSimpleCase.
  repeat match goal with
         | |- context [if (?x =? ?y)%char then _ else _] =>
             destruct (x =? y)%char
         end;
    try (destruct regexp; intros [= <- _]; reflexivity);
    try (intros [= <- _]; apply appendAtom_nonEmpty; reflexivity).
  - simpl. destruct rest as [|c2 rest2]; [discriminate|].
    intros [= <- _]. apply appendAtom_nonEmpty. reflexivity.
  - destruct (parseCharacterClass (String c rest)) as [[r s1]| |] eqn:Hc;
      try discriminate.
    intros [= <- _]. apply appendAtom_nonEmpty.
    unfold parseCharacterClass in Hc.
    destruct rest as [|c2 rest2]; [discriminate|].
    destruct (c2 =? "^")%char;
      apply classLoop_result in Hc; destruct Hc as [cs ->]; reflexivity.
Qed.

Lemma parseLoop_nonEmpty fuel : forall s inParen regexp r s',
  isEmpty regexp = false ->
  parseLoop fuel s inParen regexp = Ok (r, s') -> isEmpty r = false.
Proof.
  induction fuel as [|fuel IH]; intros s inParen regexp r s' Hne;
    [discriminate|].
  rewrite parseLoop_S.
  destruct s as [|c rest]; [intros [= <- _]; exact Hne|].
  destruct (c =? "(")%char.
  { destruct (parseRegexp fuel rest true) as [[nr s1]| |]; try discriminate.
    destruct s1 as [|c1 s1']; [discriminate|].
    destruct (c1 =? ")")%char; [|discriminate].
    apply IH. apply appendAtom_nonEmpty. reflexivity. }
  destruct (c =? ")")%char.
  { destruct inParen; [|discriminate]. intros [= <- _]. exact Hne. }
  destruct (c =? "|")%char.
  { destruct (parseRegexp fuel rest inParen) as [[nr s1]| |];
      try discriminate.
    rewrite Hne. apply IH. reflexivity. }
  destruct (parseSimpleCase c rest regexp) as [[nr s1]| |] eqn:Hs;
    try discriminate.
  apply IH. exact (parseSimpleCase_nonEmpty _ _ _ _ _ Hs).
Qed.

Lemma parseRegexp_top_nonEmpty fuel s r s' :
  parseRegexp fuel s false = Ok (r, s') -> isEmpty r = false.
Proof.
  destruct fuel as [|fuel]; [discriminate|]. rewrite parseRegexp_S.
  destruct s as [|c rest]; [discriminate|].
  destruct fuel as [|fuel]; [discriminate|]. rewrite parseLoop_S.
  destruct (c =? "(")%char.
  { destruct (parseRegexp fuel rest true) as [[nr s1]| |]; try discriminate.
    destruct s1 as [|c1 s1']; [discriminate|].
    destruct (c1 =? ")")%char; [|discriminate].
    apply parseLoop_nonEmpty. reflexivity. }
  destruct (c =? ")")%char; [discriminate|].
  destruct (c =? "|")%char.
  { destruct (parseRegexp fuel rest false) as [[nr s1]| |];
      discriminate. }
  destruct (parseSimpleCase c rest regexpEmpty) as [[nr s1]| |] eqn:Hs;
    try discriminate.
  apply parseLoop_nonEmpty. exact (parseSimpleCase_nonEmpty _ _ _ _ _ Hs).
Qed.

Lemma ParseRegexp_nonEmpty s r :
  ParseRegexp s = Ok r -> isEmpty r = false.
Proof.
  intros H. destruct (ParseRegexp_loop s r H) as (_ & Hp & _).
  exact (parseRegexp_top_nonEmpty _ _ _ _ Hp).
Qed.

(** X13: a pattern that [ParseRegexp] accepts is not the empty string,
    and the expression returned is not [regexpEmpty], which only occurs
    below the top (as the left operand of the union that "?" makes, or
    inside "()"). *)
Theorem ParseRegexp_never_empty s r :
  ParseRegexp s = Ok r -> s <> "" /\ r <> regexpEmpty.
Proof.
  intros H. destruct (ParseRegexp_loop s r H) as (Hs & Hp & _).
  split; [exact Hs|].
  apply parseRegexp_top_nonEmpty in Hp. intros ->. discriminate.
Qed.

(** ** Sequences of atoms *)

Lemma isOrdinary_tests c :
  isOrdinary c = true ->
  (c =? "(")%char = false /\ (c =? ")")%char = false /\
  (c =? "|")%char = false /\ (c =? "*")%char = false /\
  (c =? "+")%char = false /\ (c =? "?")%char = false /\
  (c =? "\")%char = false /\ (c =? "[")%char = false /\
  (c =? ".")%char = false /\ (c =? "^")%char = false /\
  (c =? "$")%char = false.
Proof.
  unfold isOrdinary. rewrite negb_true_iff, !orb_false_iff. tauto.
Qed.

Lemma parseLoop_atom fuel a rest inParen regexp :
  atomOk a ->
  parseLoop (S fuel) (atomText a ++ rest) inParen regexp
  = parseLoop fuel rest inParen (appendAtom regexp (atomRegexp a)).
Proof.
  intros Ha. rewrite parseLoop_S. destruct a; simpl in Ha; try reflexivity.
  apply isOrdinary_tests in Ha.
  destruct Ha as (H1 & H2 & H3 & H4 & H5 & H6 & H7 & H8 & H9 & H10 & H11).
  cbn [atomText append]. unfold parseSimpleCase.
  now rewrite H1, H2, H3, H4, H5, H6, H7, H8, H9, H10, H11.
Qed.

Lemma parseLoop_atoms inParen : forall atoms regexp fuel,
  Forall atomOk atoms -> List.length atoms < fuel ->
  parseLoop fuel (atomsText atoms) inParen regexp
  = Ok (concatAtoms regexp atoms, "").
Proof.
  induction atoms as [|a rest IH]; intros regexp fuel Hok Hf.
  - destruct fuel; [simpl in Hf; lia | reflexivity].
  - destruct fuel as [|fuel]; [simpl in Hf; lia|].
    inversion Hok as [|? ? Ha Hrest]; subst.
    cbn [atomsText]. rewrite parseLoop_atom by exact Ha.
    rewrite IH by (try assumption; simpl in Hf; lia). reflexivity.
Qed.

Lemma atomsText_nonEmpty a atoms : atomsText (a :: atoms) <> "".
Proof. destruct a; discriminate. Qed.

(** X14: a pattern made of ordinary bytes, escaped bytes and the atoms
    ".", "^" and "$" is accepted by [ParseRegexp], and read as the
    concatenation of its atoms nested to the left; a byte behind a
    backslash is read as that byte, whatever it is. *)
Theorem ParseRegexp_atoms a atoms :
  Forall atomOk (a :: atoms) ->
  ParseRegexp (atomsText (a :: atoms))
  = Ok (concatAtoms regexpEmpty (a :: atoms)).
Proof.
  intros Hok.
  apply (ParseRegexp_of_loop _ (S (List.length (a :: atoms)))).
  - apply atomsText_nonEmpty.
  - apply parseLoop_atoms; [exact Hok | lia].
Qed.

(** ** Character classes *)

Lemma append_nil_r s : s ++ "" = s.
Proof. induction s as [|c s IH]; simpl; [reflexivity | now rewrite IH]. Qed.

Lemma classLoop_members negated t : forall members chars,
  Forall memberOk members ->
  classLoop (membersText members ++ String "]" t) negated chars
  = Ok (regexpCharClass negated (chars ++ map memberByte members)%list, t).
Proof.
  induction members as [|m rest IH]; intros chars Hok.
  - cbn [membersText append map]. rewrite classLoop_String. cbn.
    now rewrite app_nil_r.
  - inversion Hok as [|? ? Hm Hrest]; subst.
    destruct m as [c | c]; cbn [membersText memberText append map memberByte];
      rewrite classLoop_String.
    + destruct Hm as [H1 H2]. rewrite H1, H2.
      rewrite IH by exact Hrest. now rewrite <- app_assoc.
    + cbn in Hm |- *. rewrite Hm.
      rewrite IH by exact Hrest. now rewrite <- app_assoc.
Qed.

Lemma parseCharacterClass_members negated members t :
  Forall memberOk members ->
  (negated = false -> startsWithCaret members = false) ->
  parseCharacterClass (classText negated members ++ t)
  = Ok (regexpCharClass negated (map memberByte members), t).
Proof.
  intros Hok Hc. unfold classText, parseCharacterClass.
  cbn [append]. destruct negated.
  - cbn [append]. cbn.
    rewrite append_assoc. cbn [append].
    exact (classLoop_members true t members [] Hok).
  - specialize (Hc eq_refl). cbn [append].
    rewrite append_assoc. cbn [append].
    pose proof (classLoop_members false t members [] Hok) as E.
    cbn [app] in E.
    destruct (membersText members ++ String "]" t) as [|c' rest'] eqn:Em.
    + destruct members as [|[c|c] ms]; discriminate.
    + replace ((c' =? "^")%char) with false; [exact E|].
      destruct members as [|[c|c] ms]; cbn in Em; injection Em as <- _;
        [reflexivity | symmetry; exact Hc | reflexivity].
Qed.

(** X15: a character class "[...]" or "[^...]" whose members are bytes
    other than "]" and the backslash, or one of "[", "]", "^" and the
    backslash behind a backslash, is accepted by [ParseRegexp] and read
    as the class of its members in order, negated after "[^"; the
    members may be none. *)
Theorem ParseRegexp_character_class negated members :
  Forall memberOk members ->
  (negated = false -> startsWithCaret members = false) ->
  ParseRegexp (classText negated members)
  = Ok (regexpCharClass negated (map memberByte members)).
Proof.
  intros Hok Hc.
  apply (ParseRegexp_of_loop _ 2); [discriminate|].
  rewrite parseLoop_S. unfold classText at 1.
  cbn [Ascii.eqb Bool.eqb andb]. unfold parseSimpleCase.
  cbn [Ascii.eqb Bool.eqb andb].
  change (String "[" ((if negated then "^" else "")
                      ++ membersText members ++ "]"))
    with (classText negated members).
  pose proof (parseCharacterClass_members negated members "" Hok Hc) as E.
  rewrite append_nil_r in E. rewrite E. reflexivity.
Qed.

(** ** Parentheses *)

Lemma parse_close fuel : forall s,
  (forall r, parseRegexp fuel s true = Ok (r, "") ->
     forall u, parseRegexp fuel (s ++ String ")" u) true
               = Ok (r, String ")" u)) /\
  (forall regexp r, parseLoop fuel s true regexp = Ok (r, "") ->
     forall u, parseLoop fuel (s ++ String ")" u) true regexp
               = Ok (r, String ")" u)).
Proof.
  induction fuel as [|fuel IH]; intros s.
  - split; intros; discriminate.
  - split.
    + intros r H u. rewrite parseRegexp_S in *.
      destruct s as [|c0 rest]; [discriminate|].
      change (String c0 rest ++ String ")" u)
        with (String c0 (rest ++ String ")" u)).
      change (String c0 (rest ++ String ")" u))
        with (String c0 rest ++ String ")" u).
      now apply IH.
    + intros regexp r H u. rewrite parseLoop_S in H.
      destruct s as [|c0 rest].
      { injection H as <-. reflexivity. }
      change (String c0 rest ++ String ")" u)
        with (String c0 (rest ++ String ")" u)).
      rewrite parseLoop_S.
      destruct (c0 =? "(")%char.
      { destruct (parseRegexp fuel rest true) as [[nr s1]| |] eqn:Hin;
          try discriminate.
        destruct s1 as [|c1 s1']; [discriminate|].
        rewrite (proj1 (parse_stable fuel rest true) _ _ _ Hin
                   (String ")" u)).
        change (String c1 s1' ++ String ")" u)
          with (String c1 (s1' ++ String ")" u)).
        cbv beta iota.
        destruct (c1 =? ")")%char; [|discriminate].
        now apply IH. }
      destruct (c0 =? ")")%char; [discriminate|].
      destruct (c0 =? "|")%char.
      { destruct (parseRegexp fuel rest true) as [[nr s1]| |] eqn:Hin;
          try discriminate.
        destruct (isEmpty regexp); [discriminate|].
        destruct s1 as [|c1 s1'].
        - rewrite (proj1 (IH rest) _ Hin u).
          destruct fuel as [|fuel']; [discriminate|].
          injection H as <-. reflexivity.
        - rewrite (proj1 (parse_stable fuel rest true) _ _ _ Hin
                     (String ")" u)).
          now apply IH. }
      destruct (parseSimpleCase c0 rest regexp) as [[nr s1]| |] eqn:Hs;
        try discriminate.
      rewrite (parseSimpleCase_extend (String ")" u) _ _ _ _ _ Hs).
      now apply IH.
Qed.

(** X16: a pattern that [ParseRegexp] accepts is accepted in parentheses
    too, and read as the parenthesised expression of what it was read
    as alone. *)
Theorem ParseRegexp_in_parens s r :
  ParseRegexp s = Ok r ->
  ParseRegexp (String "(" (s ++ ")")) = Ok (regexpParenExpr r).
Proof.
  intros H. destruct (ParseRegexp_loop s r H) as (_ & Hp & _).
  apply (proj1 (parse_inside_parens _ s)) in Hp.
  pose proof (proj1 (parse_close _ s) r Hp "") as Hc.
  apply (ParseRegexp_of_loop _ (S (2 * length s + 2))); [discriminate|].
  rewrite parseLoop_S. cbn [Ascii.eqb Bool.eqb andb].
  rewrite Hc. cbn [Ascii.eqb Bool.eqb andb].
  replace (2 * length s + 2) with (S (2 * length s + 1)) by lia.
  reflexivity.
Qed.

(** ** What is left of the input is an end of it *)

Lemma classLoop_suffix : forall s negated chars r s',
  classLoop s negated chars = Ok (r, s') -> exists p, s = p ++ s'.
Proof.
  assert (H : forall s,
    (forall negated chars r s',
        classLoop s negated chars = Ok (r, s') -> exists p, s = p ++ s') /\
    (forall c negated chars r s',
        classLoop (String c s) negated chars = Ok (r, s') ->
        exists p, String c s = p ++ s')).
  { induction s as [|a s [IH1 IH2]].
    - split; [intros; discriminate|].
      intros c negated chars r s'. rewrite classLoop_String.
      destruct (c =? "]")%char;
        [intros [= _ <-]; now exists (String c "")|].
      destruct (c =? "\")%char; discriminate.
    - split; [apply IH2|].
      intros c negated chars r s'. rewrite classLoop_String.
      destruct (c =? "]")%char;
        [intros [= _ <-]; now exists (String c "")|].
      destruct (c =? "\")%char.
      + destruct ((a =? "[") || (a =? "]") || (a =? "^") || (a =? "\"))%char;
          [|discriminate].
        intros H. apply IH1 in H. destruct H as [p ->].
        now exists (String c (String a p)).
      + intros H. apply IH2 in H. destruct H as [p Hp].
        exists (String c p). simpl. now rewrite Hp. }
  intros s. apply H.
Qed.

Lemma parseSimpleCase_suffix c rest regexp regexp' rest' :
  parseSimpleCase c rest regexp = Ok (regexp', rest') ->
  exists p, rest = p ++ rest'.
Proof.
  unfold parseSimpleCase.
  repeat match goal with
         | |- context [if (?x =? ?y)%char then _ else _] =>
             destruct (x =? y)%char
         end;
    try (destruct regexp; intros [= _ <-]; now exists "");
    try (intros [= _ <-]; now exists "").
  - simpl. destruct rest as [|c2 rest2]; [discriminate|].
    intros [= _ <-]. now exists (String c2 "").
  - unfold parseCharacterClass.
    destruct rest as [|c2 rest2]; [discriminate|].
    destruct (c2 =? "^")%char.
    + destruct (classLoop rest2 true []) as [[r s1]| |] eqn:Hc;
        try discriminate.
      intros [= _ <-]. apply classLoop_suffix in Hc. destruct Hc as [p ->].
      now exists (String c2 p).
    + destruct (classLoop (String c2 rest2) false []) as [[r s1]| |] eqn:Hc;
        try discriminate.
      intros [= _ <-]. apply classLoop_suffix in Hc. exact Hc.
Qed.

Lemma parse_suffix fuel : forall s inParen,
  (forall r s', parseRegexp fuel s inParen = Ok (r, s') ->
                exists p, s = p ++ s') /\
  (forall regexp r s', parseLoop fuel s inParen regexp = Ok (r, s') ->
                       exists p, s = p ++ s').
Proof.
  induction fuel as [|fuel IH]; intros s inParen.
  - split; intros; discriminate.
  - split.
    + intros r s'. rewrite parseRegexp_S.
      destruct s as [|c rest]; [discriminate|]. apply IH.
    + intros regexp r s'. rewrite parseLoop_S.
      destruct s as [|c rest]; [intros [= _ <-]; now exists ""|].
      destruct (c =? "(")%char.
      { destruct (parseRegexp fuel rest true) as [[nr s1]| |] eqn:Hin;
          try discriminate.
        apply IH in Hin. destruct Hin as [p1 ->].
        destruct s1 as [|c1 s1']; [discriminate|].
        destruct (c1 =? ")")%char; [|discriminate].
        intros H. apply IH in H. destruct H as [p2 ->].
        exists (String c (p1 ++ String c1 p2)).
        simpl. f_equal. rewrite append_assoc. reflexivity. }
      destruct (c =? ")")%char.
      { destruct inParen; [|discriminate]. intros [= _ <-]. now exists "". }
      destruct (c =? "|")%char.
      { destruct (parseRegexp fuel rest inParen) as [[nr s1]| |] eqn:Hin;
          try discriminate.
        apply IH in Hin. destruct Hin as [p1 ->].
        destruct (isEmpty regexp); [discriminate|].
        intros H. apply IH in H. destruct H as [p2 ->].
        exists (String c (p1 ++ p2)).
        simpl. f_equal. rewrite append_assoc. reflexivity. }
      destruct (parseSimpleCase c rest regexp) as [[nr s1]| |] eqn:Hs;
        try discriminate.
      apply parseSimpleCase_suffix in Hs. destruct Hs as [p1 ->].
      intros H. apply IH in H. destruct H as [p2 ->].
      exists (String c (p1 ++ p2)).
      simpl. f_equal. rewrite append_assoc. reflexivity.
Qed.

Lemma noUnion_suffix : forall p s, noUnion (p ++ s) -> noUnion s.
Proof.
  induction p as [|c p IH]; intros s H; [exact H|].
  apply IH. exact (proj2 H).
Qed.

(** ** Reading on after a pattern without a union bar *)

Lemma parse_continue fuel : forall s regexp r,
  noUnion s ->
  parseLoop fuel s false regexp = Ok (r, "") ->
  forall t fuel2 res,
    parseLoop fuel2 t false r = res -> res <> OutOfFuel ->
    parseLoop (fuel + fuel2) (s ++ t) false regexp = res.
Proof.
  induction fuel as [|fuel IH]; intros s regexp r Hn H t fuel2 res Ht Hres;
    [discriminate|].
  rewrite parseLoop_S in H.
  destruct s as [|c0 rest].
  { injection H as <-.
    apply (parseLoop_more_fuel fuel2); [exact Ht | exact Hres | lia]. }
  destruct Hn as [Hbar Hn].
  change (String c0 rest ++ t) with (String c0 (rest ++ t)).
  change (S fuel + fuel2) with (S (fuel + fuel2)).
  rewrite parseLoop_S.
  destruct (c0 =? "(")%char.
  { destruct (parseRegexp fuel rest true) as [[nr s1]| |] eqn:Hin;
      try discriminate.
    destruct s1 as [|c1 s1']; [discriminate|].
    pose proof (proj1 (parse_stable fuel rest true) _ _ _ Hin t) as Hst.
    rewrite (parseRegexp_more_fuel fuel (fuel + fuel2) _ _ _ Hst)
      by (try discriminate; lia).
    change (String c1 s1' ++ t) with (String c1 (s1' ++ t)).
    cbv beta iota.
    destruct (c1 =? ")")%char; [|discriminate].
    apply (IH s1' _ r); try assumption.
    destruct (proj1 (parse_suffix fuel rest true) _ _ Hin) as [p Hp].
    rewrite Hp in Hn. apply noUnion_suffix in Hn. exact (proj2 Hn). }
  destruct (c0 =? ")")%char; [discriminate|].
  rewrite Hbar in *.
  destruct (parseSimpleCase c0 rest regexp) as [[nr s1]| |] eqn:Hs;
    try discriminate.
  rewrite (parseSimpleCase_extend t _ _ _ _ _ Hs).
  apply (IH s1 _ r); try assumption.
  destruct (parseSimpleCase_suffix _ _ _ _ _ Hs) as [p Hp].
  rewrite Hp in Hn. now apply noUnion_suffix in Hn.
Qed.

Lemma ParseRegexp_continue s r t fuel2 r' :
  noUnion s -> ParseRegexp s = Ok r ->
  parseLoop fuel2 t false r = Ok (r', "") ->
  ParseRegexp (s ++ t) = Ok r'.
Proof.
  intros Hn H Ht. destruct (ParseRegexp_loop s r H) as (Hs & _ & Hl).
  apply (ParseRegexp_of_loop _ (2 * length s + 1 + fuel2)).
  - destruct s; [congruence | discriminate].
  - apply (parse_continue _ s regexpEmpty r Hn Hl t fuel2);
      [exact Ht | discriminate].
Qed.

(** X17: the union bar binds weakest and nests to the right: after a
    pattern without a union bar that is read as [r1], a union bar and a
    pattern read as [r2] (with or without union bars of its own) are
    read as the union of [r1] and [r2]. *)
Theorem ParseRegexp_union s1 s2 r1 r2 :
  noUnion s1 -> ParseRegexp s1 = Ok r1 -> ParseRegexp s2 = Ok r2 ->
  ParseRegexp (s1 ++ String "|" s2) = Ok (regexpUnion r1 r2).
Proof.
  intros Hn H1 H2. destruct (ParseRegexp_loop s2 r2 H2) as (_ & Hp & _).
  pose proof (ParseRegexp_nonEmpty s1 r1 H1) as Hne.
  apply (ParseRegexp_continue s1 r1 _ (S (2 * length s2 + 2)) _ Hn H1).
  rewrite parseLoop_S. cbn [Ascii.eqb Bool.eqb andb]. rewrite Hp.
  rewrite Hne.
  replace (2 * length s2 + 2) with (S (2 * length s2 + 1)) by lia.
  reflexivity.
Qed.

(** X18: a quantifier after a pattern without a union bar applies to the
    last operand of the pattern: to the right operand when the pattern
    was read as a concatenation, and to the whole expression otherwise.
    "*" makes a star of it, "+" the concatenation of it with its star,
    and "?" the union of [regexpEmpty] with it. *)
Theorem ParseRegexp_quantifier s r :
  noUnion s -> ParseRegexp s = Ok r ->
  ParseRegexp (s ++ "*") = Ok (onLast regexpStar r) /\
  ParseRegexp (s ++ "+")
  = Ok (onLast (fun x => regexpConcat x (regexpStar x)) r) /\
  ParseRegexp (s ++ "?") = Ok (onLast (regexpUnion regexpEmpty) r).
Proof.
  intros Hn H. pose proof (ParseRegexp_nonEmpty s r H) as Hne.
  repeat split;
    apply (ParseRegexp_continue s r _ 2 _ Hn H);
    destruct r; try discriminate; reflexivity.
Qed.

(** ** Examples *)

Lemma ParseRegexp_never_empty_witness :
  "a?" <> "" /\ regexpUnion regexpEmpty (regexpChar "a") <> regexpEmpty.
Proof. apply (ParseRegexp_never_empty "a?"). reflexivity. Defined.

Lemma ParseRegexp_atoms_witness :
  ParseRegexp "a\*$"
  = Ok (regexpConcat (regexpConcat (regexpChar "a") (regexpChar "*"))
                     regexpEndOfText).
Proof.
  apply (ParseRegexp_atoms (atomChar "a") [atomEscaped "*"; atomEnd]).
  repeat constructor.
Defined.

Lemma ParseRegexp_character_class_witness :
  ParseRegexp "[^a\]]" = Ok (regexpCharClass true ["a"; "]"]%char) /\
  ParseRegexp "[]" = Ok (regexpCharClass false []).
Proof.
  split.
  - apply (ParseRegexp_character_class true
             [memberChar "a"; memberEscaped "]"]).
    + repeat constructor.
    + discriminate.
  - apply (ParseRegexp_character_class false []).
    + constructor.
    + reflexivity.
Defined.

Lemma ParseRegexp_in_parens_witness :
  ParseRegexp "(ab)"
  = Ok (regexpParenExpr (regexpConcat (regexpChar "a") (regexpChar "b"))).
Proof. apply (ParseRegexp_in_parens "ab"). reflexivity. Defined.

Lemma ParseRegexp_union_witness :
  ParseRegexp "ab|c|d"
  = Ok (regexpUnion (regexpConcat (regexpChar "a") (regexpChar "b"))
                    (regexpUnion (regexpChar "c") (regexpChar "d"))).
Proof.
  apply (ParseRegexp_union "ab" "c|d").
  - repeat split.
  - reflexivity.
  - reflexivity.
Defined.

Lemma ParseRegexp_quantifier_witness :
  ParseRegexp "ab*"
  = Ok (regexpConcat (regexpChar "a") (regexpStar (regexpChar "b"))) /\
  ParseRegexp "(ab)+"
  = Ok (regexpConcat
          (regexpParenExpr (regexpConcat (regexpChar "a") (regexpChar "b")))
          (regexpStar
             (regexpParenExpr
                (regexpConcat (regexpChar "a") (regexpChar "b"))))).
Proof.
  split.
  - apply (proj1 (ParseRegexp_quantifier "ab" _ ltac:(repeat split)
                    eq_refl)).
  - apply (proj1 (proj2 (ParseRegexp_quantifier "(ab)" _
                           ltac:(repeat split) eq_refl))).
Defined.

End RegexpParseFacts.

(* ===================================================================== *)
(** * The errors ParseRegexp returns *)
(* ===================================================================== *)

Section RegexpErrorFacts.

Import List ListNotations Strings.Ascii Strings.String.
Import Regexps.
Local Open Scope char_scope.
Local Open Scope list_scope.
Local Open Scope string_scope.

(** ** The error of a pattern that goes wrong after a well-formed start *)

Lemma errOrOut_bind {A B} e (res : Result A) (k : A -> Result B) :
  errOrOut e res ->
  errOrOut e match res with
             | Ok a => k a
             | Err e' => Err e'
             | OutOfFuel => OutOfFuel
             end.
Proof. intros [-> | ->]; [left | right]; reflexivity. Qed.

Lemma parse_then_err e t :
  tailErr e t ->
  forall fuel s,
    (forall r, parseRegexp fuel s false = Ok (r, "") ->
               errOrOut e (parseRegexp fuel (s ++ t) false)) /\
    (forall regexp r, parseLoop fuel s false regexp = Ok (r, "") ->
                      errOrOut e (parseLoop fuel (s ++ t) false regexp)).
Proof.
  intros Ht. induction fuel as [|fuel IH]; intros s.
  - split; intros; discriminate.
  - split.
    + intros r H. rewrite parseRegexp_S in *.
      destruct s as [|c0 rest]; [discriminate|].
      change (String c0 rest ++ t) with (String c0 (rest ++ t)).
      change (String c0 (rest ++ t)) with (String c0 rest ++ t).
      now apply IH with (r := r).
    + intros regexp r H. rewrite parseLoop_S in H.
      destruct s as [|c0 rest]; [apply Ht|].
      change (String c0 rest ++ t) with (String c0 (rest ++ t)).
      rewrite parseLoop_S.
      destruct (c0 =? "(")%char.
      { destruct (parseRegexp fuel rest true) as [[nr s1]| |] eqn:Hin;
          try discriminate.
        destruct s1 as [|c1 s1']; [discriminate|].
        rewrite (proj1 (parse_stable fuel rest true) _ _ _ Hin t).
        change (String c1 s1' ++ t) with (String c1 (s1' ++ t)).
        cbv beta iota.
        destruct (c1 =? ")")%char; [|discriminate].
        now apply IH with (r := r). }
      destruct (c0 =? ")")%char; [discriminate|].
      destruct (c0 =? "|")%char.
      { destruct (parseRegexp fuel rest false) as [[nr s1]| |] eqn:Hin;
          try discriminate.
        pose proof (parseRegexp_top_rest _ _ _ _ Hin) as ->.
        apply errOrOut_bind with (k := fun p => let '(nextRegexp, afterInner) := p in
            if isEmpty regexp then Err "Expected characters before union"
            else parseLoop fuel afterInner false
                   (regexpUnion regexp nextRegexp)).
        exact (proj1 (IH rest) _ Hin). }
      destruct (parseSimpleCase c0 rest regexp) as [[nr s1]| |] eqn:Hs;
        try discriminate.
      rewrite (parseSimpleCase_extend t _ _ _ _ _ Hs).
      now apply IH with (r := r).
Qed.

Lemma ParseRegexp_errOrOut s e :
  errOrOut e (parseRegexp (2 * length s + 2) s false) ->
  ParseRegexp s = Err e.
Proof.
  intros [H | H]; unfold ParseRegexp.
  - now rewrite H.
  - exfalso. exact (proj1 (parse_fuel _ s false) (le_n _) H).
Qed.

Lemma ParseRegexp_tailErr q e t :
  prefixOk q -> tailErr e t -> ParseRegexp (q ++ t) = Err e.
Proof.
  intros Hq Ht. apply ParseRegexp_errOrOut.
  destruct Hq as [-> | [r Hq]].
  - change ("" ++ t) with t.
    replace (2 * length t + 2) with (S (2 * length t + 1)) by lia.
    rewrite parseRegexp_S.
    destruct t as [|c u]; [|apply Ht].
    destruct (Ht 1 regexpEmpty); discriminate.
  - destruct (ParseRegexp_loop q r Hq) as (_ & Hp & _).
    apply (proj1 (parse_then_err e t Ht _ q) r).
    apply (parseRegexp_more_fuel (2 * length q + 2));
      [exact Hp | discriminate | rewrite length_append; lia].
Qed.

(** ** Escapes in a character class *)

Lemma classLoop_bad_escape negated c u : forall members chars,
  Forall memberOk members -> isClassEscape c = false ->
  classLoop (membersText members ++ String "\" (String c u)) negated chars
  = Err "Unrecognized escape sequence in character class".
Proof.
  induction members as [|m rest IH]; intros chars Hok Hc.
  - cbn [membersText append]. rewrite classLoop_String.
    cbn [Ascii.eqb Bool.eqb andb]. unfold isClassEscape in Hc.
    now rewrite Hc.
  - inversion Hok as [|? ? Hm Hrest]; subst.
    destruct m as [c1 | c1];
      cbn [membersText memberText append]; rewrite classLoop_String.
    + destruct Hm as [H1 H2]. rewrite H1, H2. now apply IH.
    + cbn in Hm |- *. rewrite Hm. now apply IH.
Qed.

Lemma classLoop_open_escape negated : forall members chars,
  Forall memberOk members ->
  classLoop (membersText members ++ "\") negated chars
  = Err "Invalid escape sequence in character class".
Proof.
  induction members as [|m rest IH]; intros chars Hok.
  - reflexivity.
  - inversion Hok as [|? ? Hm Hrest]; subst.
    destruct m as [c1 | c1];
      cbn [membersText memberText append]; rewrite classLoop_String.
    + destruct Hm as [H1 H2]. rewrite H1, H2. now apply IH.
    + cbn in Hm |- *. rewrite Hm. now apply IH.
Qed.

Lemma parseCharacterClass_first negated members t :
  (negated = false -> startsWithCaret members = false) ->
  match t with
  | EmptyString => True
  | String c _ => (c =? "^")%char = false
  end ->
  parseCharacterClass
    (String "[" ((if negated then "^" else "") ++ membersText members ++ t))
  = classLoop (membersText members ++ t) negated [].
Proof.
  intros Hc Ht. unfold parseCharacterClass. destruct negated.
  - reflexivity.
  - specialize (Hc eq_refl). cbn [append].
    destruct (membersText members ++ t) as [|c' rest'] eqn:Em.
    + reflexivity.
    + replace ((c' =? "^")%char) with false; [reflexivity|].
      destruct members as [|[c|c] ms]; cbn in Em.
      * subst t. symmetry. exact Ht.
      * injection Em as <- _. symmetry. exact Hc.
      * injection Em as <- _. reflexivity.
Qed.

Lemma class_tailErr e negated members t :
  (negated = false -> startsWithCaret members = false) ->
  match t with
  | EmptyString => True
  | String c _ => (c =? "^")%char = false
  end ->
  classLoop (membersText members ++ t) negated [] = Err e ->
  tailErr e (String "[" ((if negated then "^" else "")
                         ++ membersText members ++ t)).
Proof.
  intros Hc Hfirst He fuel regexp. destruct fuel as [|fuel]; [now right|].
  left. rewrite parseLoop_S.
  cbn [Ascii.eqb Bool.eqb andb]. unfold parseSimpleCase.
  cbn [Ascii.eqb Bool.eqb andb].
  rewrite parseCharacterClass_first by assumption. now rewrite He.
Qed.

(** X19: in a character class a backslash may only stand before "[",
    "]", "^" or a backslash.  After a well-formed start of the pattern
    (or none) and well-formed members of the class, a backslash before
    any other byte makes [ParseRegexp] return the error "Unrecognized
    escape sequence in character class", and a backslash that ends the
    pattern the error "Invalid escape sequence in character class",
    whatever stood before the class; outside a class a backslash may
    stand before any byte. *)
Theorem ParseRegexp_class_escape q negated members :
  prefixOk q -> Forall memberOk members ->
  (negated = false -> startsWithCaret members = false) ->
  (forall c u,
      isClassEscape c = false ->
      ParseRegexp (q ++ String "[" ((if negated then "^" else "")
                                    ++ membersText members
                                    ++ String "\" (String c u)))
      = Err "Unrecognized escape sequence in character class") /\
  ParseRegexp (q ++ String "[" ((if negated then "^" else "")
                                ++ membersText members ++ "\"))
  = Err "Invalid escape sequence in character class".
Proof.
  intros Hq Hok Hc. split.
  - intros c u Hbad. apply ParseRegexp_tailErr; [exact Hq|].
    apply class_tailErr; [exact Hc | reflexivity|].
    now apply classLoop_bad_escape.
  - apply ParseRegexp_tailErr; [exact Hq|].
    apply class_tailErr; [exact Hc | reflexivity|].
    now apply classLoop_open_escape.
Qed.

Lemma ParseRegexp_class_escape_witness :
  ParseRegexp "a|b[^x\d]" = Err "Unrecognized escape sequence in character class"
  /\ ParseRegexp "(a)[x\" = Err "Invalid escape sequence in character class".
Proof.
  split.
  - apply (proj1 (ParseRegexp_class_escape "a|b" true [memberChar "x"]
                    (or_intror (ex_intro _ _ eq_refl))
                    ltac:(repeat constructor) ltac:(discriminate))
                 "d"%char "]" eq_refl).
  - apply (proj2 (ParseRegexp_class_escape "(a)" false [memberChar "x"]
                    (or_intror (ex_intro _ _ eq_refl))
                    ltac:(repeat constructor) (fun _ => eq_refl))).
Defined.

(** ** The errors of the other malformed patterns *)

Lemma classLoop_unterminated negated : forall members chars,
  Forall memberOk members ->
  classLoop (membersText members) negated chars
  = Err "Expected closing bracket".
Proof.
  induction members as [|m rest IH]; intros chars Hok.
  - reflexivity.
  - inversion Hok as [|? ? Hm Hrest]; subst.
    destruct m as [c1 | c1];
      cbn [membersText memberText append]; rewrite classLoop_String.
    + destruct Hm as [H1 H2]. rewrite H1, H2. now apply IH.
    + cbn in Hm |- *. rewrite Hm. now apply IH.
Qed.

Lemma tailErr_close u : tailErr "Unexpected closing paren" (String ")" u).
Proof. intros [|fuel] regexp; [now right | now left]. Qed.

Lemma tailErr_escape : tailErr "Invalid escape sequence" "\".
Proof. intros [|fuel] regexp; [now right | now left]. Qed.

Lemma tailErr_union_end :
  tailErr "Unexpected end of regular expression" "|".
Proof.
  intros [|[|fuel]] regexp; [now right | now right | now left].
Qed.

Lemma tailErr_open_end :
  tailErr "Unexpected end of regular expression" "(".
Proof.
  intros [|[|fuel]] regexp; [now right | now right | now left].
Qed.

Lemma inner_parse s r fuel :
  ParseRegexp s = Ok r ->
  parseRegexp fuel s true = Ok (r, "") \/
  parseRegexp fuel s true = OutOfFuel.
Proof.
  intros H. destruct (ParseRegexp_loop s r H) as (_ & Hp & _).
  apply (proj1 (parse_inside_parens _ s)) in Hp.
  destruct (parseRegexp fuel s true) as [[r' s']| |] eqn:E;
    [left | exfalso | now right].
  - pose proof (parseRegexp_more_fuel _ (fuel + (2 * length s + 2)) _ _ _ E
                  ltac:(discriminate) ltac:(lia)) as E1.
    pose proof (parseRegexp_more_fuel _ (fuel + (2 * length s + 2)) _ _ _ Hp
                  ltac:(discriminate) ltac:(lia)) as E2.
    congruence.
  - pose proof (parseRegexp_more_fuel _ (fuel + (2 * length s + 2)) _ _ _ E
                  ltac:(discriminate) ltac:(lia)) as E1.
    pose proof (parseRegexp_more_fuel _ (fuel + (2 * length s + 2)) _ _ _ Hp
                  ltac:(discriminate) ltac:(lia)) as E2.
    congruence.
Qed.

Lemma tailErr_unclosed s r :
  ParseRegexp s = Ok r -> tailErr "Expected closing paren" (String "(" s).
Proof.
  intros H [|fuel] regexp; [now right|].
  rewrite parseLoop_S. cbn [Ascii.eqb Bool.eqb andb].
  destruct (inner_parse s r fuel H) as [-> | ->]; [now left | now right].
Qed.

Lemma quantifier_first c u inParen fuel :
  quantifier c ->
  errOrOut (quantifierError c)
           (parseLoop fuel (String c u) inParen regexpEmpty).
Proof.
  intros Hq. destruct fuel as [|fuel]; [now right|]. left.
  destruct Hq as [-> | [-> | ->]]; reflexivity.
Qed.

Lemma tailErr_quantifier_after_open c u :
  quantifier c -> tailErr (quantifierError c) (String "(" (String c u)).
Proof.
  intros Hq [|fuel] regexp; [now right|].
  rewrite parseLoop_S. cbn [Ascii.eqb Bool.eqb andb].
  destruct fuel as [|fuel]; [now right|]. rewrite parseRegexp_S.
  destruct (quantifier_first c u true fuel Hq) as [-> | ->];
    [now left | now right].
Qed.

Lemma tailErr_quantifier_after_union c u :
  quantifier c -> tailErr (quantifierError c) (String "|" (String c u)).
Proof.
  intros Hq [|fuel] regexp; [now right|].
  rewrite parseLoop_S. cbn [Ascii.eqb Bool.eqb andb].
  destruct fuel as [|fuel]; [now right|]. rewrite parseRegexp_S.
  destruct (quantifier_first c u false fuel Hq) as [-> | ->];
    [now left | now right].
Qed.

(** X20: the error [ParseRegexp] returns for each way a pattern goes
    wrong after a well-formed start [q] (or none): a closing paren that
    closes nothing, a backslash or a union bar or an opening paren at the
    end, a paren opened before a well-formed pattern and never closed, a
    quantifier right after an opening paren or a union bar, and a
    character class that is never closed.  The error of the first
    malformed place is the one returned, whatever was read before. *)
Theorem ParseRegexp_error_messages q :
  prefixOk q ->
  (forall u, ParseRegexp (q ++ String ")" u)
             = Err "Unexpected closing paren") /\
  ParseRegexp (q ++ "\") = Err "Invalid escape sequence" /\
  ParseRegexp (q ++ "|") = Err "Unexpected end of regular expression" /\
  ParseRegexp (q ++ "(") = Err "Unexpected end of regular expression" /\
  (forall s r, ParseRegexp s = Ok r ->
               ParseRegexp (q ++ String "(" s)
               = Err "Expected closing paren") /\
  (forall c u, quantifier c ->
               ParseRegexp (q ++ String "(" (String c u))
               = Err (quantifierError c) /\
               ParseRegexp (q ++ String "|" (String c u))
               = Err (quantifierError c)) /\
  (forall negated members,
      Forall memberOk members ->
      (negated = false -> startsWithCaret members = false) ->
      ParseRegexp (q ++ String "[" ((if negated then "^" else "")
                                    ++ membersText members))
      = Err "Expected closing bracket").
Proof.
  intros Hq. repeat split.
  - intros u. apply ParseRegexp_tailErr; [exact Hq | apply tailErr_close].
  - apply ParseRegexp_tailErr; [exact Hq | apply tailErr_escape].
  - apply ParseRegexp_tailErr; [exact Hq | apply tailErr_union_end].
  - apply ParseRegexp_tailErr; [exact Hq | apply tailErr_open_end].
  - intros s r H. apply ParseRegexp_tailErr; [exact Hq|].
    exact (tailErr_unclosed s r H).
  - apply ParseRegexp_tailErr; [exact Hq|].
    now apply tailErr_quantifier_after_open.
  - apply ParseRegexp_tailErr; [exact Hq|].
    now apply tailErr_quantifier_after_union.
  - intros negated members Hok Hc.
    apply ParseRegexp_tailErr; [exact Hq|].
    pose proof (class_tailErr "Expected closing bracket" negated members ""
                  Hc I) as Ht.
    rewrite append_nil_r in Ht. apply Ht.
    now apply classLoop_unterminated.
Qed.

Lemma ParseRegexp_error_messages_witness :
  ParseRegexp "a|b)" = Err "Unexpected closing paren" /\
  ParseRegexp "a|b(c*" = Err "Expected closing paren" /\
  ParseRegexp "a|b(+" = Err "Expected characters before plus".
Proof.
  pose proof (ParseRegexp_error_messages "a|b"
                (or_intror (ex_intro _ _ eq_refl)))
    as (H1 & _ & _ & _ & H5 & H6 & _).
  split; [exact (H1 "")|]. split.
  - exact (H5 "c*" _ eq_refl).
  - exact (proj1 (H6 "+"%char "" (or_intror (or_introl eq_refl)))).
Defined.

(** X21: a pattern that starts with a quantifier, or with a union bar
    before a well-formed pattern, is rejected with the error that names
    what is missing; the empty pattern is rejected too. *)
Theorem ParseRegexp_nothing_before :
  ParseRegexp "" = Err "Unexpected end of regular expression" /\
  (forall c u, quantifier c ->
               ParseRegexp (String c u) = Err (quantifierError c)) /\
  (forall s r, ParseRegexp s = Ok r ->
               ParseRegexp (String "|" s)
               = Err "Expected characters before union").
Proof.
  split; [reflexivity|]. split.
  - intros c u Hq. apply ParseRegexp_errOrOut.
    replace (2 * length (String c u) + 2)
      with (S (2 * length (String c u) + 1)) by lia.
    rewrite parseRegexp_S. now apply quantifier_first.
  - intros s r H. destruct (ParseRegexp_loop s r H) as (_ & Hp & _).
    apply ParseRegexp_errOrOut. left.
    replace (2 * length (String "|" s) + 2)
      with (S (S (2 * length s + 2))) by (simpl; lia).
    rewrite parseRegexp_S, parseLoop_S. cbn [Ascii.eqb Bool.eqb andb].
    now rewrite Hp.
Qed.

End RegexpErrorFacts.

(* ===================================================================== *)
(** * The buffers of a VM-backed input mode *)
(* ===================================================================== *)

Section InputModeBufferFacts.

Import InputModes.

Variables EventKey Event Config CommandParams Action Runtime : Type.
Variable EmptyAction : Action.
Variable eventKeyToVmEvent : EventKey -> Event.
Variable keyRune : EventKey -> option Z.
Variable capturesToCommandParams : list Capture -> list Event -> CommandParams.
Variable runtimeProcessEvent : Runtime -> Event -> Result * Runtime.

Local Abbreviation vmMode :=
  (vmMode Event Config CommandParams Action Runtime).
Local Abbreviation ProcessKeyEvent :=
  (ProcessKeyEvent EmptyAction eventKeyToVmEvent keyRune
                   capturesToCommandParams runtimeProcessEvent).
Local Abbreviation processKeyEvents :=
  (processKeyEvents EventKey Event Config CommandParams Action Runtime
                    EmptyAction eventKeyToVmEvent keyRune
                    capturesToCommandParams runtimeProcessEvent).
Local Abbreviation buffers :=
  (buffers EventKey Event Config CommandParams Action Runtime
           eventKeyToVmEvent keyRune).
Local Abbreviation typedRunes := (typedRunes EventKey keyRune).
Local Abbreviation vmResults :=
  (vmResults EventKey Event Runtime eventKeyToVmEvent runtimeProcessEvent).

Lemma typedRunes_app (events : list EventKey) event :
  typedRunes (events ++ [event])
  = typedRunes events ++ match keyRune event with
                         | Some r => [r]
                         | None => []
                         end.
Proof.
  induction events as [|e rest IH]; simpl.
  - destruct (keyRune event); reflexivity.
  - rewrite IH. destruct (keyRune e); reflexivity.
Qed.

Lemma ProcessKeyEvent_keeps (m : vmMode) pending event config :
  buffers m pending ->
  let result := fst (runtimeProcessEvent (runtime m)
                                         (eventKeyToVmEvent event)) in
  let m' := snd (ProcessKeyEvent m event config) in
  name m' = name m /\
  commands m' = commands m /\
  buffers m' (if Reset result then [] else pending ++ [event]).
Proof.
  intros [Hev Hin] result m'. unfold m', result, InputModes.ProcessKeyEvent.
  destruct (runtimeProcessEvent (runtime m) (eventKeyToVmEvent event))
    as [res runtime1].
  cbn [fst snd].
  destruct (Reset res) eqn:Er; cbn [fst snd name commands].
  - repeat split; reflexivity.
  - repeat split; try reflexivity.
    + cbn [eventBuffer]. rewrite Hev, map_app. reflexivity.
    + unfold InputModes.InputBufferString in *. cbn [inputBuffer].
      rewrite typedRunes_app, Hin.
      destruct (keyRune event); [reflexivity | now rewrite app_nil_r].
Qed.

(** X22: one call of [vmMode.ProcessKeyEvent] on a mode whose buffers
    hold the key events [pending] leaves the name and the commands of the
    mode as they were and steps the runtime once; afterwards the buffers
    are both empty if the VM asked for a reset and hold [pending] and
    the new event otherwise, so that the event buffer and the input
    buffer never drift apart.  Unless the VM accepts, the action is
    [EmptyAction]. *)
Theorem ProcessKeyEvent_buffers (m : vmMode) pending event config :
  buffers m pending ->
  let result := fst (runtimeProcessEvent (runtime m)
                                         (eventKeyToVmEvent event)) in
  let m' := snd (ProcessKeyEvent m event config) in
  name m' = name m /\
  commands m' = commands m /\
  runtime m' = snd (runtimeProcessEvent (runtime m)
                                        (eventKeyToVmEvent event)) /\
  buffers m' (if Reset result then [] else pending ++ [event]) /\
  (Accepted result = false ->
   fst (ProcessKeyEvent m event config) = EmptyAction).
Proof.
  intros [Hev Hin] result m'. unfold m', result, InputModes.ProcessKeyEvent.
  destruct (runtimeProcessEvent (runtime m) (eventKeyToVmEvent event))
    as [res runtime1].
  cbn [fst snd].
  destruct (Reset res) eqn:Er; cbn [fst snd name commands runtime].
  - repeat split; try reflexivity.
    intros Ha. now rewrite Ha.
  - repeat split; try reflexivity.
    + cbn [eventBuffer]. rewrite Hev, map_app. reflexivity.
    + unfold InputModes.InputBufferString in *. cbn [inputBuffer].
      rewrite typedRunes_app, Hin.
      destruct (keyRune event); [reflexivity | now rewrite app_nil_r].
    + intros Ha. now rewrite Ha.
Qed.

Lemma ProcessKeyEvent_runtime (m : vmMode) event config :
  runtime (snd (ProcessKeyEvent m event config))
  = snd (runtimeProcessEvent (runtime m) (eventKeyToVmEvent event)).
Proof.
  unfold InputModes.ProcessKeyEvent.
  destruct (runtimeProcessEvent (runtime m) (eventKeyToVmEvent event))
    as [res runtime1].
  now destruct (Reset res).
Qed.

(** X23: over any sequence of calls of [vmMode.ProcessKeyEvent], whatever
    the VM answers, one action is returned per key event, the name and
    the commands of the mode stay as they were, and the buffers hold in
    the end exactly the key events since the VM last asked for a reset:
    with [n] the number of events up to and including the last one that
    the VM answered with a reset, the events after the first [n]; and
    when the VM never asked for a reset, what the buffers held before
    followed by all the events. *)
Theorem processKeyEvents_buffers :
  forall (events : list (EventKey * Config)) (m : vmMode) pending,
    buffers m pending ->
    let results := vmResults (runtime m) (map fst events) in
    let actions := fst (processKeyEvents m events) in
    let m' := snd (processKeyEvents m events) in
    length actions = length events /\
    name m' = name m /\
    commands m' = commands m /\
    length results = length events /\
    exists n,
      n <= length events /\
      Forall (fun result => Reset result = false) (skipn n results) /\
      match n with
      | O => buffers m' (pending ++ map fst events)
      | S i =>
          (exists result,
              nth_error results i = Some result /\ Reset result = true) /\
          buffers m' (skipn n (map fst events))
      end.
Proof.
  induction events as [|[event config] rest IH]; intros m pending Hb.
  - cbn. repeat split; try reflexivity.
    exists 0. split; [lia|]. split; [constructor|].
    rewrite app_nil_r. exact Hb.
  - cbn [InputModes.processKeyEvents InputModes.vmResults map fst].
    pose proof (ProcessKeyEvent_keeps m pending event config Hb) as Hstep.
    pose proof (ProcessKeyEvent_runtime m event config) as Hrt.
    cbv zeta in Hstep.
    destruct (ProcessKeyEvent m event config) as [action m1] eqn:Ek.
    cbn [fst snd] in Hstep, Hrt.
    destruct Hstep as (Hn & Hc & Hb1).
    destruct (runtimeProcessEvent (runtime m) (eventKeyToVmEvent event))
      as [result runtime1] eqn:Er.
    cbn [fst snd] in Hb1, Hrt.
    specialize (IH m1 _ Hb1). cbv zeta in IH. rewrite Hrt in IH.
    destruct (processKeyEvents m1 rest) as [actions m2].
    cbn [fst snd] in *.
    destruct IH as (Hl & Hn2 & Hc2 & Hlr & n & Hle & Hno & Hlast).
    split; [cbn; now rewrite Hl|].
    split; [congruence|]. split; [congruence|].
    split; [cbn; now rewrite Hlr|].
    destruct n as [|i].
    + destruct (Reset result) eqn:Ereset.
      * exists 1. split; [cbn; lia|]. split; [exact Hno|].
        split; [exists result; split; [reflexivity | exact Ereset]|].
        exact Hlast.
      * exists 0. split; [lia|].
        split; [constructor; [exact Ereset | exact Hno]|].
        rewrite <- app_assoc in Hlast. exact Hlast.
    + exists (S (S i)). split; [cbn in *; lia|].
      split; [exact Hno|]. exact Hlast.
Qed.

End InputModeBufferFacts.

Section InputModeBufferExamples.

Import Strings.String List ListNotations.
Import InputModes.
Local Open Scope string_scope.
Local Open Scope list_scope.

(** A VM that never accepts and asks for a reset on the escape key, with
    key events given by their rune, or by a negative number for a key
    that is no rune. *)
Lemma ProcessKeyEvent_buffers_witness :
  let step := fun (n : nat) (e : Z) =>
                (mkResult false [] (e =? -27)%Z, S n) in
  let rune := fun k : Z => if (0 <=? k)%Z then Some k else None in
  let params := fun (_ : list Capture) (_ : list Z) => tt in
  let m := mkVmMode (Config := unit) (CommandParams := unit) (Action := nat)
             "normal" 0 [100%Z] [100%Z] [] in
  inputBuffer (snd (ProcessKeyEvent 0 (fun k => k) rune params step
                      m 119%Z tt)) = [100%Z; 119%Z] /\
  eventBuffer (snd (ProcessKeyEvent 0 (fun k => k) rune params step
                      m (-27)%Z tt)) = [].
Proof.
  intros step rune params m. split.
  - destruct (ProcessKeyEvent_buffers Z Z unit unit nat nat 0
                (fun k => k) rune params step m [100%Z] 119%Z tt
                (conj eq_refl eq_refl))
      as (_ & _ & _ & [_ Hin] & _).
    exact Hin.
  - destruct (ProcessKeyEvent_buffers Z Z unit unit nat nat 0
                (fun k => k) rune params step m [100%Z] (-27)%Z tt
                (conj eq_refl eq_refl))
      as (_ & _ & _ & [Hev _] & _).
    exact Hev.
Defined.

Lemma processKeyEvents_buffers_witness :
  let step := fun (n : nat) (e : Z) =>
                (mkResult false [] (e =? -27)%Z, S n) in
  let rune := fun k : Z => if (0 <=? k)%Z then Some k else None in
  let params := fun (_ : list Capture) (_ : list Z) => tt in
  let m := mkVmMode (Config := unit) (CommandParams := unit) (Action := nat)
             "normal" 0 [] [] [] in
  let run := processKeyEvents Z Z unit unit nat nat 0 (fun k => k) rune
               params step m
               [(100%Z, tt); (-27, tt)%Z; (119%Z, tt); (-13, tt)%Z] in
  length (fst run) = 4 /\
  eventBuffer (snd run) = [119%Z; (-13)%Z] /\
  InputBufferString Z unit unit nat nat (snd run) = [119%Z].
Proof.
  intros step rune params m run.
  destruct (processKeyEvents_buffers Z Z unit unit nat nat 0
              (fun k => k) rune params step
              [(100%Z, tt); (-27, tt)%Z; (119%Z, tt); (-13, tt)%Z] m []
              (conj eq_refl eq_refl))
    as (Hlen & _ & _ & _ & n & Hle & Hno & Hlast).
  split; [exact Hlen|].
  destruct n as [|[|[|n]]].
  - inversion Hno as [|? ? _ Hno1]; subst.
    inversion Hno1 as [|? ? Hreset _]; subst. discriminate Hreset.
  - inversion Hno as [|? ? Hreset _]; subst. discriminate Hreset.
  - destruct Hlast as [_ [Hev Hin]]. split; [exact Hev | exact Hin].
  - destruct Hlast as [(result & Hnth & Hreset) _]. exfalso.
    destruct n as [|[|n]]; cbn in Hnth.
    + injection Hnth as <-. discriminate Hreset.
    + injection Hnth as <-. discriminate Hreset.
    + cbn in Hle. lia.
Defined.

End InputModeBufferExamples.
